(** * go-blue: the single-pass compiler of [src/compiler/compiler.go]

    A shallow embedding of the precedence-climbing compiler and the
    properties of it that the specification states.  The Go methods on
    [*Compiler] mutate the receiver; here every method is a function on an
    explicit [Compiler] state.  Methods that can loop or recurse without a
    structural bound, or that can raise a Go runtime panic, return a
    [Result]. *)

From Stdlib Require Import ZArith List String Ascii Bool Arith Lia.
From Stdlib Require Import DecimalString SpecFloat.
Import ListNotations.

Local Open Scope string_scope.
Local Open Scope list_scope.
Local Open Scope Z_scope.

(* ================================================================== *)
(** ** Package [parser]: the token source *)

Module parser.

(** Modelled from the spec: the token type tags of package [parser], which
    is not under src/.  The names used by compiler.go are kept; [Number],
    [String], [LeftParen] and [RightParen] are named after the spec's list
    (number literal, string literal, parentheses). *)
Inductive TokenType : Set :=
| Eof | Newline | Error
| Number | String
| True | False | Nil | Return | Fn
| Plus | Minus | Star | Slash | Caret | Percent
| Bang | Equal | EqualEqual | BangEqual
| Less | LessEqual | Greater | GreaterEqual
| LeftParen | RightParen | LeftBrace | RightBrace
| Semicolon | Dot.

Definition TokenType_eq_dec (a b : TokenType) : {a = b} + {a <> b}.
Proof. decide equality. Defined.

Definition eqb (a b : TokenType) : bool :=
  if TokenType_eq_dec a b then true else false.

(** Modelled from the spec: a token is a type tag, a lexeme and a line. *)
Record Token : Set := mkToken {
  Type_ : TokenType;
  Lexeme : string;
  Line : Z
}.

(** Modelled from the spec: the pull-based token source with one token of
    lookahead.  [pending] is what the tokenizer has still to deliver; once
    it is exhausted every further pull delivers an end-of-input token on
    line [endLine]. *)
Record Parser : Set := mkParser {
  previous : Token;
  current : Token;
  pending : list Token;
  endLine : Z
}.

Definition Previous (p : Parser) : Token := previous p.
Definition Current (p : Parser) : Token := current p.

Definition SetPrevious (t : Token) (p : Parser) : Parser :=
  mkParser t (current p) (pending p) (endLine p).

Definition SetCurrent (t : Token) (p : Parser) : Parser :=
  mkParser (previous p) t (pending p) (endLine p).

Definition eofToken (p : Parser) : Token := mkToken Eof "" (endLine p).

Definition NextToken (p : Parser) : Token * Parser :=
  match pending p with
  | [] => (eofToken p, p)
  | t :: ts => (t, mkParser (previous p) (current p) ts (endLine p))
  end.

(** Modelled from the spec: a fresh parser over a tokenized source.  The
    two token slots start with [init], whatever the zero token is. *)
Definition NewParser (init : Token) (tokens : list Token) (eol : Z) : Parser :=
  mkParser init init tokens eol.

End parser.


(* ================================================================== *)
(** ** Package [value] *)

Module value.

(** Modelled from the spec: the runtime value, a tagged union.  A Number
    is a 64-bit float, kept as the Standard Library's [spec_float]. *)
Inductive Value : Set :=
| Number (f : spec_float)
| String (s : string)
| Boolean (b : bool)
| Nil.

End value.

(* ================================================================== *)
(** ** Opcodes and chunks *)

Module OpCode.

Inductive t : Set :=
| Constant | Nil | True | False | Pop | Return
| Negate | Not
| Add | Subtract | Multiply | Divide | Exponentiate | Reminder
| Equal | NotEqual | Greater | GreaterEqual | Less | LessEqual.

(** Modelled from the spec: the byte of an opcode, numbered in the order
    in which the spec lists the opcode set. *)
Definition uint8 (o : t) : Z :=
  match o with
  | Constant => 0 | Nil => 1 | True => 2 | False => 3 | Pop => 4
  | Return => 5 | Negate => 6 | Not => 7 | Add => 8 | Subtract => 9
  | Multiply => 10 | Divide => 11 | Exponentiate => 12 | Reminder => 13
  | Equal => 14 | NotEqual => 15 | Greater => 16 | GreaterEqual => 17
  | Less => 18 | LessEqual => 19
  end.

End OpCode.


Record Chunk : Set := mkChunk {
  code : list Z;
  constants : list value.Value
}.

(** Modelled from the spec: chunk.go is not under src/.  A chunk is created
    empty; [pushCode] appends one byte and [pushConstant] appends one value
    and returns its index as an unsigned 16-bit number. *)
Definition NewChunk : Chunk := mkChunk [] [].

Definition pushCode (b : Z) (ch : Chunk) : Chunk :=
  mkChunk (code ch ++ [b]) (constants ch).

Definition pushConstant (v : value.Value) (ch : Chunk) : Z * Chunk :=
  (Z.of_nat (List.length (constants ch)) mod 65536,
   mkChunk (code ch) (constants ch ++ [v])).

(* ================================================================== *)
(** ** The compiler state *)

(** The four fields of the Go struct, and [stderr]: the lines written to
    [os.Stderr] so far, oldest first. *)
Record Compiler : Set := mkCompiler {
  p : parser.Parser;
  chunk : Chunk;
  hadError : bool;
  panicMode : bool;
  stderr : list string
}.

Definition NewCompiler (init : parser.Token) (tokens : list parser.Token)
    (eol : Z) : Compiler :=
  mkCompiler (parser.NewParser init tokens eol) NewChunk false false [].

Definition setP (q : parser.Parser) (c : Compiler) : Compiler :=
  mkCompiler q (chunk c) (hadError c) (panicMode c) (stderr c).

Definition setChunk (ch : Chunk) (c : Compiler) : Compiler :=
  mkCompiler (p c) ch (hadError c) (panicMode c) (stderr c).

Definition prevType (c : Compiler) : parser.TokenType :=
  parser.Type_ (parser.Previous (p c)).

Definition curType (c : Compiler) : parser.TokenType :=
  parser.Type_ (parser.Current (p c)).

(** *** Diagnostics *)

Definition itoa (n : Z) : string := NilZero.string_of_int (Z.to_int n).

(** The text one call of [errorAt] writes when it is not suppressed. *)
Definition diagnostic (token : parser.Token) (message : string) : string :=
  ("[line " ++ itoa (parser.Line token) ++ "] Error" ++
   match parser.Type_ token with
   | parser.Eof => " at end"
   | parser.Newline => " at newline"
   | _ => " at '" ++ parser.Lexeme token ++ "'"
   end ++ ": " ++ message ++ String (ascii_of_nat 10) "")%string.

Definition errorAt (token : parser.Token) (message : string) (c : Compiler)
    : Compiler :=
  if panicMode c then c
  else mkCompiler (p c) (chunk c) true true
                  (stderr c ++ [diagnostic token message]).

Definition error (message : string) (c : Compiler) : Compiler :=
  errorAt (parser.Previous (p c)) message c.

Definition errorAtCurrent (message : string) (c : Compiler) : Compiler :=
  errorAt (parser.Current (p c)) message c.

(** *** Token handling *)

(** [consumeNewlines]: pull tokens while the current one is a newline.  The
    recursion is on the tokens still pending: an exhausted source delivers
    end-of-input, which ends the loop. *)
Fixpoint consumeNewlinesFrom (cur : parser.Token) (ts : list parser.Token)
    (eof : parser.Token) {struct ts} : parser.Token * list parser.Token :=
  match parser.Type_ cur with
  | parser.Newline =>
      match ts with
      | [] => (eof, [])
      | t :: ts' => consumeNewlinesFrom t ts' eof
      end
  | _ => (cur, ts)
  end.

Definition consumeNewlines (c : Compiler) : Compiler :=
  let q := p c in
  let '(cur, ts) :=
    consumeNewlinesFrom (parser.current q) (parser.pending q) (parser.eofToken q) in
  setP (parser.mkParser (parser.previous q) cur ts (parser.endLine q)) c.

Definition skipNewlines (c : Compiler) : Compiler :=
  match prevType c with
  | parser.Newline | parser.LeftBrace | parser.RightBrace
  | parser.Semicolon | parser.Dot => consumeNewlines c
  | _ => c
  end.

(** The loop of [advance]: pull the next token; an [Error] token is
    reported with its lexeme as the message and the next one is pulled. *)
Fixpoint pullToken (ts : list parser.Token) (c : Compiler) {struct ts}
    : Compiler :=
  match ts with
  | [] =>
      let '(t, q) := parser.NextToken (p c) in
      setP (parser.SetCurrent t q) c
  | t :: ts' =>
      let c1 :=
        setP (parser.mkParser (parser.previous (p c)) t ts' (parser.endLine (p c))) c in
      match parser.Type_ t with
      | parser.Error => pullToken ts' (errorAtCurrent (parser.Lexeme t) c1)
      | _ => c1
      end
  end.

Definition advance (c : Compiler) : Compiler :=
  let c1 := setP (parser.SetPrevious (parser.Current (p c)) (p c)) c in
  let c2 := pullToken (parser.pending (p c1)) c1 in
  skipNewlines c2.

Definition check (tokenType : parser.TokenType) (c : Compiler) : bool :=
  if parser.eqb tokenType parser.Newline && parser.eqb (prevType c) parser.RightBrace
  then true
  else parser.eqb (curType c) tokenType.

Definition consume (tokenType : parser.TokenType) (message : string)
    (c : Compiler) : Compiler :=
  if check tokenType c then advance c else errorAtCurrent message c.

(** [match], which is a keyword here. *)
Definition match_ (tokenType : parser.TokenType) (c : Compiler)
    : bool * Compiler :=
  if negb (check tokenType c) then (false, c) else (true, advance c).

Definition expectNewlineOrSemicolon (c : Compiler) : Compiler :=
  if parser.eqb (prevType c) parser.RightBrace then c
  else if parser.eqb (curType c) parser.RightBrace then c
  else if parser.eqb (prevType c) parser.Eof || parser.eqb (curType c) parser.Eof then c
  else
    let '(m, c1) := match_ parser.Semicolon c in
    if negb m then consume parser.Newline "Expect newline or ';'." c1 else c1.

(** *** Emitting code *)

Definition emitByte (byte : Z) (c : Compiler) : Compiler :=
  setChunk (pushCode byte (chunk c)) c.

Definition emitShort (short : Z) (c : Compiler) : Compiler :=
  let c1 := setChunk (pushCode (Z.land (Z.shiftr short 8) 255) (chunk c)) c in
  setChunk (pushCode (Z.land short 255) (chunk c1)) c1.

Definition emitOpCode (opCode : OpCode.t) (c : Compiler) : Compiler :=
  setChunk (pushCode (OpCode.uint8 opCode) (chunk c)) c.

Definition emitConstant (v : value.Value) (c : Compiler) : Compiler :=
  let '(constant, ch) := pushConstant v (chunk c) in
  emitShort constant (emitOpCode OpCode.Constant (setChunk ch c)).

Definition emitReturn (c : Compiler) : Compiler :=
  emitOpCode OpCode.Return (emitOpCode OpCode.Nil c).

(* ================================================================== *)
(** ** Results of methods that may panic or need fuel *)

Inductive Result (A : Type) : Type :=
| Ok (a : A) (c : Compiler)
| Panic (msg : string)
| OutOfFuel.

Arguments Ok {A} a c.
Arguments Panic {A} msg.
Arguments OutOfFuel {A}.

Definition M (A : Type) : Type := Compiler -> Result A.

Definition ret {A : Type} (a : A) : M A := fun c => Ok a c.

Definition bind {A B : Type} (m : M A) (f : A -> M B) : M B :=
  fun c =>
    match m c with
    | Ok a c' => f a c'
    | Panic msg => Panic msg
    | OutOfFuel => OutOfFuel
    end.

(** A method that always returns normally. *)
Definition lift (f : Compiler -> Compiler) : M unit := fun c => Ok tt (f c).

Notation "m1 ;; m2" := (bind m1 (fun _ => m2))
  (at level 61, right associativity).

(* ================================================================== *)
(** ** Precedence levels and parse rules *)

(** Modelled from the spec: the precedence levels, a total order from
    [None] to [Primary]; [binary] adds one to a level, so they are numbers. *)
Definition Precedence : Set := nat.

Definition PrecedenceNone : Precedence := 0%nat.
Definition PrecedenceAssignment : Precedence := 1%nat.
Definition PrecedenceEquality : Precedence := 2%nat.
Definition PrecedenceComparison : Precedence := 3%nat.
Definition PrecedenceTerm : Precedence := 4%nat.
Definition PrecedenceFactor : Precedence := 5%nat.
Definition PrecedenceExponent : Precedence := 6%nat.
Definition PrecedenceUnary : Precedence := 7%nat.
Definition PrecedencePrimary : Precedence := 8%nat.

(** The methods of compiler.go that have the type of a parse function: a
    method on a compiler that takes the canAssign flag. *)
Inductive ParseFn : Set :=
| fn_unary | fn_binary | fn_number | fn_string | fn_literal.

(** Modelled from the spec: one row of the parse-rule table; a missing
    prefix or infix function is Go's nil. *)
Record ParseRule : Set := mkRule {
  prefix : option ParseFn;
  infix : option ParseFn;
  precedence : Precedence
}.

(** Go's slice indexing with an [int] index: out of range panics. *)
Definition index (l : list Z) (i : Z) : option Z :=
  if i <? 0 then None else nth_error l (Z.to_nat i).

Fixpoint setNth (l : list Z) (n : nat) (v : Z) : list Z :=
  match l, n with
  | [], _ => []
  | _ :: l', O => v :: l'
  | x :: l', S n' => x :: setNth l' n' v
  end.

Section WithTable.

(** [strconv.ParseFloat(lexeme, 64)] of Go's standard library: [None]
    stands for a non-nil error. *)
Variable ParseFloat : string -> option spec_float.

(** The table [parseRules] is declared outside compiler.go. *)
Variable parseRules : parser.TokenType -> ParseRule.

Section Rules.

(** The parse functions call back into [parsePrecedence]. *)
Variable parsePrecedence : Precedence -> M unit.

Definition unaryWith (canAssign : bool) : M unit := fun c =>
  let operatorType := prevType c in
  (parsePrecedence PrecedenceUnary ;;
   fun c =>
     match operatorType with
     | parser.Bang => Ok tt (emitOpCode OpCode.Not c)
     | parser.Minus => Ok tt (emitOpCode OpCode.Negate c)
     | _ => Panic "unreachable"
     end) c.

Definition binaryWith (canAssign : bool) : M unit := fun c =>
  let operatorType := prevType c in
  let rule := parseRules operatorType in
  (parsePrecedence (precedence rule + 1)%nat ;;
   lift (fun c =>
     match operatorType with
     | parser.EqualEqual => emitOpCode OpCode.Equal c
     | parser.Greater => emitOpCode OpCode.Greater c
     | parser.GreaterEqual => emitOpCode OpCode.GreaterEqual c
     | parser.Less => emitOpCode OpCode.Less c
     | parser.LessEqual => emitOpCode OpCode.LessEqual c
     | parser.BangEqual => emitOpCode OpCode.NotEqual c
     | parser.Plus => emitOpCode OpCode.Add c
     | parser.Minus => emitOpCode OpCode.Subtract c
     | parser.Slash => emitOpCode OpCode.Divide c
     | parser.Star => emitOpCode OpCode.Multiply c
     | parser.Caret => emitOpCode OpCode.Exponentiate c
     | parser.Percent => emitOpCode OpCode.Reminder c
     | _ => c
     end)) c.

Definition number (canAssign : bool) : M unit := fun c =>
  let lexeme := parser.Lexeme (parser.Previous (p c)) in
  match ParseFloat lexeme with
  | None => Panic "strconv.ParseFloat: invalid syntax"
  | Some number => Ok tt (emitConstant (value.Number number) c)
  end.

(** [string], the parse function of string literals. *)
Definition string_ (canAssign : bool) : M unit := fun c =>
  let lexeme := parser.Lexeme (parser.Previous (p c)) in
  if (String.length lexeme <? 2)%nat
  then Panic "slice bounds out of range"
  else
    let s := substring 1 (String.length lexeme - 2) lexeme in
    Ok tt (emitConstant (value.String s) c).

Definition literal (canAssign : bool) : M unit := fun c =>
  match prevType c with
  | parser.False => Ok tt (emitOpCode OpCode.False c)
  | parser.True => Ok tt (emitOpCode OpCode.True c)
  | parser.Nil => Ok tt (emitOpCode OpCode.Nil c)
  | _ => Panic "unreachable"
  end.

(** Calling an entry of the table; calling nil panics. *)
Definition call (rule : option ParseFn) (canAssign : bool) : M unit :=
  match rule with
  | None => fun _ => Panic "invalid memory address or nil pointer dereference"
  | Some fn_unary => unaryWith canAssign
  | Some fn_binary => binaryWith canAssign
  | Some fn_number => number canAssign
  | Some fn_string => string_ canAssign
  | Some fn_literal => literal canAssign
  end.

(** The infix loop of [parsePrecedence]. *)
Fixpoint infixLoop (fuel : nat) (precedence_ : Precedence)
    (canAssign : bool) (c : Compiler) : Result unit :=
  match fuel with
  | O => OutOfFuel
  | S n =>
      if (precedence_ <? precedence (parseRules (curType c)))%nat then
        let c := advance c in
        let infixRule := infix (parseRules (prevType c)) in
        (call infixRule canAssign ;;
         infixLoop n precedence_ canAssign) c
      else Ok tt c
  end.

(** The body of [parsePrecedence]; [fuel] bounds the infix loop. *)
Definition parsePrecedenceWith (fuel : nat) (precedence_ : Precedence)
    : M unit := fun c =>
  let c := advance c in
  match prefix (parseRules (prevType c)) with
  | None => Ok tt (error "Expect expression." c)
  | Some prefixRule =>
      let canAssign := (precedence_ <? PrecedenceAssignment)%nat in
      (call (Some prefixRule) canAssign ;;
       infixLoop fuel precedence_ canAssign ;;
       fun c =>
         if canAssign then
           let '(m, c) := match_ parser.Equal c in
           if m then
             (* c.expression() *)
             parsePrecedence PrecedenceAssignment
               (error "Invalid assignment target." c)
           else Ok tt c
         else Ok tt c) c
  end.

End Rules.

(** Tying the knot: [fuel] bounds the depth of the calls between
    [parsePrecedence] and the parse functions, and each infix loop. *)
Fixpoint parsePrecedence (fuel : nat) (precedence_ : Precedence)
    (c : Compiler) : Result unit :=
  match fuel with
  | O => OutOfFuel
  | S n => parsePrecedenceWith (parsePrecedence n) n precedence_ c
  end.

Definition unary (fuel : nat) : bool -> M unit :=
  unaryWith (parsePrecedence fuel).

Definition binary (fuel : nat) : bool -> M unit :=
  binaryWith (parsePrecedence fuel).

Definition expression (fuel : nat) : M unit :=
  parsePrecedence fuel PrecedenceAssignment.

Definition expressionStatement (fuel : nat) : M unit :=
  expression fuel ;;
  lift (emitOpCode OpCode.Pop) ;;
  lift expectNewlineOrSemicolon.

Definition returnStatement (fuel : nat) : M unit := fun c =>
  let '(m, c) := match_ parser.Newline c in
  if m then Ok tt (emitReturn c)
  else
    let needsNewline := negb (check parser.Fn c) in
    (expression fuel ;;
     lift (emitOpCode OpCode.Return) ;;
     if needsNewline then lift expectNewlineOrSemicolon else ret tt) c.

Definition statement (fuel : nat) : M unit := fun c =>
  let '(m, c) := match_ parser.Return c in
  if m then returnStatement fuel c else expressionStatement fuel c.

Definition declaration (fuel : nat) : M unit := statement fuel.

(** The first loop of [Compile]: advance until no newline is ahead. *)
Fixpoint skipLeading (fuel : nat) (c : Compiler) : Result unit :=
  match fuel with
  | O => OutOfFuel
  | S n =>
      let c := advance c in
      if negb (check parser.Newline c) then Ok tt c else skipLeading n c
  end.

(** The second loop of [Compile]: declarations up to end-of-input. *)
Fixpoint declarations (fuel : nat) (c : Compiler) : Result unit :=
  match fuel with
  | O => OutOfFuel
  | S n =>
      let '(m, c) := match_ parser.Eof c in
      if m then Ok tt c else (declaration n ;; declarations n) c
  end.

(** "Patch last Pop for REPL". *)
Definition patchLastPop : M unit := fun c =>
  let code_ := code (chunk c) in
  let last := Z.of_nat (List.length code_) - 1 in
  match index code_ last with
  | None => Panic "index out of range [-1]"
  | Some b =>
      if b =? OpCode.uint8 OpCode.Pop then
        Ok tt (setChunk (mkChunk (setNth code_ (Z.to_nat last)
                                         (OpCode.uint8 OpCode.Return))
                                 (constants (chunk c))) c)
      else Ok tt c
  end.

Definition Compile (fuel : nat) : M (option Chunk) :=
  skipLeading fuel ;;
  declarations fuel ;;
  patchLastPop ;;
  fun c => if hadError c then Ok None c else Ok (Some (chunk c)) c.

End WithTable.

(* ================================================================== *)
(** ** The table and a number parser to run the compiler on *)

(** Modelled from the spec: the static table [parseRules], which is not
    under src/.  Prefix rules: number, string, the literal keywords and the
    unary operators [!] and [-]; every binary operator has the infix rule
    [binary] at its level; all other tokens have no rule and level None. *)
Definition specRules (t : parser.TokenType) : ParseRule :=
  match t with
  | parser.Number => mkRule (Some fn_number) None PrecedenceNone
  | parser.String => mkRule (Some fn_string) None PrecedenceNone
  | parser.True | parser.False | parser.Nil =>
      mkRule (Some fn_literal) None PrecedenceNone
  | parser.Bang => mkRule (Some fn_unary) None PrecedenceNone
  | parser.Minus => mkRule (Some fn_unary) (Some fn_binary) PrecedenceTerm
  | parser.Plus => mkRule None (Some fn_binary) PrecedenceTerm
  | parser.Star | parser.Slash | parser.Percent =>
      mkRule None (Some fn_binary) PrecedenceFactor
  | parser.Caret => mkRule None (Some fn_binary) PrecedenceExponent
  | parser.EqualEqual | parser.BangEqual =>
      mkRule None (Some fn_binary) PrecedenceEquality
  | parser.Less | parser.LessEqual | parser.Greater | parser.GreaterEqual =>
      mkRule None (Some fn_binary) PrecedenceComparison
  | _ => mkRule None None PrecedenceNone
  end.

(** A stand-in for [strconv.ParseFloat] on the examples: it accepts the
    non-empty strings of decimal digits and yields the integer they
    denote. *)
Fixpoint digitsValue (s : string) (acc : N) : option N :=
  match s with
  | EmptyString => Some acc
  | String a s' =>
      let d := N_of_ascii a in
      if ((48 <=? d) && (d <=? 57))%N
      then digitsValue s' (acc * 10 + (d - 48))%N
      else None
  end.

Definition parseDigits (s : string) : option spec_float :=
  match s with
  | EmptyString => None
  | _ =>
      match digitsValue s 0%N with
      | Some 0%N => Some (S754_zero false)
      | Some (Npos m) => Some (S754_finite false m 0)
      | None => None
      end
  end.

(** A token on line 1. *)
Definition tok (t : parser.TokenType) (lexeme : string) : parser.Token :=
  parser.mkToken t lexeme 1.

(** A fresh compiler over a token list, for the examples. *)
Definition fresh (tokens : list parser.Token) : Compiler :=
  NewCompiler (tok parser.Eof "") tokens 1.

(** The tokens of [1 + 1]. *)
Definition onePlusOne : list parser.Token :=
  [tok parser.Number "1"; tok parser.Plus "+"; tok parser.Number "1"].

(* ================================================================== *)
(** ** Predicates used in the statements *)

(** Every normal return of [m] relates the state before it to the state
    after it by [R]. *)
Definition respects (R : Compiler -> Compiler -> Prop) {A : Type} (m : M A)
    : Prop :=
  forall c a c', m c = Ok a c' -> R c c'.

(** Nothing was reported between [c] and [c']. *)
Definition quiet (c c' : Compiler) : Prop :=
  hadError c' = hadError c /\ panicMode c' = panicMode c /\
  stderr c' = stderr c.

(** Between [c] and [c'] either nothing was reported, or exactly one line
    was, which switched panic mode on. *)
Definition diagStep (c c' : Compiler) : Prop :=
  quiet c c' \/
  (panicMode c = false /\ panicMode c' = true /\ hadError c' = true /\
   exists line, stderr c' = stderr c ++ [line]).

(** The invariant that ties the two flags to the output. *)
Definition diagInv (c : Compiler) : Prop :=
  (hadError c = true <-> stderr c <> []) /\ panicMode c = hadError c /\
  (List.length (stderr c) <= 1)%nat.

(** The statement terminator rule in the spec's words: no terminator is
    required when the previous token was a closing brace, the next token
    is a closing brace, or either side is end-of-input. *)
Definition terminatorExempt (c : Compiler) : bool :=
  parser.eqb (prevType c) parser.RightBrace ||
  parser.eqb (curType c) parser.RightBrace ||
  parser.eqb (prevType c) parser.Eof ||
  parser.eqb (curType c) parser.Eof.

(** A newline or a separator is the current token. *)
Definition terminatorAhead (c : Compiler) : bool :=
  parser.eqb (curType c) parser.Semicolon ||
  parser.eqb (curType c) parser.Newline.

(** They leave the chunk alone. *)
Definition sameChunk (c c' : Compiler) : Prop := chunk c' = chunk c.

(** A state in which the number 1 has just been consumed and [next] is
    ahead; used in examples. *)
Definition afterNumber (next : parser.Token) : Compiler :=
  mkCompiler (parser.mkParser (tok parser.Number "1") next [] 1)
             NewChunk false false [].

(** The last byte of the code is the opcode [o]. *)
Definition endsWith (o : OpCode.t) (ch : Chunk) : Prop :=
  exists bs, code ch = bs ++ [OpCode.uint8 o].

(** The two loops of [Compile], before the last byte is patched. *)
Definition compileLoops (ParseFloat : string -> option spec_float)
    (parseRules : parser.TokenType -> ParseRule) (fuel : nat) : M unit :=
  skipLeading fuel ;; declarations ParseFloat parseRules fuel.

(** A newline or end-of-input token. *)
Definition blank (t : parser.Token) : Prop :=
  parser.Type_ t = parser.Newline \/ parser.Type_ t = parser.Eof.

(** What is left of the source: the pending tokens, and the current one
    unless it is end-of-input. *)
Definition remaining (c : Compiler) : nat :=
  (List.length (parser.pending (p c)) +
   (if parser.eqb (curType c) parser.Eof then 0 else 1))%nat.

(** The result is not out of fuel, and a normal return leaves at most
    [bound] of the source. *)
Definition within {A : Type} (bound : nat) (r : Result A) : Prop :=
  match r with
  | Ok _ c' => (remaining c' <= bound)%nat
  | Panic _ => True
  | OutOfFuel => False
  end.

(** A state in which [return] has just been consumed, with [cur] ahead and
    [rest] behind it; used in examples. *)
Definition afterReturn (cur : parser.Token) (rest : list parser.Token)
    : Compiler :=
  mkCompiler (parser.mkParser (tok parser.Return "return") cur rest 1)
             NewChunk false false [].

(** A state with [cur] ahead and [rest] behind it, at the start of an
    expression; used in examples. *)
Definition ahead (cur : parser.Token) (rest : list parser.Token) : Compiler :=
  mkCompiler (parser.mkParser (tok parser.Eof "") cur rest 1)
             NewChunk false false [].

(** The opcode [binary] emits for an operator token, as its switch has
    it. *)
Definition binaryOpCode (t : parser.TokenType) : option OpCode.t :=
  match t with
  | parser.EqualEqual => Some OpCode.Equal
  | parser.Greater => Some OpCode.Greater
  | parser.GreaterEqual => Some OpCode.GreaterEqual
  | parser.Less => Some OpCode.Less
  | parser.LessEqual => Some OpCode.LessEqual
  | parser.BangEqual => Some OpCode.NotEqual
  | parser.Plus => Some OpCode.Add
  | parser.Minus => Some OpCode.Subtract
  | parser.Slash => Some OpCode.Divide
  | parser.Star => Some OpCode.Multiply
  | parser.Caret => Some OpCode.Exponentiate
  | parser.Percent => Some OpCode.Reminder
  | _ => None
  end.

(** The tokens of [a t1 b t2 c], three numbers and two operators. *)
Definition twoOperators (a b c : string) (t1 t2 : parser.TokenType)
    (s1 s2 : string) : list parser.Token :=
  [tok parser.Number a; tok t1 s1; tok parser.Number b; tok t2 s2;
   tok parser.Number c].

(** The code of [(a o1 b) o2 c]: the operands are the constants 0, 1 and 2,
    and [o1] is applied before the third operand is pushed. *)
Definition leftGrouped (o1 o2 : OpCode.t) : list Z :=
  [OpCode.uint8 OpCode.Constant; 0; 0;
   OpCode.uint8 OpCode.Constant; 0; 1;
   OpCode.uint8 o1;
   OpCode.uint8 OpCode.Constant; 0; 2;
   OpCode.uint8 o2;
   OpCode.uint8 OpCode.Return].

(** A total number parser for the examples: [parseDigits], and zero where
    it fails. *)
Definition digitsOrZero (s : string) : spec_float :=
  match parseDigits s with
  | Some v => v
  | None => S754_zero false
  end.

(** A token the tokenizer may deliver: the lexeme of a number is accepted
    by the number parser [PF], and the lexeme of a string has its two
    quotes. *)
Definition okToken (PF : string -> option spec_float) (t : parser.Token)
    : Prop :=
  match parser.Type_ t with
  | parser.Number => PF (parser.Lexeme t) <> None
  | parser.String => (2 <= String.length (parser.Lexeme t))%nat
  | _ => Logic.True
  end.

(** All tokens of the state are such tokens. *)
Definition wellLexed (PF : string -> option spec_float) (c : Compiler)
    : Prop :=
  okToken PF (parser.previous (p c)) /\
  okToken PF (parser.current (p c)) /\
  Forall (okToken PF) (parser.pending (p c)).

(** A method that keeps the tokens of the state well lexed. *)
Definition keepsLexed (PF : string -> option spec_float) (c c' : Compiler)
    : Prop :=
  wellLexed PF c -> wellLexed PF c'.

(** The result is not a panic. *)
Definition noPanic {A : Type} (r : Result A) : Prop :=
  match r with
  | Panic _ => Logic.False
  | _ => Logic.True
  end.

(** [pp'] returns whatever [pp] returns. *)
Definition extends (pp pp' : Precedence -> M unit) : Prop :=
  forall l c c', pp l c = Ok tt c' -> pp' l c = Ok tt c'.

(* ================================================================== *)
(** ** [parsePrecedence] in the spec's words *)

Section SpecWords.

Variable ParseFloat : string -> option spec_float.
Variable parseRules : parser.TokenType -> ParseRule.

(** Invoking a rule of the table from [c] returns in [c']. *)
Definition invokes (rule : option ParseFn) (canAssign : bool)
    (c c' : Compiler) : Prop :=
  exists fuel,
    call ParseFloat parseRules (parsePrecedence ParseFloat parseRules fuel)
         rule canAssign c = Ok tt c'.

(** "Then repeatedly: while the current (not-yet-consumed) token's
    binding level exceeds minLevel, consume it and invoke its infix
    rule." *)
Inductive climbs (minLevel : Precedence) (canAssign : bool)
    : Compiler -> Compiler -> Prop :=
| climbs_done c :
    (precedence (parseRules (curType c)) <= minLevel)%nat ->
    climbs minLevel canAssign c c
| climbs_more c c1 c2 :
    (minLevel < precedence (parseRules (curType c)))%nat ->
    invokes (infix (parseRules (curType c))) canAssign (advance c) c1 ->
    climbs minLevel canAssign c1 c2 ->
    climbs minLevel canAssign c c2.

(** "If that flag is set and an assignment operator follows, it is a
    reserved error path; the expression is still re-parsed afterward." *)
Definition assignTail (canAssign : bool) (c c' : Compiler) : Prop :=
  if canAssign && parser.eqb (curType c) parser.Equal
  then exists fuel,
         expression ParseFloat parseRules fuel
           (error "Invalid assignment target." (advance c)) = Ok tt c'
  else c' = c.

(** "parsePrecedence(minLevel) consumes one token, looks up its prefix
    rule, and fails with 'expect expression' if none exists.  It invokes
    the prefix rule, then repeatedly ..." *)
Definition parsesAt (minLevel : Precedence) (c c' : Compiler) : Prop :=
  let consumed := curType c in
  let canAssign := (minLevel <? PrecedenceAssignment)%nat in
  match prefix (parseRules consumed) with
  | None => c' = error "Expect expression." (advance c)
  | Some rule =>
      exists c1 c2,
        invokes (Some rule) canAssign (advance c) c1 /\
        climbs minLevel canAssign c1 c2 /\
        assignTail canAssign c2 c'
  end.

End SpecWords.

(* ================================================================== *)
(** ** Further predicates *)

(** The tokens after which [skipNewlines] consumes newlines. *)
Definition skipsNewlinesAfter (t : parser.TokenType) : bool :=
  match t with
  | parser.Newline | parser.LeftBrace | parser.RightBrace
  | parser.Semicolon | parser.Dot => true
  | _ => false
  end.

(** The state after one token was consumed: the current token became the
    previous one, [t] is current and [ts] is pending. *)
Definition shifted (c : Compiler) (t : parser.Token) (ts : list parser.Token)
    : Compiler :=
  setP (parser.mkParser (parser.current (p c)) t ts (parser.endLine (p c))) c.

(** The source as a tokenizer delivers it: end-of-input is not among the
    pending tokens, so the current token is end-of-input only when the
    source is exhausted. *)
Definition endIsLast (c : Compiler) : Prop :=
  Forall (fun t => parser.Type_ t <> parser.Eof) (parser.pending (p c)) /\
  (curType c = parser.Eof -> parser.pending (p c) = []).

Definition keepsEnd (c c' : Compiler) : Prop := endIsLast c -> endIsLast c'.

(** The pending tokens of [c'] are what is left of those of [c]. *)
Definition movedForward (c c' : Compiler) : Prop :=
  exists consumed,
    parser.pending (p c) = consumed ++ parser.pending (p c') /\
    parser.endLine (p c') = parser.endLine (p c).

(** The chunk of [c'] is the chunk of [c] with bytes and constants added
    at the end. *)
Definition appended (c c' : Compiler) : Prop :=
  exists bytes values,
    code (chunk c') = code (chunk c) ++ bytes /\
    constants (chunk c') = constants (chunk c) ++ values.

(** The instructions of a chunk: an opcode without operand, or Constant
    with its index operand. *)
Inductive Instr : Set :=
| IOp (o : OpCode.t)
| IConst (index : Z).

(** The bytes of an instruction: the opcode, then for Constant the index,
    high byte first. *)
Definition encodeInstr (i : Instr) : list Z :=
  match i with
  | IOp o => [OpCode.uint8 o]
  | IConst index =>
      [OpCode.uint8 OpCode.Constant;
       Z.land (Z.shiftr index 8) 255; Z.land index 255]
  end.

Definition encode (ins : list Instr) : list Z := flat_map encodeInstr ins.

(** The index operands of the Constant instructions, in order. *)
Fixpoint constRefs (ins : list Instr) : list Z :=
  match ins with
  | [] => []
  | IOp _ :: ins' => constRefs ins'
  | IConst index :: ins' => index :: constRefs ins'
  end.

(** No plain instruction carries the Constant opcode. *)
Definition plainOp (i : Instr) : Prop :=
  match i with
  | IOp o => o <> OpCode.Constant
  | IConst _ => Logic.True
  end.

(** The index the [k]-th constant of a chunk is referred to by. *)
Definition indexOf (k : nat) : Z := Z.of_nat k mod 65536.

(** The code of [ch] is the instructions [ins], and these refer to the
    constants of [ch] one after the other, each once. *)
Definition decodes (ch : Chunk) (ins : list Instr) : Prop :=
  code ch = encode ins /\
  Forall plainOp ins /\
  constRefs ins = map indexOf (seq 0 (List.length (constants ch))).

(** A method that adds whole instructions to decodable code. *)
Definition addsInstrs (c c' : Compiler) : Prop :=
  forall ins, decodes (chunk c) ins ->
  exists more, decodes (chunk c') (ins ++ more).

(** Every index operand of [ins] addresses one of [n] constants. *)
Definition inPool (n : nat) (i : Instr) : Prop :=
  match i with
  | IOp _ => Logic.True
  | IConst index => 0 <= index < Z.of_nat n
  end.

(** The opcode [unary] emits for an operator token. *)
Definition unaryOpCode (t : parser.TokenType) : option OpCode.t :=
  match t with
  | parser.Bang => Some OpCode.Not
  | parser.Minus => Some OpCode.Negate
  | _ => None
  end.

(** An operand of one token: a literal keyword, a number the number parser
    accepts, or a string with its two quotes. *)
Definition okAtom (PF : string -> option spec_float) (a : parser.Token)
    : Prop :=
  match parser.Type_ a with
  | parser.True | parser.False | parser.Nil => Logic.True
  | parser.Number => PF (parser.Lexeme a) <> None
  | parser.String => (2 <= String.length (parser.Lexeme a))%nat
  | _ => Logic.False
  end.

(** [emitConstant] on the chunk alone. *)
Definition constantChunk (v : value.Value) (ch : Chunk) : Chunk :=
  mkChunk (code ch ++ encodeInstr (IConst (indexOf (List.length (constants ch)))))
          (constants ch ++ [v]).

(** The chunk after the prefix rule of a one-token operand ran. *)
Definition atomChunk (PF : string -> option spec_float) (a : parser.Token)
    (ch : Chunk) : Chunk :=
  match parser.Type_ a with
  | parser.True => pushCode (OpCode.uint8 OpCode.True) ch
  | parser.False => pushCode (OpCode.uint8 OpCode.False) ch
  | parser.Nil => pushCode (OpCode.uint8 OpCode.Nil) ch
  | parser.Number =>
      match PF (parser.Lexeme a) with
      | Some x => constantChunk (value.Number x) ch
      | None => ch
      end
  | parser.String =>
      constantChunk
        (value.String (substring 1 (String.length (parser.Lexeme a) - 2)
                                 (parser.Lexeme a))) ch
  | _ => ch
  end.

(** The chunk after the opcodes [ops] were emitted, the last one first. *)
Definition pushOpsInnermostFirst (ops : list OpCode.t) (ch : Chunk) : Chunk :=
  fold_right (fun o ch => pushCode (OpCode.uint8 o) ch) ch ops.

(** The tokens ahead of [c] are [toks]; none ahead means the source is
    exhausted and the current token is end-of-input. *)
Definition aheadIs (c : Compiler) (toks : list parser.Token) : Prop :=
  match toks with
  | [] => curType c = parser.Eof /\ parser.pending (p c) = []
  | t :: ts => parser.current (p c) = t /\ parser.pending (p c) = ts
  end.

(** What follows does not continue an expression at level [l]: nothing, or
    a token that is no [Error] token and binds no tighter than [l]. *)
Definition endsExpression (l : Precedence) (toks : list parser.Token) : Prop :=
  match toks with
  | [] => Logic.True
  | t :: _ =>
      parser.Type_ t <> parser.Error /\
      (precedence (specRules (parser.Type_ t)) <= l)%nat
  end.

(** The tokens of [op1 a1 op2 a2 ...]. *)
Definition flattenPairs (pairs : list (parser.Token * parser.Token))
    : list parser.Token :=
  flat_map (fun oa => [fst oa; snd oa]) pairs.

(** A binary operator of level [L] with a one-token operand. *)
Definition okPair (PF : string -> option spec_float) (L : Precedence)
    (oa : parser.Token * parser.Token) : Prop :=
  binaryOpCode (parser.Type_ (fst oa)) <> None /\
  precedence (specRules (parser.Type_ (fst oa))) = L /\
  okAtom PF (snd oa).

(** The chunk after [op1 a1 op2 a2 ...] was compiled onto [ch], grouping
    to the left: each operand is followed at once by its operator. *)
Definition chainChunk (PF : string -> option spec_float)
    (pairs : list (parser.Token * parser.Token)) (ch : Chunk) : Chunk :=
  fold_left
    (fun ch oa =>
       match binaryOpCode (parser.Type_ (fst oa)) with
       | Some o => pushCode (OpCode.uint8 o) (atomChunk PF (snd oa) ch)
       | None => atomChunk PF (snd oa) ch
       end)
    pairs ch.

(** The table level of a token. *)
Definition level (t : parser.Token) : Precedence :=
  precedence (specRules (parser.Type_ t)).

(** A chain [op1 a1 op2 a2 ...] of binary operators above level [l] with
    one-token operands in which no operator is more than one level above
    the operator before it. *)
Fixpoint leftChain (PF : string -> option spec_float) (l : Precedence)
    (pairs : list (parser.Token * parser.Token)) : Prop :=
  match pairs with
  | [] => Logic.True
  | oa :: ps =>
      binaryOpCode (parser.Type_ (fst oa)) <> None /\
      (l < level (fst oa))%nat /\
      okAtom PF (snd oa) /\
      match ps with
      | [] => Logic.True
      | oa' :: _ => (level (fst oa') <= S (level (fst oa)))%nat
      end /\
      leftChain PF l ps
  end.

(** The state [c] with another previous token. *)
Definition withPrevious (t : parser.Token) (c : Compiler) : Compiler :=
  setP (parser.SetPrevious t (p c)) c.

(** The source starts with a token that is neither a newline nor an
    [Error] token, or is empty. *)
Definition startsStatement (toks : list parser.Token) : Prop :=
  match toks with
  | [] => Logic.True
  | t :: _ =>
      parser.Type_ t <> parser.Newline /\ parser.Type_ t <> parser.Error
  end.

(** The two error flags agree, as they do from a fresh compiler on. *)
Definition flagsAgree (c : Compiler) : Prop := panicMode c = hadError c.

(** An error was reported, or an [Error] token is still to be pulled. *)
Definition errorKnown (c : Compiler) : Prop :=
  flagsAgree c /\
  (hadError c = true \/
   Exists (fun t => parser.Type_ t = parser.Error) (parser.pending (p c))).

(** An error was reported or is still to come: an [Error] token is
    pending, or it is the current token, where [consumeNewlines] put it
    without a report. *)
Definition errorDue (c : Compiler) : Prop :=
  flagsAgree c /\
  (hadError c = true \/ curType c = parser.Error \/
   Exists (fun t => parser.Type_ t = parser.Error) (parser.pending (p c))).

(** The chunk [ch] followed by the Return instruction. *)
Definition returning (ch : Chunk) : Chunk :=
  mkChunk (code ch ++ [OpCode.uint8 OpCode.Return]) (constants ch).

(* ================================================================== *)
(** ** Basic facts *)

Lemma eqb_true_iff (a b : parser.TokenType) : parser.eqb a b = true <-> a = b.
Proof.
  unfold parser.eqb; destruct (parser.TokenType_eq_dec a b); split; congruence.
Qed.

Lemma eqb_false_iff (a b : parser.TokenType) : parser.eqb a b = false <-> a <> b.
Proof.
  unfold parser.eqb; destruct (parser.TokenType_eq_dec a b); split; congruence.
Qed.

Lemma eqb_refl (a : parser.TokenType) : parser.eqb a a = true.
Proof. now apply eqb_true_iff. Qed.

(* ================================================================== *)
(** ** Properties preserved by every method *)

(** A reflexive and transitive relation that the primitives of the
    compiler respect is respected by all its methods. *)
Section Respect.

Variable R : Compiler -> Compiler -> Prop.
Hypothesis R_refl : forall c, R c c.
Hypothesis R_trans : forall a b c, R a b -> R b c -> R a c.
Hypothesis R_setP_prev :
  forall c, R c (setP (parser.SetPrevious (parser.Current (p c)) (p c)) c).
Hypothesis R_pull : forall c, R c (pullToken (parser.pending (p c)) c).
Hypothesis R_newlines : forall c, R c (consumeNewlines c).
Hypothesis R_errorAt : forall t m c, R c (errorAt t m c).
Hypothesis R_emitOpCode :
  forall o c, o <> OpCode.Constant -> R c (emitOpCode o c).
Hypothesis R_emitConstant : forall v c, R c (emitConstant v c).

Lemma R_skipNewlines c : R c (skipNewlines c).
Proof. unfold skipNewlines; destruct (prevType c); auto. Qed.

Lemma R_advance c : R c (advance c).
Proof.
  unfold advance. eapply R_trans; [apply R_setP_prev|].
  eapply R_trans; [apply R_pull|]. apply R_skipNewlines.
Qed.

Lemma R_error m c : R c (error m c).
Proof. apply R_errorAt. Qed.

Lemma R_errorAtCurrent m c : R c (errorAtCurrent m c).
Proof. apply R_errorAt. Qed.

Lemma R_consume t m c : R c (consume t m c).
Proof.
  unfold consume; destruct (check t c);
    [apply R_advance | apply R_errorAtCurrent].
Qed.

Lemma R_match t c : R c (snd (match_ t c)).
Proof.
  unfold match_; destruct (check t c); simpl; [apply R_advance | apply R_refl].
Qed.

Lemma R_expect c : R c (expectNewlineOrSemicolon c).
Proof.
  unfold expectNewlineOrSemicolon.
  destruct (parser.eqb (prevType c) parser.RightBrace); auto.
  destruct (parser.eqb (curType c) parser.RightBrace); auto.
  destruct (_ || _); auto.
  pose proof (R_match parser.Semicolon c) as Hm.
  destruct (match_ parser.Semicolon c) as [m c1]; simpl in Hm.
  destruct m; simpl; auto.
  eapply R_trans; [exact Hm | apply R_consume].
Qed.

Lemma R_emitReturn c : R c (emitReturn c).
Proof.
  unfold emitReturn; eapply R_trans; apply R_emitOpCode; discriminate.
Qed.

Lemma respects_ret {A} (a : A) : respects R (ret a).
Proof. intros c a' c' H; inversion H; subst; apply R_refl. Qed.

Lemma respects_lift f : (forall c, R c (f c)) -> respects R (lift f).
Proof. intros Hf c a c' H; inversion H; subst; apply Hf. Qed.

Lemma respects_bind {A B} (m : M A) (f : A -> M B) :
  respects R m -> (forall a, respects R (f a)) -> respects R (bind m f).
Proof.
  intros Hm Hf c b c' H. unfold bind in H.
  destruct (m c) as [a c1| |] eqn:E; try discriminate.
  eapply R_trans; [eapply Hm; eauto | eapply Hf; eauto].
Qed.

Variable ParseFloat : string -> option spec_float.
Variable parseRules : parser.TokenType -> ParseRule.

Lemma respects_call pp rule canAssign :
  (forall l, respects R (pp l)) ->
  respects R (call ParseFloat parseRules pp rule canAssign).
Proof.
  intros Hpp. destruct rule as [[]|]; simpl.
  - intros c a c' H. unfold unaryWith in H.
    revert H. apply respects_bind; [apply Hpp|].
    intros _ c1 a1 c2 H1.
    destruct (prevType c); inversion H1; subst; apply R_emitOpCode;
      discriminate.
  - intros c a c' H. unfold binaryWith in H.
    revert H. apply respects_bind; [apply Hpp|].
    intros _. apply respects_lift. intros c1.
    destruct (prevType c); auto; apply R_emitOpCode; discriminate.
  - intros c a c' H. unfold number in H.
    destruct (ParseFloat _); inversion H; subst. apply R_emitConstant.
  - intros c a c' H. unfold string_ in H.
    destruct (_ <? _)%nat; inversion H; subst. apply R_emitConstant.
  - intros c a c' H. unfold literal in H.
    destruct (prevType c); inversion H; subst; apply R_emitOpCode;
      discriminate.
  - intros c a c' H. discriminate.
Qed.

Lemma respects_infixLoop pp fuel l canAssign :
  (forall l, respects R (pp l)) ->
  respects R (infixLoop ParseFloat parseRules pp fuel l canAssign).
Proof.
  intros Hpp. induction fuel as [|n IH]; intros c a c' H.
  - discriminate.
  - cbn [infixLoop] in H. destruct (_ <? _)%nat.
    + eapply R_trans; [apply (R_advance c)|].
      revert H. apply respects_bind; [now apply respects_call|].
      intros _. exact IH.
    + inversion H; subst. apply R_refl.
Qed.

Lemma respects_parsePrecedenceWith pp fuel l :
  (forall l, respects R (pp l)) ->
  respects R (parsePrecedenceWith ParseFloat parseRules pp fuel l).
Proof.
  intros Hpp c a c' H. unfold parsePrecedenceWith in H.
  eapply R_trans; [apply (R_advance c)|].
  destruct (prefix _) as [fn|].
  - revert H. apply respects_bind; [now apply respects_call|].
    intros _. apply respects_bind; [now apply respects_infixLoop|].
    intros _ c1 a1 c2 H1.
    destruct (l <? PrecedenceAssignment)%nat.
    + pose proof (R_match parser.Equal c1) as Hm.
      destruct (match_ parser.Equal c1) as [m c3]; simpl in Hm.
      destruct m.
      * eapply R_trans; [exact Hm|].
        eapply R_trans; [apply R_error|]. eapply Hpp; eauto.
      * inversion H1; subst; exact Hm.
    + inversion H1; subst; apply R_refl.
  - inversion H; subst. apply R_error.
Qed.

Lemma respects_parsePrecedence fuel :
  forall l, respects R (parsePrecedence ParseFloat parseRules fuel l).
Proof.
  induction fuel as [|n IH]; intros l c a c' H.
  - discriminate.
  - cbn [parsePrecedence] in H.
    eapply respects_parsePrecedenceWith; eauto.
Qed.

Lemma respects_expression fuel :
  respects R (expression ParseFloat parseRules fuel).
Proof. apply respects_parsePrecedence. Qed.

Lemma respects_expressionStatement fuel :
  respects R (expressionStatement ParseFloat parseRules fuel).
Proof.
  unfold expressionStatement.
  apply respects_bind; [apply respects_expression|]; intros _.
  apply respects_bind;
    [apply respects_lift; intros; apply R_emitOpCode; discriminate|];
    intros _.
  apply respects_lift, R_expect.
Qed.

Lemma respects_returnStatement fuel :
  respects R (returnStatement ParseFloat parseRules fuel).
Proof.
  intros c a c' H. unfold returnStatement in H.
  pose proof (R_match parser.Newline c) as Hm.
  destruct (match_ parser.Newline c) as [m c1]; simpl in Hm.
  eapply R_trans; [exact Hm|]. destruct m.
  - inversion H; subst. apply R_emitReturn.
  - revert H.
    apply respects_bind; [apply respects_expression|]; intros _.
    apply respects_bind;
    [apply respects_lift; intros; apply R_emitOpCode; discriminate|];
    intros _.
    destruct (negb _); [apply respects_lift, R_expect | apply respects_ret].
Qed.

Lemma respects_declaration fuel :
  respects R (declaration ParseFloat parseRules fuel).
Proof.
  intros c a c' H. unfold declaration, statement in H.
  pose proof (R_match parser.Return c) as Hm.
  destruct (match_ parser.Return c) as [m c1]; simpl in Hm.
  eapply R_trans; [exact Hm|]. destruct m.
  - eapply respects_returnStatement; eauto.
  - eapply respects_expressionStatement; eauto.
Qed.

Lemma respects_skipLeading fuel : respects R (skipLeading fuel).
Proof.
  induction fuel as [|n IH]; intros c a c' H.
  - discriminate.
  - cbn [skipLeading] in H.
    eapply R_trans; [apply (R_advance c)|].
    destruct (negb _).
    + inversion H; subst; apply R_refl.
    + eapply IH; eauto.
Qed.

Lemma respects_declarations fuel :
  respects R (declarations ParseFloat parseRules fuel).
Proof.
  induction fuel as [|n IH]; intros c a c' H.
  - discriminate.
  - cbn [declarations] in H.
    pose proof (R_match parser.Eof c) as Hm.
    destruct (match_ parser.Eof c) as [m c1]; simpl in Hm.
    eapply R_trans; [exact Hm|]. destruct m.
    + inversion H; subst; apply R_refl.
    + revert H. apply respects_bind; [apply respects_declaration|].
      intros _; exact IH.
Qed.

End Respect.

(* ================================================================== *)
(** ** The diagnostics state *)


Lemma quiet_refl c : quiet c c.
Proof. repeat split. Qed.

Lemma diagStep_refl c : diagStep c c.
Proof. left; apply quiet_refl. Qed.

Lemma diagStep_trans a b c : diagStep a b -> diagStep b c -> diagStep a c.
Proof.
  unfold diagStep, quiet.
  intros [(H1 & H2 & H3)|(H1 & H2 & H3 & l & H4)]
         [(G1 & G2 & G3)|(G1 & G2 & G3 & k & G4)].
  - left; repeat split; congruence.
  - right; repeat split; try congruence. exists k; congruence.
  - right; repeat split; try congruence. exists l; congruence.
  - congruence.
Qed.

Lemma diagStep_errorAt t m c : diagStep c (errorAt t m c).
Proof.
  unfold errorAt. destruct (panicMode c) eqn:E.
  - apply diagStep_refl.
  - right; simpl; repeat split; auto. now exists (diagnostic t m).
Qed.

Lemma quiet_setP q c : quiet c (setP q c).
Proof. repeat split. Qed.

Lemma quiet_setChunk ch c : quiet c (setChunk ch c).
Proof. repeat split. Qed.

Lemma diagStep_pull ts : forall c, diagStep c (pullToken ts c).
Proof.
  induction ts as [|t ts IH]; intros c; simpl.
  - destruct (parser.NextToken (p c)); left; apply quiet_setP.
  - destruct (parser.Type_ t); try (left; apply quiet_setP).
    eapply diagStep_trans; [|apply IH].
    eapply diagStep_trans; [left; apply quiet_setP | apply diagStep_errorAt].
Qed.

Lemma quiet_consumeNewlines c : quiet c (consumeNewlines c).
Proof.
  unfold consumeNewlines. destruct (consumeNewlinesFrom _ _ _). apply quiet_setP.
Qed.

Lemma quiet_emitOpCode o c : quiet c (emitOpCode o c).
Proof. repeat split. Qed.

Lemma quiet_emitConstant v c : quiet c (emitConstant v c).
Proof. repeat split. Qed.

Create HintDb diag.

#[local] Hint Resolve diagStep_refl diagStep_trans diagStep_errorAt
  diagStep_pull : diag.

Lemma diagStep_quiet c c' : quiet c c' -> diagStep c c'.
Proof. now left. Qed.

#[local] Hint Resolve diagStep_quiet quiet_setP quiet_consumeNewlines
  quiet_emitOpCode quiet_emitConstant : diag.

(** Every method of the compiler moves the diagnostics state by
    [diagStep]. *)
Ltac diag_respects lem :=
  intros; eapply lem; eauto with diag.

Lemma diagStep_advance c : diagStep c (advance c).
Proof. diag_respects R_advance. Qed.

Lemma diagStep_match t c : diagStep c (snd (match_ t c)).
Proof. diag_respects R_match. Qed.

Lemma diagStep_consume t m c : diagStep c (consume t m c).
Proof. diag_respects R_consume. Qed.

Lemma diagStep_expect c : diagStep c (expectNewlineOrSemicolon c).
Proof. diag_respects R_expect. Qed.

Lemma diagStep_parsePrecedence PF rules fuel l :
  respects diagStep (parsePrecedence PF rules fuel l).
Proof. diag_respects respects_parsePrecedence. Qed.

Lemma diagStep_declaration PF rules fuel :
  respects diagStep (declaration PF rules fuel).
Proof. diag_respects respects_declaration. Qed.

Lemma diagStep_skipLeading fuel : respects diagStep (skipLeading fuel).
Proof. diag_respects respects_skipLeading. Qed.

Lemma diagStep_declarations PF rules fuel :
  respects diagStep (declarations PF rules fuel).
Proof. diag_respects respects_declarations. Qed.

Lemma quiet_patchLastPop : respects quiet patchLastPop.
Proof.
  intros c a c' H. unfold patchLastPop in H.
  destruct (index _ _); [|discriminate].
  destruct (_ =? _); inversion H; subst; repeat split.
Qed.

Lemma diagStep_Compile PF rules fuel : respects diagStep (Compile PF rules fuel).
Proof.
  unfold Compile.
  apply (respects_bind diagStep diagStep_trans);
    [apply diagStep_skipLeading|]; intros _.
  apply (respects_bind diagStep diagStep_trans);
    [apply diagStep_declarations|]; intros _.
  apply (respects_bind diagStep diagStep_trans).
  - intros c a c' H. left. eapply quiet_patchLastPop; eauto.
  - intros _ c a c' H. destruct (hadError c); inversion H; subst; auto with diag.
Qed.

(** In panic mode [diagStep] is [quiet]. *)
Lemma diagStep_panic c c' :
  panicMode c = true -> diagStep c c' -> quiet c c'.
Proof. intros Hp [H|(H & _)]; [exact H | congruence]. Qed.


Lemma diagInv_New init tokens eol : diagInv (NewCompiler init tokens eol).
Proof. repeat split; simpl; auto; try congruence. Qed.

Lemma diagInv_step c c' : diagInv c -> diagStep c c' -> diagInv c'.
Proof.
  intros (H1 & H2 & H3) [(G1 & G2 & G3)|(G1 & G2 & G3 & l & G4)];
    unfold diagInv.
  - rewrite G1, G2, G3; auto.
  - rewrite G2, G3, G4. repeat split; auto.
    + intros _. now destruct (stderr c).
    + destruct (stderr c) as [|x xs]; simpl; auto.
      exfalso. assert (hadError c = true) by (apply H1; discriminate).
      congruence.
Qed.

(* ================================================================== *)
(** ** The token primitives *)


Lemma sameChunk_trans a b c : sameChunk a b -> sameChunk b c -> sameChunk a c.
Proof. unfold sameChunk; congruence. Qed.

Lemma sameChunk_errorAt t m c : sameChunk c (errorAt t m c).
Proof. unfold sameChunk, errorAt; now destruct (panicMode c). Qed.

Lemma sameChunk_pull ts : forall c, sameChunk c (pullToken ts c).
Proof.
  induction ts as [|t ts IH]; intros c; simpl.
  - now destruct (parser.NextToken (p c)).
  - destruct (parser.Type_ t); try reflexivity.
    eapply sameChunk_trans; [|apply IH].
    unfold sameChunk, errorAtCurrent, errorAt; simpl. now destruct (panicMode c).
Qed.

Lemma sameChunk_consumeNewlines c : sameChunk c (consumeNewlines c).
Proof.
  unfold sameChunk, consumeNewlines. now destruct (consumeNewlinesFrom _ _ _).
Qed.


Lemma chunk_advance c : chunk (advance c) = chunk c.
Proof.
  apply (R_advance sameChunk); unfold sameChunk; intros;
    try reflexivity; try congruence.
  - apply sameChunk_pull.
  - apply sameChunk_consumeNewlines.
Qed.

Lemma chunk_match t c : chunk (snd (match_ t c)) = chunk c.
Proof.
  unfold match_. destruct (check t c); simpl; [apply chunk_advance | reflexivity].
Qed.

Lemma chunk_consume t m c : chunk (consume t m c) = chunk c.
Proof.
  unfold consume. destruct (check t c);
    [apply chunk_advance | apply sameChunk_errorAt].
Qed.

Lemma chunk_expect c : chunk (expectNewlineOrSemicolon c) = chunk c.
Proof.
  unfold expectNewlineOrSemicolon.
  repeat match goal with |- context [if ?b then _ else _] =>
    destruct b; try reflexivity end.
  pose proof (chunk_match parser.Semicolon c) as Hm.
  destruct (match_ parser.Semicolon c) as [m c1]; simpl in Hm.
  destruct m; simpl; [exact Hm|]. now rewrite chunk_consume.
Qed.

(** [advance] makes the current token the previous one. *)
Lemma previous_errorAt t m c :
  parser.previous (p (errorAt t m c)) = parser.previous (p c).
Proof. unfold errorAt; now destruct (panicMode c). Qed.

Lemma previous_pull ts :
  forall c, parser.previous (p (pullToken ts c)) = parser.previous (p c).
Proof.
  induction ts as [|t ts IH]; intros c; simpl.
  - unfold parser.NextToken. now destruct (parser.pending (p c)).
  - destruct (parser.Type_ t); try reflexivity.
    rewrite IH. unfold errorAtCurrent. now rewrite previous_errorAt.
Qed.

Lemma previous_skipNewlines c :
  parser.previous (p (skipNewlines c)) = parser.previous (p c).
Proof.
  unfold skipNewlines, consumeNewlines.
  destruct (prevType c); try reflexivity;
    now destruct (consumeNewlinesFrom _ _ _).
Qed.

Lemma previous_advance c :
  parser.previous (p (advance c)) = parser.current (p c).
Proof.
  unfold advance. now rewrite previous_skipNewlines, previous_pull.
Qed.

Lemma prevType_advance c : prevType (advance c) = curType c.
Proof. unfold prevType, curType, parser.Previous. now rewrite previous_advance. Qed.

Lemma check_plain t c :
  t <> parser.Newline -> check t c = parser.eqb (curType c) t.
Proof.
  intros H. unfold check.
  now replace (parser.eqb t parser.Newline) with false
    by (symmetry; now apply eqb_false_iff).
Qed.

(* ================================================================== *)
(** ** The statement terminator *)

(** C10: whenever the previous token is a closing brace, [check(Newline)]
    is true whatever the current token is, so [match(Newline)] and
    [consume(Newline, message)] both advance, which consumes the current
    token. *)
Theorem check_Newline_after_RightBrace (c : Compiler) (message : string) :
  prevType c = parser.RightBrace ->
  check parser.Newline c = true /\
  match_ parser.Newline c = (true, advance c) /\
  consume parser.Newline message c = advance c /\
  parser.previous (p (advance c)) = parser.current (p c).
Proof.
  intros H.
  assert (Hc : check parser.Newline c = true).
  { unfold check. now rewrite H. }
  unfold match_, consume. rewrite Hc. simpl.
  repeat split. apply previous_advance.
Qed.

Lemma expectNewlineOrSemicolon_cases (c : Compiler) :
  expectNewlineOrSemicolon c =
    (if terminatorExempt c then c
     else if terminatorAhead c then advance c
     else errorAtCurrent "Expect newline or ';'." c).
Proof.
  unfold expectNewlineOrSemicolon, terminatorExempt, terminatorAhead.
  destruct (parser.eqb (prevType c) parser.RightBrace) eqn:E1; simpl; auto.
  destruct (parser.eqb (curType c) parser.RightBrace) eqn:E2; simpl; auto.
  destruct (parser.eqb (prevType c) parser.Eof) eqn:E3; simpl; auto.
  destruct (parser.eqb (curType c) parser.Eof) eqn:E4; simpl; auto.
  unfold match_. rewrite check_plain by discriminate.
  destruct (parser.eqb (curType c) parser.Semicolon) eqn:E5; simpl; auto.
  unfold consume, check. rewrite E1; simpl.
  now destruct (parser.eqb (curType c) parser.Newline).
Qed.

(** C5: [expectNewlineOrSemicolon] does nothing in exactly the exempt
    cases (a closing brace before or ahead, end-of-input before or ahead);
    in every other case it consumes a separator or newline that is ahead,
    and reports "Expect newline or ';'." at the current token when neither
    is, which sets [hadError]. *)
Theorem expectNewlineOrSemicolon_rule (c : Compiler) :
  expectNewlineOrSemicolon c =
    (if terminatorExempt c then c
     else if terminatorAhead c then advance c
     else errorAtCurrent "Expect newline or ';'." c) /\
  (terminatorExempt c = false -> terminatorAhead c = false ->
   panicMode c = false ->
   let c' := expectNewlineOrSemicolon c in
   hadError c' = true /\
   stderr c' =
     stderr c ++ [diagnostic (parser.Current (p c)) "Expect newline or ';'."] /\
   p c' = p c /\ chunk c' = chunk c).
Proof.
  split; [apply expectNewlineOrSemicolon_cases|].
  intros H1 H2 H3 c'. subst c'.
  rewrite expectNewlineOrSemicolon_cases, H1, H2.
  unfold errorAtCurrent, errorAt. rewrite H3. simpl. auto.
Qed.

Lemma check_Newline_after_RightBrace_witness :
  check parser.Newline
    (mkCompiler (parser.mkParser (tok parser.RightBrace "}")
                   (tok parser.Number "1") [] 1) NewChunk false false [])
  = true.
Proof.
  apply (check_Newline_after_RightBrace
           (mkCompiler (parser.mkParser (tok parser.RightBrace "}")
                          (tok parser.Number "1") [] 1) NewChunk false false [])
           "Expect newline."). reflexivity.
Defined.

Lemma expectNewlineOrSemicolon_rule_witness :
  hadError (expectNewlineOrSemicolon (afterNumber (tok parser.Number "2")))
  = true.
Proof.
  apply (expectNewlineOrSemicolon_rule (afterNumber (tok parser.Number "2")));
    reflexivity.
Defined.

(* ================================================================== *)
(** ** Panic mode *)

Lemma errorAt_first t m c :
  panicMode c = false ->
  panicMode (errorAt t m c) = true /\ hadError (errorAt t m c) = true /\
  stderr (errorAt t m c) = stderr c ++ [diagnostic t m].
Proof. intros H; unfold errorAt; rewrite H; simpl; auto. Qed.

Lemma errorAt_suppressed t m c : panicMode c = true -> errorAt t m c = c.
Proof. intros H; unfold errorAt; now rewrite H. Qed.

(** C6: the first diagnostic sets [panicMode]; from a state in panic mode
    no method clears the flag, changes [hadError] or writes a diagnostic,
    and [errorAt] does nothing at all; so a whole compilation writes at
    most one diagnostic. *)
Theorem panicMode_never_cleared
    (PF : string -> option spec_float)
    (rules : parser.TokenType -> ParseRule) :
  (forall t m c, panicMode c = false ->
     panicMode (errorAt t m c) = true /\ hadError (errorAt t m c) = true /\
     stderr (errorAt t m c) = stderr c ++ [diagnostic t m]) /\
  (forall t m c, panicMode c = true -> errorAt t m c = c) /\
  (forall c, panicMode c = true ->
     quiet c (advance c) /\ quiet c (expectNewlineOrSemicolon c) /\
     (forall t, quiet c (snd (match_ t c))) /\
     (forall t m, quiet c (consume t m c))) /\
  (forall fuel l c c', panicMode c = true ->
     parsePrecedence PF rules fuel l c = Ok tt c' -> quiet c c') /\
  (forall fuel c c', panicMode c = true ->
     declaration PF rules fuel c = Ok tt c' -> quiet c c') /\
  (forall fuel c r c', panicMode c = true ->
     Compile PF rules fuel c = Ok r c' -> quiet c c') /\
  (forall fuel init tokens eol r c',
     Compile PF rules fuel (NewCompiler init tokens eol) = Ok r c' ->
     (List.length (stderr c') <= 1)%nat /\ panicMode c' = hadError c').
Proof.
  split; [exact errorAt_first|].
  split; [exact errorAt_suppressed|].
  split.
  { intros c Hp. split; [|split; [|split]]; intros;
      apply diagStep_panic; auto.
    - apply diagStep_advance.
    - apply diagStep_expect.
    - apply diagStep_match.
    - apply diagStep_consume. }
  split.
  { intros fuel l c c' Hp H. apply diagStep_panic; auto.
    eapply diagStep_parsePrecedence; eauto. }
  split.
  { intros fuel c c' Hp H. apply diagStep_panic; auto.
    eapply diagStep_declaration; eauto. }
  split.
  { intros fuel c r c' Hp H. apply diagStep_panic; auto.
    eapply diagStep_Compile; eauto. }
  intros fuel init tokens eol r c' H.
  apply diagStep_Compile in H.
  apply (diagInv_step _ _ (diagInv_New init tokens eol)) in H.
  destruct H as (_ & H2 & H3). auto.
Qed.

Lemma panicMode_never_cleared_witness :
  exists r c',
    Compile parseDigits specRules 10
      (fresh [tok parser.Plus "+"; tok parser.Number "1"; tok parser.Number "2"])
      = Ok r c' /\
    stderr c' = [diagnostic (tok parser.Plus "+") "Expect expression."] /\
    (List.length (stderr c') <= 1)%nat /\ panicMode c' = hadError c'.
Proof.
  destruct (panicMode_never_cleared parseDigits specRules)
    as (_ & _ & _ & _ & _ & _ & H).
  eexists; eexists. split; [vm_compute; reflexivity|].
  split; [vm_compute; reflexivity|].
  eapply (H 10%nat (tok parser.Eof "")
            [tok parser.Plus "+"; tok parser.Number "1"; tok parser.Number "2"]
            1).
  vm_compute; reflexivity.
Defined.

(* ================================================================== *)
(** ** The last byte of the code *)

Lemma index_last bs b :
  index (bs ++ [b]) (Z.of_nat (List.length (bs ++ [b])) - 1) = Some b.
Proof.
  unfold index. rewrite length_app; simpl.
  replace (Z.of_nat (List.length bs + 1) - 1) with (Z.of_nat (List.length bs)) by lia.
  destruct (Z.ltb_spec (Z.of_nat (List.length bs)) 0); [lia|].
  rewrite Nat2Z.id, nth_error_app2, Nat.sub_diag by lia. reflexivity.
Qed.

Lemma index_nil i : index [] i = None.
Proof. unfold index. destruct (i <? 0); [reflexivity|]. now destruct (Z.to_nat i). Qed.

Lemma setNth_last bs b v : setNth (bs ++ [b]) (List.length bs) v = bs ++ [v].
Proof. induction bs as [|x bs IH]; simpl; [reflexivity | now rewrite IH]. Qed.

Lemma last_cases (l : list Z) : l = [] \/ exists bs b, l = bs ++ [b].
Proof.
  destruct l as [|z l]; [now left | right].
  destruct (@exists_last _ (z :: l)) as (bs & b & E); [discriminate | eauto].
Qed.

Lemma patchLastPop_spec c :
  match patchLastPop c with
  | Ok _ c' =>
      exists bs b, code (chunk c) = bs ++ [b] /\
        c' = (if b =? OpCode.uint8 OpCode.Pop
              then setChunk (mkChunk (bs ++ [OpCode.uint8 OpCode.Return])
                                     (constants (chunk c))) c
              else c)
  | Panic _ => code (chunk c) = []
  | OutOfFuel => False
  end.
Proof.
  unfold patchLastPop.
  destruct (last_cases (code (chunk c))) as [E|(bs & b & E)]; rewrite E.
  - now rewrite index_nil.
  - rewrite index_last.
    destruct (Z.eqb b (OpCode.uint8 OpCode.Pop)) eqn:Eb;
      exists bs, b; rewrite Eb; (split; [reflexivity|]); [|reflexivity].
    rewrite length_app; simpl.
    replace (Z.to_nat (Z.of_nat (List.length bs + 1) - 1)) with (List.length bs) by lia.
    now rewrite setNth_last.
Qed.

Lemma bind_Ok {A B} (m : M A) (f : A -> M B) c b c' :
  bind m f c = Ok b c' <-> exists a c1, m c = Ok a c1 /\ f a c1 = Ok b c'.
Proof.
  unfold bind. split.
  - destruct (m c) as [a c1| |]; try discriminate. eauto.
  - intros (a & c1 & H1 & H2). now rewrite H1.
Qed.

Lemma endsWith_emitOpCode o c : endsWith o (chunk (emitOpCode o c)).
Proof. now exists (code (chunk c)). Qed.

Lemma expression_then_emit PF rules fuel o (k : M unit) c c' :
  (forall c1 c2, k c1 = Ok tt c2 -> chunk c2 = chunk c1) ->
  (expression PF rules fuel ;; lift (emitOpCode o) ;; k) c = Ok tt c' ->
  endsWith o (chunk c').
Proof.
  intros Hk H.
  apply bind_Ok in H as (a1 & c1 & _ & H).
  apply bind_Ok in H as (a2 & c2 & H2 & H).
  inversion H2; subst. apply Hk in H. rewrite H.
  apply endsWith_emitOpCode.
Qed.

Lemma declaration_endsWith PF rules fuel c c' :
  declaration PF rules fuel c = Ok tt c' ->
  endsWith OpCode.Pop (chunk c') \/ endsWith OpCode.Return (chunk c').
Proof.
  unfold declaration, statement. destruct (match_ parser.Return c) as [m c1].
  destruct m.
  - unfold returnStatement. destruct (match_ parser.Newline c1) as [m2 c2].
    destruct m2.
    + intros H; inversion H; subst. right. apply endsWith_emitOpCode.
    + intros H. right. eapply expression_then_emit; [|exact H].
      intros c3 c4. destruct (negb _); intros H4; inversion H4; subst; auto.
      apply chunk_expect.
  - intros H. left. eapply expression_then_emit; [|exact H].
    intros c3 c4 H4; inversion H4; subst. apply chunk_expect.
Qed.

Lemma declarations_endsWith PF rules fuel :
  forall c c', declarations PF rules fuel c = Ok tt c' ->
  chunk c' = chunk c \/
  endsWith OpCode.Pop (chunk c') \/ endsWith OpCode.Return (chunk c').
Proof.
  induction fuel as [|n IH]; intros c c' H; [discriminate|].
  cbn [declarations] in H.
  pose proof (chunk_match parser.Eof c) as Hm.
  destruct (match_ parser.Eof c) as [m c1]; simpl in Hm. destruct m.
  - inversion H; subst; auto.
  - apply bind_Ok in H as ([] & c2 & H1 & H2).
    apply declaration_endsWith in H1. apply IH in H2 as [H2|H2]; auto.
    rewrite H2; auto.
Qed.

Lemma chunk_skipLeading fuel c c' :
  skipLeading fuel c = Ok tt c' -> chunk c' = chunk c.
Proof.
  apply (respects_skipLeading sameChunk); unfold sameChunk; intros;
    try reflexivity; try congruence.
  - apply sameChunk_pull.
  - apply sameChunk_consumeNewlines.
Qed.

Lemma Compile_Ok PF rules fuel c r c' :
  Compile PF rules fuel c = Ok r c' <->
  exists c1, compileLoops PF rules fuel c = Ok tt c1 /\
             patchLastPop c1 = Ok tt c' /\
             r = (if hadError c' then None else Some (chunk c')).
Proof.
  unfold Compile, compileLoops. split.
  - intros H.
    apply bind_Ok in H as ([] & c1 & H1 & H).
    apply bind_Ok in H as ([] & c2 & H2 & H).
    apply bind_Ok in H as ([] & c3 & H3 & H).
    exists c2. split; [apply bind_Ok; eauto|].
    destruct (hadError c3) eqn:E; inversion H; subst; rewrite E; auto.
  - intros (c1 & H1 & H2 & ->).
    apply bind_Ok in H1 as ([] & c0 & H0 & H1).
    apply bind_Ok. exists tt, c0. split; [exact H0|].
    apply bind_Ok. exists tt, c1. split; [exact H1|].
    apply bind_Ok. exists tt, c'. split; [exact H2|].
    now destruct (hadError c').
Qed.

(** C2: when [Compile] returns, the code it leaves is the code the two
    loops produced with a final Pop byte replaced by Return, and exactly
    that code when the final byte is not Pop; the constants are untouched.
    Starting from an empty chunk that final byte is the opcode of the Pop
    or Return instruction the last statement emitted, so the code returned
    ends in Return. *)
Theorem Compile_patches_last_Pop
    (PF : string -> option spec_float)
    (rules : parser.TokenType -> ParseRule)
    (fuel : nat) (c : Compiler) (r : option Chunk) (c' : Compiler) :
  Compile PF rules fuel c = Ok r c' ->
  exists c1,
    compileLoops PF rules fuel c = Ok tt c1 /\
    (forall bs, code (chunk c1) = bs ++ [OpCode.uint8 OpCode.Pop] ->
       code (chunk c') = bs ++ [OpCode.uint8 OpCode.Return]) /\
    (forall bs b, code (chunk c1) = bs ++ [b] -> b <> OpCode.uint8 OpCode.Pop ->
       code (chunk c') = code (chunk c1)) /\
    constants (chunk c') = constants (chunk c1) /\
    (code (chunk c) = [] ->
       (endsWith OpCode.Pop (chunk c1) \/ endsWith OpCode.Return (chunk c1)) /\
       endsWith OpCode.Return (chunk c')).
Proof.
  intros H. apply Compile_Ok in H as (c1 & H1 & H2 & _).
  exists c1. split; [exact H1|].
  pose proof (patchLastPop_spec c1) as Hp. rewrite H2 in Hp.
  destruct Hp as (bs & b & E & ->).
  assert (Hpop : forall bs0, code (chunk c1) = bs0 ++ [OpCode.uint8 OpCode.Pop] ->
            code (chunk (if b =? OpCode.uint8 OpCode.Pop
              then setChunk (mkChunk (bs ++ [OpCode.uint8 OpCode.Return])
                                     (constants (chunk c1))) c1
              else c1)) = bs0 ++ [OpCode.uint8 OpCode.Return]).
  { intros bs0 E0. rewrite E in E0. apply app_inj_tail in E0 as [-> ->].
    reflexivity. }
  assert (Hother : forall bs0 b0, code (chunk c1) = bs0 ++ [b0] ->
            b0 <> OpCode.uint8 OpCode.Pop ->
            code (chunk (if b =? OpCode.uint8 OpCode.Pop
              then setChunk (mkChunk (bs ++ [OpCode.uint8 OpCode.Return])
                                     (constants (chunk c1))) c1
              else c1)) = code (chunk c1)).
  { intros bs0 b0 E0 Hb. rewrite E in E0. apply app_inj_tail in E0 as [-> ->].
    now replace (b0 =? OpCode.uint8 OpCode.Pop) with false
      by (symmetry; now apply Z.eqb_neq). }
  split; [exact Hpop|]. split; [exact Hother|].
  split; [now destruct (b =? _)|].
  intros Hnil.
  assert (Hends : endsWith OpCode.Pop (chunk c1) \/ endsWith OpCode.Return (chunk c1)).
  { unfold compileLoops in H1. apply bind_Ok in H1 as ([] & c0 & H0 & H1).
    apply chunk_skipLeading in H0.
    apply declarations_endsWith in H1 as [H1|H1]; auto.
    exfalso. rewrite H1, H0, Hnil in E. now destruct bs. }
  split; [exact Hends|].
  destruct Hends as [(bs0 & E0)|(bs0 & E0)].
  - exists bs0. now apply Hpop.
  - exists bs0. rewrite <- E0. eapply Hother; [exact E0|]. discriminate.
Qed.

Lemma Compile_patches_last_Pop_witness :
  exists r c',
    Compile parseDigits specRules 20 (fresh onePlusOne) = Ok r c' /\
    exists c1,
      compileLoops parseDigits specRules 20 (fresh onePlusOne) = Ok tt c1 /\
      (forall bs, code (chunk c1) = bs ++ [OpCode.uint8 OpCode.Pop] ->
         code (chunk c') = bs ++ [OpCode.uint8 OpCode.Return]) /\
      (forall bs b, code (chunk c1) = bs ++ [b] ->
         b <> OpCode.uint8 OpCode.Pop ->
         code (chunk c') = code (chunk c1)) /\
      constants (chunk c') = constants (chunk c1) /\
      (code (chunk (fresh onePlusOne)) = [] ->
         (endsWith OpCode.Pop (chunk c1) \/ endsWith OpCode.Return (chunk c1)) /\
         endsWith OpCode.Return (chunk c')).
Proof.
  eexists; eexists. split; [vm_compute; reflexivity|].
  eapply (Compile_patches_last_Pop parseDigits specRules 20 (fresh onePlusOne)).
  vm_compute; reflexivity.
Defined.

(* ================================================================== *)
(** ** Sources without a statement *)

Lemma consumeNewlinesFrom_blank eof : parser.Type_ eof = parser.Eof ->
  forall ts cur, Forall blank ts -> blank cur ->
  parser.Type_ (fst (consumeNewlinesFrom cur ts eof)) = parser.Eof /\
  Forall blank (snd (consumeNewlinesFrom cur ts eof)) /\
  (List.length (snd (consumeNewlinesFrom cur ts eof)) <= List.length ts)%nat.
Proof.
  intros He. induction ts as [|t ts IH]; intros cur Hts [Hc|Hc]; simpl; rewrite Hc.
  - simpl; auto.
  - simpl; auto.
  - inversion Hts; subst. destruct (IH t) as (G1 & G2 & G3); auto.
  - simpl; auto.
Qed.

Lemma skipNewlines_blank c :
  Forall blank (parser.pending (p c)) -> blank (parser.current (p c)) ->
  skipNewlines c = c \/
  (curType (skipNewlines c) = parser.Eof /\
   Forall blank (parser.pending (p (skipNewlines c))) /\
   (List.length (parser.pending (p (skipNewlines c)))
      <= List.length (parser.pending (p c)))%nat).
Proof.
  intros H1 H2. unfold skipNewlines.
  assert (Hcn : curType (consumeNewlines c) = parser.Eof /\
    Forall blank (parser.pending (p (consumeNewlines c))) /\
    (List.length (parser.pending (p (consumeNewlines c)))
       <= List.length (parser.pending (p c)))%nat).
  { unfold consumeNewlines, curType.
    pose proof (consumeNewlinesFrom_blank (parser.eofToken (p c)) eq_refl
                  _ _ H1 H2) as (G1 & G2 & G3).
    destruct (consumeNewlinesFrom _ _ _) as [cur ts]; simpl in *. auto. }
  destruct (prevType c); auto.
Qed.

Lemma advance_blank c :
  Forall blank (parser.pending (p c)) ->
  Forall blank (parser.pending (p (advance c))) /\
  blank (parser.current (p (advance c))) /\
  (List.length (parser.pending (p (advance c)))
     <= List.length (parser.pending (p c)))%nat /\
  (curType (advance c) = parser.Newline ->
   (List.length (parser.pending (p (advance c)))
      < List.length (parser.pending (p c)))%nat).
Proof.
  intros Hb. unfold advance.
  set (c1 := setP _ c).
  assert (E1 : parser.pending (p c1) = parser.pending (p c)) by reflexivity.
  rewrite E1.
  assert (Hpull : exists c2, pullToken (parser.pending (p c)) c1 = c2 /\
    Forall blank (parser.pending (p c2)) /\ blank (parser.current (p c2)) /\
    (List.length (parser.pending (p c2)) <= List.length (parser.pending (p c)))%nat /\
    (curType c2 = parser.Eof \/
     (List.length (parser.pending (p c2)) < List.length (parser.pending (p c)))%nat)).
  { destruct (parser.pending (p c)) as [|t ts] eqn:Ep.
    - eexists; split; [reflexivity|]. simpl. unfold parser.NextToken. simpl.
      rewrite Ep. simpl. rewrite ?Ep. repeat split; auto. now right.
    - inversion Hb as [|? ? Ht Hts]; subst.
      exists (setP (parser.mkParser (parser.previous (p c1)) t ts
                      (parser.endLine (p c1))) c1).
      split.
      + simpl. destruct Ht as [Ht|Ht]; now rewrite Ht.
      + simpl. repeat split; auto. }
  destruct Hpull as (c2 & -> & P1 & P2 & P4 & P3).
  destruct (skipNewlines_blank c2 P1 P2) as [->|(S1 & S2 & S3)].
  - repeat split; auto. intros Hn. destruct P3 as [P3|P3]; [congruence | exact P3].
  - repeat split; auto.
    + right. exact S1.
    + lia.
    + congruence.
Qed.

Lemma skipLeading_blank n :
  forall c, Forall blank (parser.pending (p c)) -> blank (parser.current (p c)) ->
  (List.length (parser.pending (p c)) < n)%nat ->
  exists c', skipLeading n c = Ok tt c' /\ curType c' = parser.Eof /\
             chunk c' = chunk c.
Proof.
  induction n as [|n IH]; intros c Hb Hc Hn; [lia|].
  cbn [skipLeading].
  destruct (advance_blank c Hb) as (A1 & A2 & _ & A3).
  unfold check. simpl.
  replace (parser.eqb (prevType (advance c)) parser.RightBrace) with false.
  2:{ symmetry. apply eqb_false_iff. rewrite prevType_advance.
      destruct Hc as [Hc|Hc]; unfold curType, parser.Current; rewrite Hc; discriminate. }
  destruct (parser.eqb (curType (advance c)) parser.Newline) eqn:E; simpl.
  - apply eqb_true_iff in E. specialize (A3 E).
    destruct (IH (advance c)) as (c' & H1 & H2 & H3); auto; [lia|].
    exists c'. rewrite H3, chunk_advance. auto.
  - exists (advance c). repeat split; [|apply chunk_advance].
    apply eqb_false_iff in E. destruct A2 as [A2|A2]; [contradiction | exact A2].
Qed.

(** C9: on a source that holds only newline and end-of-input tokens no
    statement is compiled, the code stays empty, and the patch of the last
    byte indexes position -1: [Compile] panics, whatever the zero token of
    the parser is. *)
Theorem Compile_panics_without_statement
    (PF : string -> option spec_float)
    (rules : parser.TokenType -> ParseRule)
    (init : parser.Token) (tokens : list parser.Token) (eol : Z)
    (fuel : nat) :
  Forall blank tokens ->
  (List.length tokens + 2 <= fuel)%nat ->
  Compile PF rules fuel (NewCompiler init tokens eol)
  = Panic "index out of range [-1]".
Proof.
  intros Hb Hf. destruct fuel as [|n]; [lia|].
  set (c0 := NewCompiler init tokens eol).
  assert (Hs : exists c', skipLeading (S n) c0 = Ok tt c' /\
             curType c' = parser.Eof /\ chunk c' = NewChunk).
  { cbn [skipLeading].
    destruct (advance_blank c0 Hb) as (A1 & A2 & A3 & A4).
    destruct (negb (check parser.Newline (advance c0))) eqn:E.
    - exists (advance c0). repeat split; [|apply chunk_advance].
      apply negb_true_iff in E. unfold check in E. simpl in E.
      destruct (parser.eqb (prevType (advance c0)) parser.RightBrace);
        [discriminate|].
      apply eqb_false_iff in E. destruct A2 as [A2|A2]; [contradiction | exact A2].
    - destruct (skipLeading_blank n (advance c0)) as (c' & H1 & H2 & H3); auto.
      { simpl in A3. lia. }
      exists c'. rewrite H3, chunk_advance. auto. }
  destruct Hs as (c1 & H1 & H2 & H3).
  unfold Compile, bind. rewrite H1. cbn [declarations].
  unfold match_. rewrite check_plain by discriminate.
  rewrite H2, eqb_refl. simpl.
  unfold patchLastPop. rewrite chunk_advance, H3. reflexivity.
Qed.

Lemma Compile_panics_without_statement_witness :
  Compile parseDigits specRules 4
    (NewCompiler (tok parser.Eof "") [tok parser.Newline ""; tok parser.Newline ""] 1)
  = Panic "index out of range [-1]".
Proof.
  apply Compile_panics_without_statement.
  - repeat constructor.
  - simpl; lia.
Defined.

(* ================================================================== *)
(** ** Enough fuel *)

Lemma remaining_errorAt t m c : remaining (errorAt t m c) = remaining c.
Proof. unfold errorAt; now destruct (panicMode c). Qed.

Lemma remaining_setChunk ch c : remaining (setChunk ch c) = remaining c.
Proof. reflexivity. Qed.

Lemma remaining_emitOpCode o c : remaining (emitOpCode o c) = remaining c.
Proof. reflexivity. Qed.

Lemma remaining_emitConstant v c : remaining (emitConstant v c) = remaining c.
Proof. reflexivity. Qed.

Lemma remaining_le_pending c :
  (remaining c <= S (List.length (parser.pending (p c))))%nat.
Proof. unfold remaining. destruct (parser.eqb _ _); lia. Qed.

Lemma remaining_pull ts : forall c, parser.pending (p c) = ts ->
  (remaining (pullToken ts c) <= List.length ts)%nat.
Proof.
  induction ts as [|t ts IH]; intros c E; simpl.
  - unfold parser.NextToken. rewrite E. unfold remaining; simpl. rewrite E.
    reflexivity.
  - destruct (parser.Type_ t) eqn:Et;
      try (unfold remaining, curType; simpl; destruct (parser.eqb _ _); lia).
    etransitivity; [apply IH|lia].
    unfold errorAtCurrent, errorAt. now destruct (panicMode _).
Qed.

Lemma remaining_consumeNewlinesFrom eof : parser.Type_ eof = parser.Eof ->
  forall ts cur,
  let r := consumeNewlinesFrom cur ts eof in
  (List.length (snd r) + (if parser.eqb (parser.Type_ (fst r)) parser.Eof then 0 else 1)
   <= List.length ts + (if parser.eqb (parser.Type_ cur) parser.Eof then 0 else 1))%nat.
Proof.
  intros He. induction ts as [|t ts IH]; intros cur; simpl.
  - destruct (parser.Type_ cur) eqn:E; simpl; try rewrite E; try rewrite He; simpl; lia.
  - destruct (parser.Type_ cur) eqn:E; simpl; try rewrite E; simpl; try lia.
    specialize (IH t). simpl in IH.
    destruct (parser.eqb (parser.Type_ t) parser.Eof); lia.
Qed.

Lemma remaining_consumeNewlines c :
  (remaining (consumeNewlines c) <= remaining c)%nat.
Proof.
  unfold consumeNewlines, remaining, curType.
  pose proof (remaining_consumeNewlinesFrom (parser.eofToken (p c)) eq_refl
                (parser.pending (p c)) (parser.current (p c))) as H.
  simpl in H. destruct (consumeNewlinesFrom _ _ _); simpl in *. exact H.
Qed.

Lemma remaining_skipNewlines c : (remaining (skipNewlines c) <= remaining c)%nat.
Proof.
  unfold skipNewlines. destruct (prevType c); auto using remaining_consumeNewlines.
Qed.

Lemma remaining_advance_pending c :
  (remaining (advance c) <= List.length (parser.pending (p c)))%nat.
Proof.
  unfold advance. etransitivity; [apply remaining_skipNewlines|].
  now apply remaining_pull.
Qed.

Lemma remaining_advance c : (remaining (advance c) <= remaining c)%nat.
Proof.
  etransitivity; [apply remaining_advance_pending|]. unfold remaining; lia.
Qed.

Lemma remaining_advance_lt c :
  curType c <> parser.Eof -> (remaining (advance c) < remaining c)%nat.
Proof.
  intros H. pose proof (remaining_advance_pending c).
  unfold remaining at 2. apply eqb_false_iff in H. rewrite H. lia.
Qed.

Lemma remaining_match t c : (remaining (snd (match_ t c)) <= remaining c)%nat.
Proof.
  unfold match_. destruct (check t c); simpl; auto using remaining_advance.
Qed.

Lemma remaining_consume t m c : (remaining (consume t m c) <= remaining c)%nat.
Proof.
  unfold consume. destruct (check t c); [apply remaining_advance|].
  unfold errorAtCurrent. now rewrite remaining_errorAt.
Qed.

Lemma remaining_expect c :
  (remaining (expectNewlineOrSemicolon c) <= remaining c)%nat.
Proof.
  rewrite expectNewlineOrSemicolon_cases.
  destruct (terminatorExempt c); [lia|].
  destruct (terminatorAhead c); [apply remaining_advance|].
  unfold errorAtCurrent. now rewrite remaining_errorAt.
Qed.

Lemma within_le {A} b b' (r : Result A) :
  (b <= b')%nat -> within b r -> within b' r.
Proof. destruct r; simpl; auto. lia. Qed.

Lemma within_bind {A B} b b' (m : M A) (f : A -> M B) c :
  within b (m c) ->
  (forall a c1, (remaining c1 <= b)%nat -> within b' (f a c1)) ->
  within b' (bind m f c).
Proof.
  unfold bind. destruct (m c) as [a c1| |]; simpl; auto.
Qed.

Section EnoughFuel.

Variable ParseFloat : string -> option spec_float.
Variable parseRules : parser.TokenType -> ParseRule.

(** End-of-input starts no expression and continues none. *)
Hypothesis Eof_prefix : prefix (parseRules parser.Eof) = None.
Hypothesis Eof_precedence :
  precedence (parseRules parser.Eof) = PrecedenceNone.

Section Callback.

Variable pp : Precedence -> M unit.
Variable n : nat.
Hypothesis pp_within :
  forall l c, (remaining c < n)%nat -> within (remaining c) (pp l c).

Lemma call_within rule canAssign c :
  (remaining c < n)%nat ->
  within (remaining c) (call ParseFloat parseRules pp rule canAssign c).
Proof.
  intros Hn. destruct rule as [[]|]; simpl; auto.
  - unfold unaryWith. eapply within_bind; [now apply pp_within|].
    intros _ c1 H1. destruct (prevType c); simpl; auto.
  - unfold binaryWith. eapply within_bind; [now apply pp_within|].
    intros _ c1 H1. unfold lift. simpl. now destruct (prevType c).
  - unfold number. destruct (ParseFloat _); simpl; auto.
  - unfold string_. destruct (_ <? _)%nat; simpl; auto.
  - unfold literal. destruct (prevType c); simpl; auto.
Qed.

Lemma infixLoop_within k : forall l canAssign c,
  (remaining c < k)%nat -> (k <= n)%nat ->
  within (remaining c)
    (infixLoop ParseFloat parseRules pp k l canAssign c).
Proof.
  induction k as [|k IH]; intros l canAssign c Hk Hn; [lia|].
  cbn [infixLoop].
  destruct (l <? precedence (parseRules (curType c)))%nat eqn:E;
    [|simpl; lia].
  assert (Hcur : curType c <> parser.Eof).
  { intros Heq. rewrite Heq, Eof_precedence in E.
    apply Nat.ltb_lt in E. unfold PrecedenceNone in E. lia. }
  pose proof (remaining_advance_lt c Hcur) as Hlt.
  eapply within_bind.
  - apply call_within. lia.
  - intros _ c1 H1. eapply within_le; [|apply IH; lia]. lia.
Qed.

Lemma parsePrecedenceWith_within l c :
  (remaining c <= n)%nat ->
  within (remaining (advance c))
    (parsePrecedenceWith ParseFloat parseRules pp n l c).
Proof.
  intros Hn. unfold parsePrecedenceWith.
  destruct (prefix (parseRules (prevType (advance c)))) as [fn|] eqn:E.
  - assert (Hcur : curType c <> parser.Eof).
    { intros Heq. rewrite prevType_advance, Heq, Eof_prefix in E.
      discriminate. }
    pose proof (remaining_advance_lt c Hcur) as Hlt.
    eapply within_bind; [apply call_within; lia|].
    intros _ c1 H1.
    eapply within_bind;
      [eapply within_le; [|apply infixLoop_within]; [exact H1|lia|lia]|].
    intros _ c2 H2.
    destruct (l <? PrecedenceAssignment)%nat; [|exact H2].
    pose proof (remaining_match parser.Equal c2) as Hm.
    destruct (match_ parser.Equal c2) as [m c3]; simpl in Hm.
    destruct m; [|simpl; lia].
    eapply within_le; [|apply pp_within].
    + unfold error. rewrite remaining_errorAt. lia.
    + unfold error. rewrite remaining_errorAt. lia.
  - simpl. unfold error. now rewrite remaining_errorAt.
Qed.

End Callback.

Lemma parsePrecedence_within fuel : forall l c,
  (remaining c < fuel)%nat ->
  within (remaining (advance c))
    (parsePrecedence ParseFloat parseRules fuel l c).
Proof.
  induction fuel as [|n IH]; intros l c Hn; [lia|].
  cbn [parsePrecedence]. apply parsePrecedenceWith_within; [|lia].
  intros l' c' Hc'. eapply within_le; [apply remaining_advance|].
  now apply IH.
Qed.

Lemma expression_within fuel c :
  (remaining c < fuel)%nat ->
  within (remaining (advance c)) (expression ParseFloat parseRules fuel c).
Proof. apply parsePrecedence_within. Qed.

Lemma expressionStatement_within fuel c :
  (remaining c < fuel)%nat ->
  within (remaining (advance c))
    (expressionStatement ParseFloat parseRules fuel c).
Proof.
  intros Hn. unfold expressionStatement.
  eapply within_bind; [now apply expression_within|].
  intros _ c1 H1. eapply within_bind; [exact H1|].
  intros _ c2 H2. unfold lift; simpl.
  etransitivity; [apply remaining_expect | exact H2].
Qed.

Lemma returnStatement_within fuel c :
  (remaining c < fuel)%nat ->
  within (remaining c) (returnStatement ParseFloat parseRules fuel c).
Proof.
  intros Hn. unfold returnStatement.
  pose proof (remaining_match parser.Newline c) as Hm.
  destruct (match_ parser.Newline c) as [m c1]; simpl in Hm.
  destruct m; [exact Hm|].
  eapply within_bind; [apply expression_within; lia|].
  intros _ c2 H2. eapply within_bind; [exact H2|].
  intros _ c3 H3. pose proof (remaining_advance c1).
  destruct (negb _); unfold lift, ret; simpl; [|lia].
  etransitivity; [apply remaining_expect | lia].
Qed.

Lemma declaration_within fuel c :
  (remaining c < fuel)%nat -> curType c <> parser.Eof ->
  within (remaining c - 1) (declaration ParseFloat parseRules fuel c).
Proof.
  intros Hn Hcur. unfold declaration, statement, match_.
  pose proof (remaining_advance_lt c Hcur) as Hlt.
  destruct (check parser.Return c); simpl.
  - eapply within_le; [|apply returnStatement_within]; lia.
  - eapply within_le; [|now apply expressionStatement_within]. lia.
Qed.

Lemma declarations_within k : forall c,
  (remaining c + 1 < k)%nat ->
  within (remaining c) (declarations ParseFloat parseRules k c).
Proof.
  induction k as [|k IH]; intros c Hk; [lia|].
  cbn [declarations]. unfold match_.
  rewrite check_plain by discriminate.
  destruct (parser.eqb (curType c) parser.Eof) eqn:E; simpl.
  - apply remaining_advance.
  - assert (Hpos : (1 <= remaining c)%nat)
      by (unfold remaining; rewrite E; lia).
    apply eqb_false_iff in E.
    eapply within_bind; [apply declaration_within; [lia | exact E]|].
    intros _ c1 H1. eapply within_le; [|apply IH; lia]. lia.
Qed.

Lemma skipLeading_within k : forall c,
  (2 * remaining c + (if parser.eqb (curType c) parser.Eof then 1 else 0) < k)%nat ->
  within (remaining c) (skipLeading k c).
Proof.
  induction k as [|k IH]; intros c Hk; [lia|].
  cbn [skipLeading].
  pose proof (remaining_advance c) as Hle.
  destruct (negb (check parser.Newline (advance c))) eqn:E; [exact Hle|].
  apply negb_false_iff in E.
  eapply within_le; [exact Hle|]. apply IH.
  destruct (parser.eqb (curType c) parser.Eof) eqn:Ec.
  - (* the token consumed was end-of-input: a newline is ahead *)
    unfold check in E. rewrite prevType_advance in E.
    apply eqb_true_iff in Ec. rewrite Ec in E. simpl in E.
    apply eqb_true_iff in E. rewrite E. simpl. lia.
  - apply eqb_false_iff in Ec.
    pose proof (remaining_advance_lt c Ec).
    destruct (parser.eqb (curType (advance c)) parser.Eof); lia.
Qed.

Lemma Compile_within fuel c :
  (2 * remaining c + 1 < fuel)%nat ->
  within (remaining c) (Compile ParseFloat parseRules fuel c).
Proof.
  intros Hf. unfold Compile.
  eapply within_bind.
  { apply skipLeading_within. destruct (parser.eqb _ _); lia. }
  intros _ c1 H1. eapply within_bind.
  { eapply within_le; [|apply declarations_within; lia]. exact H1. }
  intros _ c2 H2. eapply within_bind with (b := remaining c).
  { unfold patchLastPop. destruct (index _ _); simpl; auto.
    destruct (_ =? _); simpl; exact H2. }
  intros _ c3 H3. destruct (hadError c3); exact H3.
Qed.

Lemma Compile_enough_fuel init tokens eol fuel :
  (2 * List.length tokens + 4 <= fuel)%nat ->
  Compile ParseFloat parseRules fuel (NewCompiler init tokens eol)
  <> OutOfFuel.
Proof.
  intros Hf E.
  pose proof (Compile_within fuel (NewCompiler init tokens eol)) as H.
  rewrite E in H. apply H.
  pose proof (remaining_le_pending (NewCompiler init tokens eol)) as Hr.
  simpl in Hr. lia.
Qed.

End EnoughFuel.

(* ================================================================== *)
(** ** Return statements *)

(** C8, as the code has it: the terminator after the expression of a
    return statement is skipped exactly when the token ahead before the
    expression is parsed, its first token, is [fn]; in every other
    return statement with an expression the terminator rule is applied
    after the Return opcode is emitted. *)
Theorem returnStatement_terminator
    (PF : string -> option spec_float)
    (rules : parser.TokenType -> ParseRule)
    (fuel : nat) (c : Compiler) :
  check parser.Newline c = false ->
  returnStatement PF rules fuel c =
    if parser.eqb (curType c) parser.Fn
    then (expression PF rules fuel ;; lift (emitOpCode OpCode.Return)) c
    else (expression PF rules fuel ;; lift (emitOpCode OpCode.Return) ;;
          lift expectNewlineOrSemicolon) c.
Proof.
  intros H. unfold returnStatement, match_. rewrite H. simpl.
  rewrite check_plain by discriminate.
  destruct (parser.eqb (curType c) parser.Fn); simpl; [|reflexivity].
  unfold bind. now destruct (expression PF rules fuel c).
Qed.

Lemma returnStatement_terminator_witness :
  returnStatement parseDigits specRules 10
    (afterReturn (tok parser.Fn "fn") [tok parser.Number "1"])
  = (expression parseDigits specRules 10 ;; lift (emitOpCode OpCode.Return))
      (afterReturn (tok parser.Fn "fn") [tok parser.Number "1"]).
Proof.
  apply (returnStatement_terminator parseDigits specRules 10
           (afterReturn (tok parser.Fn "fn") [tok parser.Number "1"])).
  reflexivity.
Defined.

(** C8 as the spec states it fails: in [return 1 fn] the expression [1] is
    immediately followed by [fn], and the terminator is still required:
    its absence is reported at [fn]. *)
Lemma returnStatement_fn_after_expression_counterexample :
  exists c1 c2,
    (expression parseDigits specRules 10 ;; lift (emitOpCode OpCode.Return))
      (afterReturn (tok parser.Number "1") [tok parser.Fn "fn"]) = Ok tt c1 /\
    curType c1 = parser.Fn /\ stderr c1 = [] /\
    returnStatement parseDigits specRules 10
      (afterReturn (tok parser.Number "1") [tok parser.Fn "fn"]) = Ok tt c2 /\
    c2 = expectNewlineOrSemicolon c1 /\
    hadError c2 = true /\
    stderr c2 =
      [diagnostic (tok parser.Fn "fn") "Expect newline or ';'."].
Proof.
  eexists; eexists.
  split; [vm_compute; reflexivity|].
  split; [reflexivity|]. split; [reflexivity|].
  split; [vm_compute; reflexivity|].
  split; [vm_compute; reflexivity|].
  split; vm_compute; reflexivity.
Qed.

(* ================================================================== *)
(** ** The assignment tail of [parsePrecedence] *)

Lemma bind_ext {A B} (m : M A) (f g : A -> M B) c :
  (forall a c1, f a c1 = g a c1) -> bind m f c = bind m g c.
Proof. intros H. unfold bind. destruct (m c); auto. Qed.

(** C7, as the code has it: the flag is [minLevel < Assignment]; it is
    passed to the rules and guards the tail.  With the flag set and [=]
    ahead after the parsed expression, [=] is consumed, "Invalid assignment
    target." is reported at it (unless panic mode is already on) and the
    right-hand side is parsed by [expression]; that parse runs in panic
    mode, so it writes no diagnostic of its own. *)
Theorem parsePrecedence_assignment_tail
    (PF : string -> option spec_float)
    (rules : parser.TokenType -> ParseRule)
    (n : nat) (l : Precedence) (c : Compiler) (fn : ParseFn) :
  prefix (rules (curType c)) = Some fn ->
  let canAssign := (l <? PrecedenceAssignment)%nat in
  parsePrecedence PF rules (S n) l c =
    (call PF rules (parsePrecedence PF rules n) (Some fn) canAssign ;;
     infixLoop PF rules (parsePrecedence PF rules n) n l canAssign ;;
     fun c2 =>
       if canAssign && parser.eqb (curType c2) parser.Equal
       then expression PF rules n
              (error "Invalid assignment target." (advance c2))
       else Ok tt c2) (advance c) /\
  forall c2 c',
    expression PF rules n (error "Invalid assignment target." (advance c2))
      = Ok tt c' ->
    quiet (error "Invalid assignment target." (advance c2)) c' /\
    panicMode c' = true /\
    (panicMode (advance c2) = false ->
     hadError c' = true /\
     stderr c' =
       stderr (advance c2) ++
       [diagnostic (parser.Current (p c2)) "Invalid assignment target."]).
Proof.
  intros Hfn canAssign. split.
  - cbn [parsePrecedence]. unfold parsePrecedenceWith.
    rewrite prevType_advance, Hfn. fold canAssign.
    apply bind_ext; intros _ c1. apply bind_ext; intros _ c2.
    destruct canAssign; [|reflexivity]. simpl.
    unfold match_. rewrite check_plain by discriminate.
    now destruct (parser.eqb (curType c2) parser.Equal).
  - intros c2 c' H.
    assert (Hpm : panicMode (error "Invalid assignment target." (advance c2)) = true).
    { unfold error, errorAt. now destruct (panicMode (advance c2)) eqn:E. }
    apply diagStep_parsePrecedence in H.
    apply diagStep_panic in H; [|exact Hpm].
    split; [exact H|]. destruct H as (H1 & H2 & H3).
    split; [congruence|].
    intros Hoff. rewrite H1, H3. unfold error, parser.Previous.
    rewrite previous_advance.
    destruct (errorAt_first (parser.current (p c2))
                "Invalid assignment target." _ Hoff) as (_ & G2 & G3).
    auto.
Qed.

Lemma parsePrecedence_assignment_tail_witness :
  parsePrecedence parseDigits specRules 10 PrecedenceNone
    (ahead (tok parser.Number "1") [tok parser.Equal "="; tok parser.Number "2"])
  = (call parseDigits specRules (parsePrecedence parseDigits specRules 9)
       (Some fn_number) true ;;
     infixLoop parseDigits specRules (parsePrecedence parseDigits specRules 9)
       9 PrecedenceNone true ;;
     fun c2 =>
       if true && parser.eqb (curType c2) parser.Equal
       then expression parseDigits specRules 9
              (error "Invalid assignment target." (advance c2))
       else Ok tt c2)
      (advance (ahead (tok parser.Number "1")
                  [tok parser.Equal "="; tok parser.Number "2"])).
Proof.
  apply (parsePrecedence_assignment_tail parseDigits specRules 9 PrecedenceNone
           (ahead (tok parser.Number "1")
              [tok parser.Equal "="; tok parser.Number "2"]) fn_number).
  reflexivity.
Defined.

(** C7 as the spec states it fails: in [1 = +], parsed at level None, the
    right-hand side [+] is a syntax error ("Expect expression.", as a
    parse of [+] on its own reports), yet the only diagnostic written is
    the one for the assignment target. *)
Lemma nested_errors_not_reported_counterexample :
  exists c' c3,
    parsePrecedence parseDigits specRules 10 PrecedenceNone
      (ahead (tok parser.Number "1") [tok parser.Equal "="; tok parser.Plus "+"])
      = Ok tt c' /\
    stderr c' =
      [diagnostic (tok parser.Equal "=") "Invalid assignment target."] /\
    parser.pending (p c') = [] /\ prevType c' = parser.Plus /\
    expression parseDigits specRules 10 (ahead (tok parser.Plus "+") [])
      = Ok tt c3 /\
    stderr c3 = [diagnostic (tok parser.Plus "+") "Expect expression."] /\
    ~ In (diagnostic (tok parser.Plus "+") "Expect expression.") (stderr c').
Proof.
  eexists; eexists.
  split; [vm_compute; reflexivity|].
  split; [vm_compute; reflexivity|].
  split; [reflexivity|]. split; [reflexivity|].
  split; [vm_compute; reflexivity|].
  split; [vm_compute; reflexivity|].
  vm_compute. intros [H|[]]. discriminate H.
Qed.

(* ================================================================== *)
(** ** Binary operators *)

Lemma two_operators_left (f : string -> spec_float)
    (t1 t2 : parser.TokenType) (o1 o2 : OpCode.t)
    (a b c s1 s2 : string) :
  binaryOpCode t1 = Some o1 -> binaryOpCode t2 = Some o2 ->
  precedence (specRules t1) = precedence (specRules t2) ->
  exists c',
    Compile (fun s => Some (f s)) specRules 10
      (fresh (twoOperators a b c t1 t2 s1 s2))
    = Ok (Some (mkChunk (leftGrouped o1 o2)
                  [value.Number (f a); value.Number (f b); value.Number (f c)]))
         c'.
Proof.
  intros H1 H2 Hl.
  destruct t1; try discriminate H1; destruct t2; try discriminate H2;
    try discriminate Hl;
    injection H1 as <-; injection H2 as <-;
    eexists; vm_compute; reflexivity.
Qed.

(** C4: for an operator token whose table level is L, [binary] parses the
    right operand with [parsePrecedence] at level L+1 and then emits the
    operator's opcode; so [a t1 b t2 c] with two binary operators of the
    same level, the exponent operator included, compiles to the code of
    [(a t1 b) t2 c]. *)
Theorem binary_left_associative
    (PF : string -> option spec_float)
    (rules : parser.TokenType -> ParseRule) :
  (forall fuel canAssign c,
     binary PF rules fuel canAssign c =
       (parsePrecedence PF rules fuel (precedence (rules (prevType c)) + 1)%nat ;;
        lift (fun c' =>
                match binaryOpCode (prevType c) with
                | Some o => emitOpCode o c'
                | None => c'
                end)) c) /\
  (forall (f : string -> spec_float) t1 t2 o1 o2 a b c s1 s2,
     binaryOpCode t1 = Some o1 -> binaryOpCode t2 = Some o2 ->
     precedence (specRules t1) = precedence (specRules t2) ->
     exists c',
       Compile (fun s => Some (f s)) specRules 10
         (fresh (twoOperators a b c t1 t2 s1 s2))
       = Ok (Some (mkChunk (leftGrouped o1 o2)
                     [value.Number (f a); value.Number (f b);
                      value.Number (f c)])) c').
Proof.
  split.
  - intros fuel canAssign c. unfold binary, binaryWith.
    apply bind_ext. intros _ c1. unfold lift.
    now destruct (prevType c).
  - intros. now apply two_operators_left.
Qed.

Lemma binary_left_associative_witness :
  exists c',
    Compile (fun s => Some (digitsOrZero s)) specRules 10
      (fresh (twoOperators "2" "3" "4" parser.Caret parser.Caret "^" "^"))
    = Ok (Some (mkChunk (leftGrouped OpCode.Exponentiate OpCode.Exponentiate)
                  [value.Number (digitsOrZero "2");
                   value.Number (digitsOrZero "3");
                   value.Number (digitsOrZero "4")])) c'.
Proof.
  apply (proj2 (binary_left_associative parseDigits specRules)
           digitsOrZero parser.Caret parser.Caret
           OpCode.Exponentiate OpCode.Exponentiate "2" "3" "4" "^" "^");
    reflexivity.
Defined.

(* ================================================================== *)
(** ** Precedence climbing *)

Section Monotone.

Variable ParseFloat : string -> option spec_float.
Variable parseRules : parser.TokenType -> ParseRule.

Lemma bind_mono {A B} (m m' : M A) (f f' : A -> M B) c b c' :
  (forall a c1, m c = Ok a c1 -> m' c = Ok a c1) ->
  (forall a c1 b c2, f a c1 = Ok b c2 -> f' a c1 = Ok b c2) ->
  bind m f c = Ok b c' -> bind m' f' c = Ok b c'.
Proof.
  intros Hm Hf H. apply bind_Ok in H as (a & c1 & H1 & H2).
  apply bind_Ok. exists a, c1. split; [now apply Hm | now apply Hf].
Qed.

Lemma call_mono pp pp' rule canAssign c c' :
  extends pp pp' ->
  call ParseFloat parseRules pp rule canAssign c = Ok tt c' ->
  call ParseFloat parseRules pp' rule canAssign c = Ok tt c'.
Proof.
  intros He. destruct rule as [[]|]; simpl; auto.
  - unfold unaryWith. apply bind_mono; auto.
    intros [] c1; apply He.
  - unfold binaryWith. apply bind_mono; auto.
    intros [] c1; apply He.
Qed.

Lemma infixLoop_mono pp pp' k : forall k' l canAssign c c',
  extends pp pp' -> (k <= k')%nat ->
  infixLoop ParseFloat parseRules pp k l canAssign c = Ok tt c' ->
  infixLoop ParseFloat parseRules pp' k' l canAssign c = Ok tt c'.
Proof.
  induction k as [|k IH]; intros k' l canAssign c c' He Hk H;
    [discriminate|].
  destruct k' as [|k']; [lia|]. cbn [infixLoop] in *.
  destruct (_ <? _)%nat; [|exact H].
  revert H. apply bind_mono.
  - intros [] c1. now apply call_mono.
  - intros [] c1 [] c2. apply IH; [exact He | lia].
Qed.

Lemma parsePrecedenceWith_mono pp pp' k k' l c c' :
  extends pp pp' -> (k <= k')%nat ->
  parsePrecedenceWith ParseFloat parseRules pp k l c = Ok tt c' ->
  parsePrecedenceWith ParseFloat parseRules pp' k' l c = Ok tt c'.
Proof.
  intros He Hk. unfold parsePrecedenceWith.
  destruct (prefix _); [|auto].
  apply bind_mono.
  - intros [] c1. now apply call_mono.
  - intros [] c1 [] c2. apply bind_mono.
    + intros [] c3. now apply infixLoop_mono.
    + intros [] c3 [] c4. destruct (_ <? _)%nat; [|auto].
      destruct (match_ parser.Equal c3) as [[] c5]; [apply He | auto].
Qed.

Lemma parsePrecedence_mono n : forall m, (n <= m)%nat ->
  extends (parsePrecedence ParseFloat parseRules n)
          (parsePrecedence ParseFloat parseRules m).
Proof.
  induction n as [|n IH]; intros m Hm l c c' H; [discriminate|].
  destruct m as [|m]; [lia|]. cbn [parsePrecedence] in *.
  revert H. apply parsePrecedenceWith_mono; [apply IH|]; lia.
Qed.

Lemma invokes_from rule canAssign c c' :
  invokes ParseFloat parseRules rule canAssign c c' ->
  exists N, forall n, (N <= n)%nat ->
    call ParseFloat parseRules (parsePrecedence ParseFloat parseRules n)
      rule canAssign c = Ok tt c'.
Proof.
  intros [N H]. exists N. intros n Hn. revert H.
  apply call_mono. now apply parsePrecedence_mono.
Qed.

Lemma infixLoop_climbs pp k : forall l canAssign c c',
  (forall rule ca c c',
     call ParseFloat parseRules pp rule ca c = Ok tt c' ->
     invokes ParseFloat parseRules rule ca c c') ->
  infixLoop ParseFloat parseRules pp k l canAssign c = Ok tt c' ->
  climbs ParseFloat parseRules l canAssign c c'.
Proof.
  induction k as [|k IH]; intros l canAssign c c' Hpp H; [discriminate|].
  cbn [infixLoop] in H.
  destruct (l <? precedence (parseRules (curType c)))%nat eqn:E.
  - apply Nat.ltb_lt in E.
    apply bind_Ok in H as ([] & c1 & H1 & H2).
    rewrite prevType_advance in H1.
    eapply climbs_more; [exact E | eapply Hpp; exact H1 | eauto].
  - apply Nat.ltb_ge in E. inversion H; subst. now apply climbs_done.
Qed.

Lemma climbs_infixLoop l canAssign c c' :
  climbs ParseFloat parseRules l canAssign c c' ->
  exists N, forall n k, (N <= n)%nat -> (N <= k)%nat ->
    infixLoop ParseFloat parseRules
      (parsePrecedence ParseFloat parseRules n) k l canAssign c = Ok tt c'.
Proof.
  induction 1 as [c Hle | c c1 c2 Hlt Hinv _ [N IH]].
  - exists 1%nat. intros n k _ Hk. destruct k as [|k]; [lia|].
    cbn [infixLoop]. apply Nat.ltb_ge in Hle. now rewrite Hle.
  - apply invokes_from in Hinv as [N1 H1].
    exists (S (Nat.max N N1)). intros n k Hn Hk.
    destruct k as [|k]; [lia|]. cbn [infixLoop].
    apply Nat.ltb_lt in Hlt. rewrite Hlt.
    apply bind_Ok. exists tt, c1. rewrite prevType_advance. split.
    + apply H1. lia.
    + apply IH; lia.
Qed.

End Monotone.

(** C3: [parsePrecedence] returns from [c] in [c'] exactly as the spec
    describes it, for every minimum level: it consumes one token; without
    a prefix rule for it, it reports "Expect expression." and invokes no
    rule; with one, it invokes it and then, while the level of the token
    ahead strictly exceeds the minimum level, consumes that token and
    invokes its infix rule. *)
Theorem parsePrecedence_climbs
    (PF : string -> option spec_float)
    (rules : parser.TokenType -> ParseRule)
    (minLevel : Precedence) (c c' : Compiler) :
  ((exists fuel, parsePrecedence PF rules fuel minLevel c = Ok tt c') <->
   parsesAt PF rules minLevel c c') /\
  (prefix (rules (curType c)) = None ->
   forall fuel,
     parsePrecedence PF rules (S fuel) minLevel c
       = Ok tt (error "Expect expression." (advance c)) /\
     chunk (error "Expect expression." (advance c)) = chunk c /\
     parser.Previous (p (error "Expect expression." (advance c)))
       = parser.Current (p c)).
Proof.
  split; [split|].
  - intros [[|n] H]; [discriminate|].
    cbn [parsePrecedence] in H. unfold parsePrecedenceWith in H.
    unfold parsesAt. rewrite prevType_advance in H.
    destruct (prefix (rules (curType c))) as [fn|];
      [|now inversion H].
    apply bind_Ok in H as ([] & c1 & H1 & H).
    apply bind_Ok in H as ([] & c2 & H2 & H).
    exists c1, c2. split; [now exists n|]. split.
    + eapply infixLoop_climbs; [|exact H2].
      intros rule ca c0 c0' H0. now exists n.
    + unfold assignTail.
      destruct (minLevel <? PrecedenceAssignment)%nat; simpl;
        [|now inversion H].
      unfold match_ in H. rewrite check_plain in H by discriminate.
      destruct (parser.eqb (curType c2) parser.Equal); simpl in H;
        [now exists n | now inversion H].
  - unfold parsesAt. intros H.
    destruct (prefix (rules (curType c))) as [fn|] eqn:E.
    + destruct H as (c1 & c2 & H1 & H2 & H3).
      apply invokes_from in H1 as [N1 H1].
      apply climbs_infixLoop in H2 as [N2 H2].
      assert (H4 : exists N3, forall n, (N3 <= n)%nat ->
        (if (minLevel <? PrecedenceAssignment)%nat
         then let '(m, c3) := match_ parser.Equal c2 in
              if m then parsePrecedence PF rules n PrecedenceAssignment
                          (error "Invalid assignment target." c3)
              else Ok tt c3
         else Ok tt c2) = Ok tt c').
      { unfold assignTail in H3.
        destruct (minLevel <? PrecedenceAssignment)%nat; simpl in H3;
          [|exists 0%nat; intros; now subst].
        unfold match_. rewrite check_plain by discriminate.
        destruct (parser.eqb (curType c2) parser.Equal); simpl;
          [|exists 0%nat; intros; now subst].
        destruct H3 as [N3 H3]. exists N3. intros n Hn.
        eapply parsePrecedence_mono; eauto. }
      destruct H4 as [N3 H4].
      exists (S (Nat.max N1 (Nat.max N2 N3))).
      cbn [parsePrecedence]. unfold parsePrecedenceWith.
      rewrite prevType_advance, E.
      apply bind_Ok. exists tt, c1. split; [apply H1; lia|].
      apply bind_Ok. exists tt, c2. split; [apply H2; lia|].
      apply H4. lia.
    + exists 1%nat. cbn [parsePrecedence]. unfold parsePrecedenceWith.
      rewrite prevType_advance, E. now subst.
  - intros E fuel. cbn [parsePrecedence]. unfold parsePrecedenceWith.
    rewrite prevType_advance, E. split; [reflexivity|]. split.
    + unfold error. rewrite sameChunk_errorAt. apply chunk_advance.
    + unfold error, parser.Previous. rewrite previous_errorAt.
      apply previous_advance.
Qed.

Lemma parsePrecedence_climbs_witness :
  parsePrecedence parseDigits specRules 1 PrecedenceAssignment
    (ahead (tok parser.Plus "+") [])
  = Ok tt (error "Expect expression." (advance (ahead (tok parser.Plus "+") []))).
Proof.
  apply (proj2 (parsePrecedence_climbs parseDigits specRules
                  PrecedenceAssignment (ahead (tok parser.Plus "+") [])
                  (ahead (tok parser.Plus "+") []))).
  reflexivity.
Defined.

(* ================================================================== *)
(** ** No panic inside a statement *)

Section NoPanic.

Variable PF : string -> option spec_float.

Lemma keepsLexed_errorAt t m c : keepsLexed PF c (errorAt t m c).
Proof. unfold keepsLexed, errorAt. now destruct (panicMode c). Qed.

Lemma keepsLexed_pull ts : forall c, parser.pending (p c) = ts ->
  keepsLexed PF c (pullToken ts c).
Proof.
  induction ts as [|t ts IH]; intros c E (H1 & H2 & H3); simpl.
  - unfold parser.NextToken. rewrite E. simpl.
    repeat split; auto.
  - rewrite E in H3. inversion H3 as [|? ? Ht Hts]; subst.
    assert (G : wellLexed PF
      (setP (parser.mkParser (parser.previous (p c)) t ts
               (parser.endLine (p c))) c)) by (repeat split; auto).
    destruct (parser.Type_ t); auto.
    apply IH; [|now apply keepsLexed_errorAt].
    unfold errorAtCurrent, errorAt. now destruct (panicMode _).
Qed.

Lemma keepsLexed_consumeNewlinesFrom eof : okToken PF eof ->
  forall ts cur, Forall (okToken PF) ts -> okToken PF cur ->
  okToken PF (fst (consumeNewlinesFrom cur ts eof)) /\
  Forall (okToken PF) (snd (consumeNewlinesFrom cur ts eof)).
Proof.
  intros He. induction ts as [|t ts IH]; intros cur Hts Hc; simpl.
  - destruct (parser.Type_ cur); simpl; auto.
  - inversion Hts; subst. destruct (parser.Type_ cur); simpl; auto.
Qed.

Lemma keepsLexed_consumeNewlines c : keepsLexed PF c (consumeNewlines c).
Proof.
  intros (H1 & H2 & H3). unfold consumeNewlines.
  destruct (keepsLexed_consumeNewlinesFrom (parser.eofToken (p c)) I
              _ _ H3 H2) as [G1 G2].
  destruct (consumeNewlinesFrom _ _ _); simpl in *. repeat split; auto.
Qed.

Lemma keepsLexed_trans a b c :
  keepsLexed PF a b -> keepsLexed PF b c -> keepsLexed PF a c.
Proof. unfold keepsLexed; auto. Qed.

Lemma keepsLexed_refl c : keepsLexed PF c c.
Proof. unfold keepsLexed; auto. Qed.

Lemma keepsLexed_setPrevious c :
  keepsLexed PF c (setP (parser.SetPrevious (parser.Current (p c)) (p c)) c).
Proof. intros (H1 & H2 & H3). repeat split; auto. Qed.

Lemma keepsLexed_emitOpCode o c : keepsLexed PF c (emitOpCode o c).
Proof. intros H; exact H. Qed.

Lemma keepsLexed_emitConstant v c : keepsLexed PF c (emitConstant v c).
Proof. intros H; exact H. Qed.

Lemma keepsLexed_pullToken c :
  keepsLexed PF c (pullToken (parser.pending (p c)) c).
Proof. now apply keepsLexed_pull. Qed.

Ltac lexed lem :=
  intros; eapply lem;
  eauto using keepsLexed_refl, keepsLexed_trans, keepsLexed_setPrevious,
    keepsLexed_consumeNewlines, keepsLexed_errorAt, keepsLexed_emitOpCode,
    keepsLexed_emitConstant, keepsLexed_pullToken.

Lemma wellLexed_advance c : keepsLexed PF c (advance c).
Proof. lexed (R_advance (keepsLexed PF)). Qed.

Lemma wellLexed_match t c : keepsLexed PF c (snd (match_ t c)).
Proof. lexed (R_match (keepsLexed PF)). Qed.

Lemma wellLexed_parsePrecedence rules fuel l :
  respects (keepsLexed PF) (parsePrecedence PF rules fuel l).
Proof. lexed respects_parsePrecedence. Qed.

Lemma wellLexed_call rules pp rule canAssign :
  (forall l, respects (keepsLexed PF) (pp l)) ->
  respects (keepsLexed PF) (call PF rules pp rule canAssign).
Proof. lexed respects_call. Qed.

Lemma wellLexed_infixLoop rules pp fuel l canAssign :
  (forall l, respects (keepsLexed PF) (pp l)) ->
  respects (keepsLexed PF) (infixLoop PF rules pp fuel l canAssign).
Proof. lexed respects_infixLoop. Qed.

Lemma wellLexed_declaration rules fuel :
  respects (keepsLexed PF) (declaration PF rules fuel).
Proof. lexed respects_declaration. Qed.

Lemma wellLexed_skipLeading fuel : respects (keepsLexed PF) (skipLeading fuel).
Proof. lexed respects_skipLeading. Qed.

Lemma wellLexed_declarations rules fuel :
  respects (keepsLexed PF) (declarations PF rules fuel).
Proof. lexed respects_declarations. Qed.

Lemma noPanic_bind {A B} (m : M A) (f : A -> M B) c :
  noPanic (m c) -> (forall a c1, m c = Ok a c1 -> noPanic (f a c1)) ->
  noPanic (bind m f c).
Proof. unfold bind. destruct (m c); simpl; auto. Qed.

(** With the table of the spec a prefix rule is called only on a token it
    handles. *)
Lemma prefix_noPanic pp fn canAssign c :
  wellLexed PF c -> prefix (specRules (prevType c)) = Some fn ->
  (forall l c, wellLexed PF c -> noPanic (pp l c)) ->
  noPanic (call PF specRules pp (Some fn) canAssign c).
Proof.
  intros Hw Hfn Hpp. pose proof (proj1 Hw) as H1.
  unfold prevType, parser.Previous in Hfn. unfold okToken in H1.
  destruct (parser.Type_ (parser.previous (p c))) eqn:Et; simpl in Hfn;
    inversion Hfn; subst; simpl.
  - unfold number, parser.Previous. now destruct (PF _).
  - unfold string_, parser.Previous.
    apply Nat.ltb_ge in H1. now rewrite H1.
  - unfold literal, prevType, parser.Previous. now rewrite Et.
  - unfold literal, prevType, parser.Previous. now rewrite Et.
  - unfold literal, prevType, parser.Previous. now rewrite Et.
  - unfold unaryWith, prevType, parser.Previous. rewrite Et.
    apply noPanic_bind; [now apply Hpp|]. now intros.
  - unfold unaryWith, prevType, parser.Previous. rewrite Et.
    apply noPanic_bind; [now apply Hpp|]. now intros.
Qed.

(** And an infix rule only on a binary operator. *)
Lemma infix_noPanic pp canAssign c :
  wellLexed PF c ->
  (0 < precedence (specRules (prevType c)))%nat ->
  (forall l c, wellLexed PF c -> noPanic (pp l c)) ->
  noPanic (call PF specRules pp (infix (specRules (prevType c))) canAssign c).
Proof.
  intros Hw Hl Hpp.
  destruct (prevType c) eqn:Et; simpl in Hl;
    try (unfold PrecedenceNone in Hl; lia); simpl;
    unfold binaryWith; (apply noPanic_bind; [now apply Hpp | now intros]).
Qed.

Lemma infixLoop_noPanic pp k : forall l canAssign c,
  wellLexed PF c ->
  (forall l, respects (keepsLexed PF) (pp l)) ->
  (forall l c, wellLexed PF c -> noPanic (pp l c)) ->
  noPanic (infixLoop PF specRules pp k l canAssign c).
Proof.
  induction k as [|k IH]; intros l canAssign c Hw Hr Hpp; [exact I|].
  cbn [infixLoop].
  destruct (l <? precedence (specRules (curType c)))%nat eqn:E; [|exact I].
  apply Nat.ltb_lt in E. pose proof (wellLexed_advance c Hw) as Hw1.
  apply noPanic_bind.
  - apply infix_noPanic; auto. rewrite prevType_advance. lia.
  - intros [] c1 H1. apply IH; auto.
    eapply (wellLexed_call specRules pp); eauto.
Qed.

Lemma parsePrecedenceWith_noPanic pp k l c :
  wellLexed PF c ->
  (forall l, respects (keepsLexed PF) (pp l)) ->
  (forall l c, wellLexed PF c -> noPanic (pp l c)) ->
  noPanic (parsePrecedenceWith PF specRules pp k l c).
Proof.
  intros Hw Hr Hpp. unfold parsePrecedenceWith.
  pose proof (wellLexed_advance c Hw) as Hw1.
  destruct (prefix (specRules (prevType (advance c)))) as [fn|] eqn:E;
    [|exact I].
  apply noPanic_bind; [now apply prefix_noPanic|].
  intros [] c1 H1.
  assert (Hw2 : wellLexed PF c1)
    by (eapply (wellLexed_call specRules pp); eauto).
  apply noPanic_bind; [now apply infixLoop_noPanic|].
  intros [] c2 H2.
  assert (Hw3 : wellLexed PF c2)
    by (eapply (wellLexed_infixLoop specRules pp); eauto).
  destruct (l <? PrecedenceAssignment)%nat; [|exact I].
  pose proof (wellLexed_match parser.Equal c2 Hw3) as Hw4.
  destruct (match_ parser.Equal c2) as [[] c3]; simpl in Hw4; [|exact I].
  apply Hpp. now apply keepsLexed_errorAt.
Qed.

Lemma parsePrecedence_noPanic fuel : forall l c,
  wellLexed PF c -> noPanic (parsePrecedence PF specRules fuel l c).
Proof.
  induction fuel as [|n IH]; intros l c Hw; [exact I|].
  cbn [parsePrecedence]. apply parsePrecedenceWith_noPanic; auto.
  intros l'. apply wellLexed_parsePrecedence.
Qed.

Lemma declaration_noPanic fuel c :
  wellLexed PF c -> noPanic (declaration PF specRules fuel c).
Proof.
  intros Hw. unfold declaration, statement.
  pose proof (wellLexed_match parser.Return c Hw) as Hw1.
  destruct (match_ parser.Return c) as [[] c1]; simpl in Hw1.
  - unfold returnStatement.
    pose proof (wellLexed_match parser.Newline c1 Hw1) as Hw2.
    destruct (match_ parser.Newline c1) as [[] c2]; simpl in Hw2; [exact I|].
    apply noPanic_bind; [now apply parsePrecedence_noPanic|].
    intros [] c3 _. apply noPanic_bind; [exact I|].
    intros [] c4 _. now destruct (negb _).
  - unfold expressionStatement.
    apply noPanic_bind; [now apply parsePrecedence_noPanic|].
    intros [] c3 _. apply noPanic_bind; [exact I|]. now intros.
Qed.

Lemma declarations_noPanic fuel : forall c,
  wellLexed PF c -> noPanic (declarations PF specRules fuel c).
Proof.
  induction fuel as [|n IH]; intros c Hw; [exact I|].
  cbn [declarations].
  pose proof (wellLexed_match parser.Eof c Hw) as Hw1.
  destruct (match_ parser.Eof c) as [[] c1]; simpl in Hw1; [exact I|].
  apply noPanic_bind; [now apply declaration_noPanic|].
  intros [] c2 H2. apply IH.
  eapply (wellLexed_declaration specRules n); eauto.
Qed.

Lemma skipLeading_noPanic fuel : forall c, noPanic (skipLeading fuel c).
Proof.
  induction fuel as [|n IH]; intros c; [exact I|].
  cbn [skipLeading]. now destruct (negb _).
Qed.

Lemma compileLoops_noPanic fuel c :
  wellLexed PF c -> noPanic (compileLoops PF specRules fuel c).
Proof.
  intros Hw. unfold compileLoops.
  apply noPanic_bind; [apply skipLeading_noPanic|].
  intros [] c1 H1. apply declarations_noPanic.
  eapply (wellLexed_skipLeading fuel); eauto.
Qed.

End NoPanic.

Lemma Compile_unfold (PF : string -> option spec_float)
    (rules : parser.TokenType -> ParseRule) (fuel : nat) (c : Compiler) :
  Compile PF rules fuel c =
    match compileLoops PF rules fuel c with
    | Ok _ c1 =>
        match patchLastPop c1 with
        | Ok _ c2 => Ok (if hadError c2 then None else Some (chunk c2)) c2
        | Panic msg => Panic msg
        | OutOfFuel => OutOfFuel
        end
    | Panic msg => Panic msg
    | OutOfFuel => OutOfFuel
    end.
Proof.
  unfold Compile, compileLoops, bind.
  destruct (skipLeading fuel c) as [[] c0| |]; auto.
  destruct (declarations PF rules fuel c0) as [[] c1| |]; auto.
  destruct (patchLastPop c1) as [[] c2| |]; auto.
  now destruct (hadError c2).
Qed.

Lemma patchLastPop_panic c msg :
  patchLastPop c = Panic msg ->
  msg = "index out of range [-1]" /\ code (chunk c) = [].
Proof.
  intros H. pose proof (patchLastPop_spec c) as Hs. rewrite H in Hs.
  split; [|exact Hs]. unfold patchLastPop in H. rewrite Hs in H.
  simpl in H. now inversion H.
Qed.

(** With the table of the spec and a well-lexed source, [Compile] returns
    unless the code is empty when its last byte is to be patched. *)
Lemma Compile_returns_or_empty (PF : string -> option spec_float)
    (init : parser.Token) (tokens : list parser.Token) (eol : Z)
    (fuel : nat) :
  okToken PF init -> Forall (okToken PF) tokens ->
  (2 * List.length tokens + 4 <= fuel)%nat ->
  (exists r c',
     Compile PF specRules fuel (NewCompiler init tokens eol) = Ok r c') \/
  (Compile PF specRules fuel (NewCompiler init tokens eol)
     = Panic "index out of range [-1]" /\
   exists c1,
     compileLoops PF specRules fuel (NewCompiler init tokens eol) = Ok tt c1 /\
     code (chunk c1) = []).
Proof.
  intros Hi Ht Hf.
  pose proof (Compile_enough_fuel PF specRules eq_refl eq_refl
                init tokens eol fuel Hf) as Hfuel.
  assert (Hw : wellLexed PF (NewCompiler init tokens eol))
    by (repeat split; auto).
  pose proof (compileLoops_noPanic PF fuel _ Hw) as Hnp.
  rewrite Compile_unfold in *.
  destruct (compileLoops PF specRules fuel (NewCompiler init tokens eol))
    as [[] c1| |]; [|contradiction|congruence].
  destruct (patchLastPop c1) as [[] c2|msg|] eqn:Ep; [| |congruence].
  - left. eauto.
  - right. apply patchLastPop_panic in Ep as [-> Ep]. eauto.
Qed.

(* ================================================================== *)
(** ** What [Compile] returns *)

(** C1: a compilation that returns yields nil exactly when [hadError] is
    set, which is exactly when a diagnostic was written, and yields the
    chunk otherwise.  It does return: with a table in which end-of-input
    has no prefix rule and level None, fuel linear in the number of tokens
    is enough for [Compile] to finish, and with the table of the spec and a
    well-lexed source the one way it can finish without returning is the
    index panic on empty code. *)
Theorem Compile_nil_iff_diagnostic
    (PF : string -> option spec_float)
    (rules : parser.TokenType -> ParseRule)
    (init : parser.Token) (tokens : list parser.Token) (eol : Z)
    (fuel : nat) :
  (forall r c',
     Compile PF rules fuel (NewCompiler init tokens eol) = Ok r c' ->
     (r = None <-> hadError c' = true) /\
     (hadError c' = true <-> stderr c' <> []) /\
     (hadError c' = false -> r = Some (chunk c'))) /\
  (prefix (rules parser.Eof) = None ->
   precedence (rules parser.Eof) = PrecedenceNone ->
   (2 * List.length tokens + 4 <= fuel)%nat ->
   Compile PF rules fuel (NewCompiler init tokens eol) <> OutOfFuel) /\
  (okToken PF init -> Forall (okToken PF) tokens ->
   (2 * List.length tokens + 4 <= fuel)%nat ->
   (exists r c',
      Compile PF specRules fuel (NewCompiler init tokens eol) = Ok r c') \/
   (Compile PF specRules fuel (NewCompiler init tokens eol)
      = Panic "index out of range [-1]" /\
    exists c1,
      compileLoops PF specRules fuel (NewCompiler init tokens eol)
        = Ok tt c1 /\
      code (chunk c1) = [])).
Proof.
  split; [|split].
  - intros r c' H.
    pose proof (diagStep_Compile _ _ _ _ _ _ H) as Hd.
    apply (diagInv_step _ _ (diagInv_New init tokens eol)) in Hd.
    destruct Hd as (Hd & _).
    apply Compile_Ok in H as (c1 & _ & _ & ->).
    destruct (hadError c') eqn:E; repeat split; auto; try congruence;
      try (now apply Hd).
  - intros H1 H2 H3. now apply Compile_enough_fuel.
  - apply Compile_returns_or_empty.
Qed.

Lemma Compile_nil_iff_diagnostic_witness :
  (exists r c',
     Compile parseDigits specRules 10 (fresh onePlusOne) = Ok r c' /\
     (r = None <-> hadError c' = true) /\
     (hadError c' = true <-> stderr c' <> []) /\
     (hadError c' = false -> r = Some (chunk c'))) /\
  Compile parseDigits specRules 10 (fresh onePlusOne) <> OutOfFuel.
Proof.
  destruct (Compile_nil_iff_diagnostic parseDigits specRules
              (tok parser.Eof "") onePlusOne 1 10) as (H1 & H2 & H3).
  split.
  - destruct H3 as [(r & c' & E)|[E _]];
      [exact I | repeat constructor; discriminate | simpl; lia | |
       vm_compute in E; discriminate E].
    exists r, c'. split; [exact E | now apply H1].
  - apply H2; [reflexivity | reflexivity | simpl; lia].
Defined.

(* ================================================================== *)
(** ** Emitting operands and constants *)

Lemma land_255 (x : Z) : Z.land x 255 = x mod 256.
Proof. change 255 with (Z.ones 8). now rewrite Z.land_ones by lia. Qed.

Lemma short_split (short : Z) :
  0 <= short < 65536 ->
  let hi := Z.land (Z.shiftr short 8) 255 in
  let lo := Z.land short 255 in
  0 <= hi < 256 /\ 0 <= lo < 256 /\ hi * 256 + lo = short.
Proof.
  intros H hi lo. subst hi lo. rewrite !land_255, Z.shiftr_div_pow2 by lia.
  change (2 ^ 8) with 256.
  assert (0 <= short / 256 < 256) by (split; [apply Z.div_pos | apply Z.div_lt_upper_bound]; lia).
  rewrite (Z.mod_small (short / 256)) by lia.
  pose proof (Z.mod_pos_bound short 256 ltac:(lia)).
  pose proof (Z.div_mod short 256 ltac:(lia)). lia.
Qed.

(** X1: [emitShort] appends the operand as two bytes, high byte first:
    both are bytes, and reading them back big-endian gives the operand;
    nothing else of the state changes. *)
Theorem emitShort_big_endian (short : Z) (c : Compiler) :
  0 <= short < 65536 ->
  exists hi lo,
    emitShort short c =
      setChunk (mkChunk (code (chunk c) ++ [hi; lo]) (constants (chunk c))) c /\
    0 <= hi < 256 /\ 0 <= lo < 256 /\ hi * 256 + lo = short.
Proof.
  intros H. exists (Z.land (Z.shiftr short 8) 255), (Z.land short 255).
  split; [|now apply short_split].
  unfold emitShort, setChunk, pushCode; simpl. now rewrite <- app_assoc.
Qed.

Lemma emitShort_big_endian_witness :
  exists hi lo,
    emitShort 258 (fresh []) =
      setChunk (mkChunk (code (chunk (fresh [])) ++ [hi; lo])
                        (constants (chunk (fresh [])))) (fresh []) /\
    0 <= hi < 256 /\ 0 <= lo < 256 /\ hi * 256 + lo = 258.
Proof. apply (emitShort_big_endian 258 (fresh [])). lia. Defined.

Lemma emitConstant_bytes (v : value.Value) (c : Compiler) :
  let index := indexOf (List.length (constants (chunk c))) in
  emitConstant v c =
    setChunk (mkChunk (code (chunk c) ++ encodeInstr (IConst index))
                      (constants (chunk c) ++ [v])) c.
Proof.
  unfold emitConstant, pushConstant, emitShort, emitOpCode, setChunk, pushCode,
    indexOf. simpl. now rewrite <- !app_assoc.
Qed.

(** X2: [emitConstant] appends the value to the constant pool and emits
    the Constant opcode with a two-byte operand.  The operand always
    addresses a slot of the pool; while the pool held fewer than 65536
    values it addresses the value just added. *)
Theorem emitConstant_addresses_value (v : value.Value) (c : Compiler) :
  exists hi lo,
    emitConstant v c =
      setChunk (mkChunk (code (chunk c) ++ [OpCode.uint8 OpCode.Constant; hi; lo])
                        (constants (chunk c) ++ [v])) c /\
    0 <= hi < 256 /\ 0 <= lo < 256 /\
    (Z.to_nat (hi * 256 + lo) < List.length (constants (chunk c) ++ [v]))%nat /\
    (Z.of_nat (List.length (constants (chunk c))) < 65536 ->
     nth_error (constants (chunk c) ++ [v]) (Z.to_nat (hi * 256 + lo)) = Some v).
Proof.
  set (n := Z.of_nat (List.length (constants (chunk c)))).
  assert (Hr : 0 <= n mod 65536 < 65536) by (apply Z.mod_pos_bound; lia).
  destruct (short_split (n mod 65536) Hr) as (H1 & H2 & H3).
  exists (Z.land (Z.shiftr (n mod 65536) 8) 255), (Z.land (n mod 65536) 255).
  split; [|split; [exact H1|split; [exact H2|]]].
  - apply emitConstant_bytes.
  - rewrite H3. split.
    + rewrite length_app. simpl.
      assert (n mod 65536 <= n) by (apply Z.mod_le; lia). lia.
    + intros Hn. rewrite Z.mod_small by lia. unfold n.
      rewrite Nat2Z.id, nth_error_app2, Nat.sub_diag by lia. reflexivity.
Qed.

Lemma emitConstant_addresses_value_witness :
  exists hi lo,
    emitConstant value.Nil (fresh []) =
      setChunk (mkChunk ([] ++ [OpCode.uint8 OpCode.Constant; hi; lo])
                        ([] ++ [value.Nil])) (fresh []) /\
    nth_error ([] ++ [value.Nil]) (Z.to_nat (hi * 256 + lo)) = Some value.Nil.
Proof.
  destruct (emitConstant_addresses_value value.Nil (fresh []))
    as (hi & lo & E & _ & _ & _ & H).
  exists hi, lo. split; [exact E | apply H; simpl; lia].
Defined.

(* ================================================================== *)
(** ** String literals *)

Lemma substring_prefix (body rest : string) :
  substring 0 (String.length body) (body ++ rest)%string = body.
Proof.
  induction body as [|a body IH]; simpl.
  - now destruct rest.
  - now rewrite IH.
Qed.

Lemma length_append (s t : string) :
  String.length (s ++ t)%string = (String.length s + String.length t)%nat.
Proof. induction s as [|a s IH]; simpl; [reflexivity | now rewrite IH]. Qed.

(** X3: [string] takes the lexeme without its first and last character as
    the constant, whatever those two characters and the characters between
    them are; it panics exactly when the lexeme is shorter than two
    characters. *)
Theorem string_strips_delimiters (canAssign : bool) (c : Compiler) :
  (noPanic (string_ canAssign c) <->
   (2 <= String.length (parser.Lexeme (parser.Previous (p c))))%nat) /\
  (forall q1 q2 body,
     parser.Lexeme (parser.Previous (p c))
       = String q1 (body ++ String q2 "")%string ->
     string_ canAssign c = Ok tt (emitConstant (value.String body) c)).
Proof.
  unfold string_. split.
  - destruct (Nat.ltb_spec (String.length (parser.Lexeme (parser.Previous (p c)))) 2);
      simpl; split; intros; try lia; auto; contradiction.
  - intros q1 q2 body E. rewrite E. simpl.
    rewrite length_append. simpl.
    replace (String.length body + 1 - 1)%nat with (String.length body) by lia.
    destruct (String.length body + 1)%nat eqn:En; [lia|].
    now rewrite substring_prefix.
Qed.

Lemma string_strips_delimiters_witness :
  string_ false
    (mkCompiler (parser.mkParser (tok parser.String "'a\n'") (tok parser.Eof "")
                   [] 1) NewChunk false false [])
  = Ok tt (emitConstant (value.String "a\n")
      (mkCompiler (parser.mkParser (tok parser.String "'a\n'") (tok parser.Eof "")
                     [] 1) NewChunk false false [])).
Proof.
  apply (proj2 (string_strips_delimiters false
    (mkCompiler (parser.mkParser (tok parser.String "'a\n'") (tok parser.Eof "")
                   [] 1) NewChunk false false []))
    "'"%char "'"%char "a\n").
  reflexivity.
Defined.

(* ================================================================== *)
(** ** What [advance] does to the tokens *)

Lemma skipNewlines_cases c :
  skipNewlines c =
    if skipsNewlinesAfter (prevType c) then consumeNewlines c else c.
Proof. unfold skipNewlines. now destruct (prevType c). Qed.

Lemma consumeNewlinesFrom_stops eof : parser.Type_ eof = parser.Eof ->
  forall ts cur,
  parser.Type_ (fst (consumeNewlinesFrom cur ts eof)) <> parser.Newline.
Proof.
  intros He. induction ts as [|t ts IH]; intros cur; simpl;
    destruct (parser.Type_ cur) eqn:E; simpl; try congruence; auto.
Qed.

Lemma consumeNewlines_stops c : curType (consumeNewlines c) <> parser.Newline.
Proof.
  unfold consumeNewlines, curType.
  pose proof (consumeNewlinesFrom_stops (parser.eofToken (p c)) eq_refl
                (parser.pending (p c)) (parser.current (p c))) as H.
  now destruct (consumeNewlinesFrom _ _ _).
Qed.

Lemma consumeNewlines_idle c :
  curType c <> parser.Newline -> consumeNewlines c = c.
Proof.
  intros H. unfold consumeNewlines, curType, parser.Current in *.
  destruct c as [[pr cu pe el] ch he pm se]; simpl in *.
  destruct pe; simpl; destruct (parser.Type_ cu); try congruence; reflexivity.
Qed.

Lemma pullToken_onto t ts c :
  parser.Type_ t <> parser.Error ->
  pullToken (t :: ts) c =
    setP (parser.mkParser (parser.previous (p c)) t ts (parser.endLine (p c))) c.
Proof. intros H. simpl. destruct (parser.Type_ t); congruence. Qed.

Lemma pullToken_not_Error ts :
  forall c, parser.pending (p c) = ts ->
  curType (pullToken ts c) <> parser.Error.
Proof.
  induction ts as [|t ts IH]; intros c E; simpl.
  - unfold parser.NextToken. rewrite E. discriminate.
  - destruct (parser.Type_ t) eqn:Et; unfold curType; simpl;
      try (rewrite Et; discriminate).
    apply IH. unfold errorAtCurrent, errorAt. now destruct (panicMode _).
Qed.

Lemma prevType_pull ts c : prevType (pullToken ts c) = prevType c.
Proof. unfold prevType, parser.Previous. now rewrite previous_pull. Qed.

Lemma advance_onto c t ts :
  parser.pending (p c) = t :: ts ->
  parser.Type_ t <> parser.Error ->
  skipsNewlinesAfter (curType c) = false \/ parser.Type_ t <> parser.Newline ->
  advance c = shifted c t ts.
Proof.
  intros Ep Ht Hs. unfold advance. simpl. rewrite Ep.
  rewrite pullToken_onto by exact Ht. rewrite skipNewlines_cases.
  unfold shifted. simpl.
  destruct Hs as [Hs|Hs].
  - unfold prevType, curType in *. simpl. now rewrite Hs.
  - destruct (skipsNewlinesAfter _); [|reflexivity].
    now apply consumeNewlines_idle.
Qed.

Lemma advance_at_end c :
  parser.pending (p c) = [] ->
  advance c = shifted c (parser.eofToken (p c)) [].
Proof.
  intros Ep. destruct c as [[pr cu pe el] ch he pm se]. simpl in Ep. subst pe.
  unfold advance, shifted, setP, skipNewlines, prevType. simpl.
  destruct (parser.Type_ cu); reflexivity.
Qed.

Lemma quiet_trans a b c : quiet a b -> quiet b c -> quiet a c.
Proof.
  intros (H1 & H2 & H3) (G1 & G2 & G3). repeat split; congruence.
Qed.

Lemma quiet_skipNewlines c : quiet c (skipNewlines c).
Proof.
  rewrite skipNewlines_cases. destruct (skipsNewlinesAfter _);
    [apply quiet_consumeNewlines | apply quiet_refl].
Qed.

(** X4: where a line break is insignificant it is skipped, elsewhere it
    is a token: after [advance] consumed a newline, brace, semicolon or
    dot, the current token is never a newline; after any other token the
    next token, a newline included, becomes the current one and nothing
    more is consumed. *)
Theorem advance_newline_skipping (c : Compiler) :
  (skipsNewlinesAfter (curType c) = true ->
   curType (advance c) <> parser.Newline) /\
  (skipsNewlinesAfter (curType c) = false ->
   forall t ts, parser.pending (p c) = t :: ts ->
     parser.Type_ t <> parser.Error ->
     advance c = shifted c t ts).
Proof.
  split.
  - intros H. unfold advance. rewrite skipNewlines_cases, prevType_pull.
    unfold prevType at 1. simpl. unfold curType in H. rewrite H.
    apply consumeNewlines_stops.
  - intros H t ts Ep Ht. apply advance_onto; auto.
Qed.

Lemma advance_newline_skipping_witness :
  curType (advance
    (mkCompiler (parser.mkParser (tok parser.Number "1")
                   (tok parser.Semicolon ";")
                   [tok parser.Newline ""; tok parser.Newline "";
                    tok parser.Number "2"] 1)
                NewChunk false false []))
  <> parser.Newline.
Proof.
  apply (proj1 (advance_newline_skipping
    (mkCompiler (parser.mkParser (tok parser.Number "1")
                   (tok parser.Semicolon ";")
                   [tok parser.Newline ""; tok parser.Newline "";
                    tok parser.Number "2"] 1)
                NewChunk false false []))).
  reflexivity.
Defined.

(** X5: an [Error] token that [advance] pulls is reported with its lexeme
    as the message, at that token; without an [Error] token next in the
    source, [advance] reports nothing; and [advance] leaves an [Error]
    token as the current one only behind newlines it skipped. *)
Theorem advance_reports_Error_token (c : Compiler) :
  (forall t ts,
     parser.pending (p c) = t :: ts -> parser.Type_ t = parser.Error ->
     panicMode c = false ->
     stderr (advance c) = stderr c ++ [diagnostic t (parser.Lexeme t)] /\
     hadError (advance c) = true /\ panicMode (advance c) = true) /\
  ((forall t ts, parser.pending (p c) = t :: ts ->
      parser.Type_ t <> parser.Error) ->
   quiet c (advance c)) /\
  (curType (advance c) = parser.Error ->
   skipsNewlinesAfter (curType c) = true).
Proof.
  split; [|split].
  - intros t ts Ep Et Hp. unfold advance. simpl. rewrite Ep.
    cbn [pullToken]. rewrite Et.
    match goal with |- context [pullToken ts ?c1] => set (c0 := c1) end.
    assert (H0 : panicMode c0 = true /\ hadError c0 = true /\
                 stderr c0 = stderr c ++ [diagnostic t (parser.Lexeme t)]).
    { unfold c0, errorAtCurrent, errorAt. simpl. rewrite Hp. simpl. auto. }
    destruct H0 as (H1 & H2 & H3).
    assert (Hq : quiet c0 (skipNewlines (pullToken ts c0))).
    { apply diagStep_panic; [exact H1|].
      eapply diagStep_trans; [apply diagStep_pull|].
      rewrite skipNewlines_cases. destruct (skipsNewlinesAfter _);
        auto with diag. }
    destruct Hq as (Q1 & Q2 & Q3). rewrite Q1, Q2, Q3. auto.
  - intros H. unfold advance.
    eapply quiet_trans; [|apply quiet_skipNewlines].
    simpl. destruct (parser.pending (p c)) as [|t ts] eqn:Ep.
    + simpl. now destruct (parser.NextToken _).
    + rewrite pullToken_onto by (eapply H; eauto). repeat split.
  - intros H. destruct (skipsNewlinesAfter (curType c)) eqn:E; [reflexivity|].
    exfalso. revert H. unfold advance. rewrite skipNewlines_cases, prevType_pull.
    unfold prevType at 1. simpl. unfold curType in E. rewrite E.
    now apply pullToken_not_Error.
Qed.

Lemma advance_reports_Error_token_witness :
  stderr (advance (fresh [tok parser.Error "Unexpected character."]))
  = [] ++ [diagnostic (tok parser.Error "Unexpected character.")
                      "Unexpected character."].
Proof.
  apply (proj1 (advance_reports_Error_token
                  (fresh [tok parser.Error "Unexpected character."]))
           (tok parser.Error "Unexpected character.") []);
    reflexivity.
Defined.

(* ================================================================== *)
(** ** Reading the source to its end *)

Lemma pullToken_endIsLast ts : forall c,
  parser.pending (p c) = ts ->
  Forall (fun t => parser.Type_ t <> parser.Eof) ts ->
  endIsLast (pullToken ts c).
Proof.
  induction ts as [|t ts IH]; intros c E H; simpl.
  - unfold parser.NextToken. rewrite E. unfold endIsLast, curType. simpl.
    rewrite E. auto.
  - inversion H as [|? ? Ht Hts]; subst.
    destruct (parser.Type_ t) eqn:Et;
      try (unfold endIsLast, curType; simpl; split; [exact Hts|congruence]).
    apply IH; auto. unfold errorAtCurrent, errorAt. now destruct (panicMode _).
Qed.

Lemma consumeNewlinesFrom_endIsLast eof : parser.Type_ eof = parser.Eof ->
  forall ts cur,
  Forall (fun t => parser.Type_ t <> parser.Eof) ts ->
  (parser.Type_ cur = parser.Eof -> ts = []) ->
  Forall (fun t => parser.Type_ t <> parser.Eof)
         (snd (consumeNewlinesFrom cur ts eof)) /\
  (parser.Type_ (fst (consumeNewlinesFrom cur ts eof)) = parser.Eof ->
   snd (consumeNewlinesFrom cur ts eof) = []).
Proof.
  intros He. induction ts as [|t ts IH]; intros cur H Hc; simpl.
  - destruct (parser.Type_ cur); simpl; auto.
  - inversion H as [|? ? Ht Hts]; subst.
    destruct (parser.Type_ cur) eqn:Ec; simpl;
      try (split; [exact H | intros; congruence]).
    + split; [exact H | intros _; now apply Hc].
    + apply IH; auto. intros; contradiction.
Qed.

Lemma keepsEnd_consumeNewlines c : keepsEnd c (consumeNewlines c).
Proof.
  intros [H1 H2]. unfold consumeNewlines, endIsLast, curType in *.
  pose proof (consumeNewlinesFrom_endIsLast (parser.eofToken (p c)) eq_refl
                _ _ H1 H2) as H.
  now destruct (consumeNewlinesFrom _ _ _).
Qed.

Lemma keepsEnd_refl c : keepsEnd c c.
Proof. unfold keepsEnd; auto. Qed.

Lemma keepsEnd_trans a b c : keepsEnd a b -> keepsEnd b c -> keepsEnd a c.
Proof. unfold keepsEnd; auto. Qed.

Lemma keepsEnd_setPrevious c :
  keepsEnd c (setP (parser.SetPrevious (parser.Current (p c)) (p c)) c).
Proof. intros H; exact H. Qed.

Lemma keepsEnd_pull c : keepsEnd c (pullToken (parser.pending (p c)) c).
Proof. intros [H _]. now apply pullToken_endIsLast. Qed.

Lemma keepsEnd_errorAt t m c : keepsEnd c (errorAt t m c).
Proof. unfold keepsEnd, errorAt. now destruct (panicMode c). Qed.

Lemma keepsEnd_emitOpCode o c : keepsEnd c (emitOpCode o c).
Proof. intros H; exact H. Qed.

Lemma keepsEnd_emitConstant v c : keepsEnd c (emitConstant v c).
Proof. intros H; exact H. Qed.

Ltac keeps_end lem :=
  intros; eapply lem;
  eauto using keepsEnd_refl, keepsEnd_trans, keepsEnd_setPrevious,
    keepsEnd_pull, keepsEnd_consumeNewlines, keepsEnd_errorAt,
    keepsEnd_emitOpCode, keepsEnd_emitConstant.

Lemma keepsEnd_declaration PF rules fuel :
  respects keepsEnd (declaration PF rules fuel).
Proof. keeps_end respects_declaration. Qed.

Lemma keepsEnd_skipLeading fuel : respects keepsEnd (skipLeading fuel).
Proof. keeps_end respects_skipLeading. Qed.

(** The first [advance] puts the source in order, whatever the token slots
    held. *)
Lemma advance_endIsLast c :
  Forall (fun t => parser.Type_ t <> parser.Eof) (parser.pending (p c)) ->
  endIsLast (advance c).
Proof.
  intros H. unfold advance. rewrite skipNewlines_cases.
  assert (G : endIsLast (pullToken
    (parser.pending (p (setP (parser.SetPrevious (parser.Current (p c)) (p c)) c)))
    (setP (parser.SetPrevious (parser.Current (p c)) (p c)) c)))
    by (now apply pullToken_endIsLast).
  destruct (skipsNewlinesAfter _); [now apply keepsEnd_consumeNewlines | exact G].
Qed.

Lemma declarations_exit PF rules fuel : forall c c',
  endIsLast c -> declarations PF rules fuel c = Ok tt c' ->
  parser.pending (p c') = [] /\ curType c' = parser.Eof /\
  prevType c' = parser.Eof.
Proof.
  induction fuel as [|n IH]; intros c c' Hc H; [discriminate|].
  cbn [declarations] in H. unfold match_ in H.
  rewrite check_plain in H by discriminate.
  destruct (parser.eqb (curType c) parser.Eof) eqn:E; simpl in H.
  - apply eqb_true_iff in E. inversion H; subst.
    rewrite advance_at_end by (now apply Hc).
    unfold shifted, curType, prevType in *. simpl. auto.
  - apply bind_Ok in H as ([] & c1 & H1 & H2).
    eapply IH; [|exact H2]. eapply keepsEnd_declaration; eauto.
Qed.

(** X6: when the tokenizer delivers end-of-input only at the end, a
    compilation that returns has read the whole source: no token is
    pending and the current and the previous token are end-of-input. *)
Theorem Compile_reads_whole_source
    (PF : string -> option spec_float)
    (rules : parser.TokenType -> ParseRule)
    (fuel : nat) (init : parser.Token) (tokens : list parser.Token) (eol : Z)
    (r : option Chunk) (c' : Compiler) :
  Forall (fun t => parser.Type_ t <> parser.Eof) tokens ->
  Compile PF rules fuel (NewCompiler init tokens eol) = Ok r c' ->
  parser.pending (p c') = [] /\ curType c' = parser.Eof /\
  prevType c' = parser.Eof.
Proof.
  intros Ht H. apply Compile_Ok in H as (c1 & H1 & H2 & _).
  assert (Ep : p c' = p c1).
  { pose proof (patchLastPop_spec c1) as Hs. rewrite H2 in Hs.
    destruct Hs as (bs & b & _ & ->). now destruct (b =? _). }
  unfold curType, prevType. rewrite Ep.
  unfold compileLoops in H1. apply bind_Ok in H1 as ([] & c0 & H0 & H1).
  eapply declarations_exit; [|exact H1].
  destruct fuel as [|n]; [discriminate|]. cbn [skipLeading] in H0.
  assert (Ha : endIsLast (advance (NewCompiler init tokens eol)))
    by (now apply advance_endIsLast).
  destruct (negb _); [now inversion H0; subst|].
  eapply keepsEnd_skipLeading; eauto.
Qed.

Lemma Compile_reads_whole_source_witness :
  exists r c',
    Compile parseDigits specRules 10 (fresh onePlusOne) = Ok r c' /\
    parser.pending (p c') = [] /\ curType c' = parser.Eof /\
    prevType c' = parser.Eof.
Proof.
  eexists; eexists. split; [vm_compute; reflexivity|].
  eapply (Compile_reads_whole_source parseDigits specRules 10
            (tok parser.Eof "") onePlusOne 1).
  - repeat constructor; discriminate.
  - vm_compute; reflexivity.
Defined.

(* ================================================================== *)
(** ** Moving forward over the source *)

Lemma movedForward_refl c : movedForward c c.
Proof. now exists []. Qed.

Lemma movedForward_trans a b c :
  movedForward a b -> movedForward b c -> movedForward a c.
Proof.
  intros (k1 & H1 & E1) (k2 & H2 & E2). exists (k1 ++ k2).
  rewrite H1, H2, app_assoc. split; congruence.
Qed.

Lemma movedForward_errorAt t m c : movedForward c (errorAt t m c).
Proof. unfold errorAt. destruct (panicMode c); now exists []. Qed.

Lemma pullToken_forward ts : forall c,
  parser.pending (p c) = ts ->
  exists consumed,
    ts = consumed ++ parser.pending (p (pullToken ts c)) /\
    parser.endLine (p (pullToken ts c)) = parser.endLine (p c) /\
    (ts <> [] -> consumed <> []).
Proof.
  induction ts as [|t ts IH]; intros c E; simpl.
  - unfold parser.NextToken. rewrite E. simpl. exists []. rewrite E. auto.
  - assert (G : exists consumed,
      t :: ts = consumed ++ ts /\ (t :: ts <> [] -> consumed <> []))
      by (exists [t]; split; [reflexivity | discriminate]).
    destruct (parser.Type_ t);
      try (destruct G as (k & G1 & G2); exists k; simpl; now auto).
    destruct (IH (errorAtCurrent (parser.Lexeme t)
                (setP (parser.mkParser (parser.previous (p c)) t ts
                         (parser.endLine (p c))) c)))
      as (k & H1 & H2 & _).
    { unfold errorAtCurrent, errorAt. now destruct (panicMode _). }
    exists (t :: k). simpl. rewrite <- H1. split; [reflexivity|].
    split; [|discriminate]. rewrite H2.
    unfold errorAtCurrent, errorAt. now destruct (panicMode _).
Qed.

Lemma movedForward_pull c :
  movedForward c (pullToken (parser.pending (p c)) c).
Proof.
  destruct (pullToken_forward _ c eq_refl) as (k & H1 & H2 & _).
  exists k. auto.
Qed.

Lemma consumeNewlinesFrom_forward eof : forall ts cur,
  exists consumed, ts = consumed ++ snd (consumeNewlinesFrom cur ts eof).
Proof.
  induction ts as [|t ts IH]; intros cur; simpl.
  - exists []. now destruct (parser.Type_ cur).
  - destruct (parser.Type_ cur); try (now exists []).
    destruct (IH t) as [k Hk]. exists (t :: k). simpl. now rewrite <- Hk.
Qed.

Lemma movedForward_consumeNewlines c : movedForward c (consumeNewlines c).
Proof.
  unfold consumeNewlines, movedForward.
  destruct (consumeNewlinesFrom_forward (parser.eofToken (p c))
              (parser.pending (p c)) (parser.current (p c))) as [k Hk].
  destruct (consumeNewlinesFrom _ _ _); simpl in *. now exists k.
Qed.

Lemma movedForward_same_p c c' :
  parser.pending (p c') = parser.pending (p c) ->
  parser.endLine (p c') = parser.endLine (p c) -> movedForward c c'.
Proof. intros E1 E2. exists []. now rewrite E1. Qed.

Ltac forward lem :=
  intros; eapply lem;
  eauto using movedForward_refl, movedForward_trans, movedForward_pull,
    movedForward_consumeNewlines, movedForward_errorAt;
  intros; now apply movedForward_same_p.

Lemma movedForward_advance c : movedForward c (advance c).
Proof. forward R_advance. Qed.

Lemma movedForward_parsePrecedence PF rules fuel l :
  respects movedForward (parsePrecedence PF rules fuel l).
Proof. forward respects_parsePrecedence. Qed.

Lemma movedForward_declaration PF rules fuel :
  respects movedForward (declaration PF rules fuel).
Proof. forward respects_declaration. Qed.

Lemma movedForward_skipLeading fuel : respects movedForward (skipLeading fuel).
Proof. forward respects_skipLeading. Qed.

Lemma movedForward_declarations PF rules fuel :
  respects movedForward (declarations PF rules fuel).
Proof. forward respects_declarations. Qed.

Lemma advance_consumes c :
  parser.pending (p c) <> [] ->
  (List.length (parser.pending (p (advance c)))
     < List.length (parser.pending (p c)))%nat.
Proof.
  intros Hne. unfold advance.
  set (c1 := setP (parser.SetPrevious (parser.Current (p c)) (p c)) c).
  assert (E1 : parser.pending (p c1) = parser.pending (p c)) by reflexivity.
  destruct (pullToken_forward _ c1 eq_refl) as (k & H1 & _ & H3).
  assert (Hs : movedForward (pullToken (parser.pending (p c1)) c1)
                 (skipNewlines (pullToken (parser.pending (p c1)) c1))).
  { rewrite skipNewlines_cases. destruct (skipsNewlinesAfter _);
      [apply movedForward_consumeNewlines | apply movedForward_refl]. }
  destruct Hs as (k2 & H4 & _).
  rewrite E1 in *. specialize (H3 Hne).
  rewrite H1 at 2. rewrite H4, !length_app.
  destruct k; [congruence | simpl; lia].
Qed.

(** X7: the compiler only moves forward over the source: after every
    method the pending tokens are a suffix of the pending tokens before
    it, and [advance] takes at least one pending token when there is
    one. *)
Theorem tokens_consumed_in_order
    (PF : string -> option spec_float)
    (rules : parser.TokenType -> ParseRule) :
  (forall c, movedForward c (advance c)) /\
  (forall c, parser.pending (p c) <> [] ->
     (List.length (parser.pending (p (advance c)))
        < List.length (parser.pending (p c)))%nat) /\
  (forall fuel l c c',
     parsePrecedence PF rules fuel l c = Ok tt c' -> movedForward c c') /\
  (forall fuel c c',
     declaration PF rules fuel c = Ok tt c' -> movedForward c c') /\
  (forall fuel c r c',
     Compile PF rules fuel c = Ok r c' -> movedForward c c').
Proof.
  split; [exact movedForward_advance|].
  split; [exact advance_consumes|].
  split; [intros; eapply movedForward_parsePrecedence; eauto|].
  split; [intros; eapply movedForward_declaration; eauto|].
  intros fuel c r c' H. apply Compile_Ok in H as (c1 & H1 & H2 & _).
  unfold compileLoops in H1. apply bind_Ok in H1 as ([] & c0 & H0 & H1).
  eapply movedForward_trans; [eapply movedForward_skipLeading; eauto|].
  eapply movedForward_trans; [eapply movedForward_declarations; eauto|].
  pose proof (patchLastPop_spec c1) as Hs. rewrite H2 in Hs.
  destruct Hs as (bs & b & _ & ->).
  apply movedForward_same_p; now destruct (b =? _).
Qed.

Lemma tokens_consumed_in_order_witness :
  (List.length (parser.pending (p (advance (fresh onePlusOne))))
     < List.length (parser.pending (p (fresh onePlusOne))))%nat.
Proof.
  apply (proj1 (proj2 (tokens_consumed_in_order parseDigits specRules))).
  discriminate.
Defined.

(* ================================================================== *)
(** ** The chunk only grows *)

Lemma appended_refl c : appended c c.
Proof. exists [], []. now rewrite !app_nil_r. Qed.

Lemma appended_trans a b c : appended a b -> appended b c -> appended a c.
Proof.
  intros (b1 & v1 & H1 & G1) (b2 & v2 & H2 & G2).
  exists (b1 ++ b2), (v1 ++ v2). rewrite H2, G2, H1, G1, !app_assoc. auto.
Qed.

Lemma appended_same c c' : chunk c' = chunk c -> appended c c'.
Proof. intros E. exists [], []. now rewrite E, !app_nil_r. Qed.

Lemma appended_emitOpCode o c : appended c (emitOpCode o c).
Proof. exists [OpCode.uint8 o], []. simpl. now rewrite app_nil_r. Qed.

Lemma appended_emitConstant v c : appended c (emitConstant v c).
Proof.
  rewrite emitConstant_bytes. simpl. eexists; eexists; split; reflexivity.
Qed.

Ltac appends lem :=
  intros; eapply lem;
  eauto using appended_refl, appended_trans, appended_emitOpCode,
    appended_emitConstant;
  intros; apply appended_same;
  first [ reflexivity | apply sameChunk_pull | apply sameChunk_consumeNewlines
        | apply sameChunk_errorAt ].

Lemma appended_parsePrecedence PF rules fuel l :
  respects appended (parsePrecedence PF rules fuel l).
Proof. appends respects_parsePrecedence. Qed.

Lemma appended_declaration PF rules fuel :
  respects appended (declaration PF rules fuel).
Proof. appends respects_declaration. Qed.

Lemma appended_declarations PF rules fuel :
  respects appended (declarations PF rules fuel).
Proof. appends respects_declarations. Qed.

(** X8: emitted code and constants are never changed or removed while
    statements are compiled: after [parsePrecedence], a declaration or the
    whole declaration loop the code and the constant pool are those from
    before with something added at the end; a declaration adds at least
    one byte. *)
Theorem chunk_append_only
    (PF : string -> option spec_float)
    (rules : parser.TokenType -> ParseRule) :
  (forall fuel l c c',
     parsePrecedence PF rules fuel l c = Ok tt c' -> appended c c') /\
  (forall fuel c c',
     declaration PF rules fuel c = Ok tt c' ->
     appended c c' /\
     (List.length (code (chunk c)) < List.length (code (chunk c')))%nat) /\
  (forall fuel c c',
     compileLoops PF rules fuel c = Ok tt c' -> appended c c').
Proof.
  split; [intros; eapply appended_parsePrecedence; eauto|].
  split.
  - intros fuel c c' H. split; [eapply appended_declaration; eauto|].
    revert H. unfold declaration, statement.
    pose proof (chunk_match parser.Return c) as Hm.
    destruct (match_ parser.Return c) as [m c1]; simpl in Hm.
    rewrite <- Hm. clear Hm.
    assert (Hk : forall (k : M unit) o c2,
      (forall a b, k a = Ok tt b -> chunk b = chunk a) ->
      (expression PF rules fuel ;; lift (emitOpCode o) ;; k) c1 = Ok tt c2 ->
      (List.length (code (chunk c1)) < List.length (code (chunk c2)))%nat).
    { intros k o c2 Hk H.
      apply bind_Ok in H as ([] & c3 & H3 & H).
      apply bind_Ok in H as ([] & c4 & H4 & H).
      inversion H4; subst. apply Hk in H. rewrite H.
      apply appended_parsePrecedence in H3 as (bs & vs & E & _).
      simpl. rewrite E, !length_app. simpl. lia. }
    destruct m.
    + unfold returnStatement.
      pose proof (chunk_match parser.Newline c1) as Hm.
      destruct (match_ parser.Newline c1) as [m2 c2]; simpl in Hm.
      destruct m2.
      * intros H; inversion H; subst. simpl. rewrite Hm, !length_app.
        simpl. lia.
      * rewrite <- Hm. clear Hm c1 Hk. intros H.
        apply bind_Ok in H as ([] & c3 & H3 & H).
        apply bind_Ok in H as ([] & c4 & H4 & H).
        inversion H4; subst.
        assert (E4 : chunk c' = chunk (emitOpCode OpCode.Return c3)).
        { destruct (negb _); inversion H; subst; auto. apply chunk_expect. }
        rewrite E4.
        apply appended_parsePrecedence in H3 as (bs & vs & E & _).
        simpl. rewrite E, !length_app. simpl. lia.
    + apply Hk. intros a b Hab; inversion Hab; subst. apply chunk_expect.
  - intros fuel c c' H. unfold compileLoops in H.
    apply bind_Ok in H as ([] & c0 & H0 & H1).
    apply chunk_skipLeading in H0.
    eapply appended_trans; [apply appended_same; exact H0|].
    eapply appended_declarations; eauto.
Qed.

Lemma chunk_append_only_witness :
  exists c',
    declaration parseDigits specRules 10 (ahead (tok parser.Number "1") [])
      = Ok tt c' /\
    appended (ahead (tok parser.Number "1") []) c' /\
    (List.length (code (chunk (ahead (tok parser.Number "1") [])))
       < List.length (code (chunk c')))%nat.
Proof.
  eexists. split; [vm_compute; reflexivity|].
  eapply (proj1 (proj2 (chunk_append_only parseDigits specRules)) 10%nat).
  vm_compute; reflexivity.
Defined.

(* ================================================================== *)
(** ** The code as instructions *)

Lemma encode_app a b : encode (a ++ b) = encode a ++ encode b.
Proof. apply flat_map_app. Qed.

Lemma constRefs_app a b : constRefs (a ++ b) = constRefs a ++ constRefs b.
Proof.
  induction a as [|[o|i] a IH]; simpl; auto. now rewrite IH.
Qed.

Lemma addsInstrs_refl c : addsInstrs c c.
Proof. intros ins H. exists []. now rewrite app_nil_r. Qed.

Lemma addsInstrs_trans a b c :
  addsInstrs a b -> addsInstrs b c -> addsInstrs a c.
Proof.
  intros H1 H2 ins H. destruct (H1 ins H) as [m1 G1].
  destruct (H2 _ G1) as [m2 G2]. exists (m1 ++ m2). now rewrite app_assoc.
Qed.

Lemma addsInstrs_same c c' : chunk c' = chunk c -> addsInstrs c c'.
Proof. intros E ins H. exists []. now rewrite E, app_nil_r. Qed.

Lemma decodes_emitOpCode o c ins :
  o <> OpCode.Constant -> decodes (chunk c) ins ->
  decodes (chunk (emitOpCode o c)) (ins ++ [IOp o]).
Proof.
  intros Ho (H1 & H2 & H3). unfold decodes. simpl.
  rewrite encode_app, constRefs_app, H1, H3. simpl. rewrite app_nil_r.
  repeat split; auto. apply Forall_app. split; auto.
Qed.

Lemma decodes_emitConstant v c ins :
  decodes (chunk c) ins ->
  decodes (chunk (emitConstant v c))
    (ins ++ [IConst (indexOf (List.length (constants (chunk c))))]).
Proof.
  intros (H1 & H2 & H3). rewrite emitConstant_bytes. unfold decodes. simpl.
  rewrite encode_app, constRefs_app, H1, H3, length_app. simpl.
  rewrite Nat.add_1_r, seq_S, map_app. simpl.
  rewrite ?app_nil_r. repeat split; auto.
  apply Forall_app. split; auto. repeat constructor.
Qed.

Lemma addsInstrs_emitOpCode o c :
  o <> OpCode.Constant -> addsInstrs c (emitOpCode o c).
Proof. intros Ho ins H. exists [IOp o]. now apply decodes_emitOpCode. Qed.

Lemma addsInstrs_emitConstant v c : addsInstrs c (emitConstant v c).
Proof. intros ins H. eexists. now apply decodes_emitConstant. Qed.

Ltac adds_instrs lem :=
  intros; eapply lem;
  eauto using addsInstrs_refl, addsInstrs_trans, addsInstrs_emitOpCode,
    addsInstrs_emitConstant;
  intros; apply addsInstrs_same;
  first [ reflexivity | apply sameChunk_pull | apply sameChunk_consumeNewlines
        | apply sameChunk_errorAt ].

Lemma addsInstrs_parsePrecedence PF rules fuel l :
  respects addsInstrs (parsePrecedence PF rules fuel l).
Proof. adds_instrs respects_parsePrecedence. Qed.

Lemma addsInstrs_declaration PF rules fuel :
  respects addsInstrs (declaration PF rules fuel).
Proof. adds_instrs respects_declaration. Qed.

Lemma addsInstrs_declarations PF rules fuel :
  respects addsInstrs (declarations PF rules fuel).
Proof. adds_instrs respects_declarations. Qed.

Lemma constRefs_In index ins : In (IConst index) ins -> In index (constRefs ins).
Proof.
  induction ins as [|[o|i] ins IH]; simpl; intros H; auto.
  - destruct H as [H|H]; [discriminate | auto].
  - destruct H as [H|H]; [inversion H; auto | auto].
Qed.

Lemma decodes_inPool ch ins :
  decodes ch ins -> Forall (inPool (List.length (constants ch))) ins.
Proof.
  intros (_ & _ & H). apply Forall_forall. intros [o|index] Hin; simpl; auto.
  apply constRefs_In in Hin. rewrite H in Hin.
  apply in_map_iff in Hin as (k & <- & Hk). apply in_seq in Hk.
  unfold indexOf. pose proof (Z.mod_pos_bound (Z.of_nat k) 65536 ltac:(lia)).
  pose proof (Z.mod_le (Z.of_nat k) 65536 ltac:(lia) ltac:(lia)). lia.
Qed.

Lemma expression_then_instr PF rules fuel o (k : M unit) c c' ins :
  o <> OpCode.Constant ->
  (forall a b, k a = Ok tt b -> chunk b = chunk a) ->
  decodes (chunk c) ins ->
  (expression PF rules fuel ;; lift (emitOpCode o) ;; k) c = Ok tt c' ->
  exists more, decodes (chunk c') (ins ++ more ++ [IOp o]).
Proof.
  intros Ho Hk Hd H.
  apply bind_Ok in H as ([] & c1 & H1 & H).
  apply bind_Ok in H as ([] & c2 & H2 & H).
  inversion H2; subst. apply Hk in H. rewrite H.
  apply addsInstrs_parsePrecedence in H1. destruct (H1 ins Hd) as [more Hm].
  exists more. rewrite app_assoc. now apply decodes_emitOpCode.
Qed.

Lemma declaration_last_instr PF rules fuel c c' ins :
  decodes (chunk c) ins ->
  declaration PF rules fuel c = Ok tt c' ->
  exists more o,
    decodes (chunk c') (ins ++ more ++ [IOp o]) /\
    (o = OpCode.Pop \/ o = OpCode.Return).
Proof.
  intros Hd. unfold declaration, statement.
  pose proof (chunk_match parser.Return c) as Hm.
  destruct (match_ parser.Return c) as [m c1]; simpl in Hm.
  rewrite <- Hm in Hd. clear Hm. destruct m.
  - unfold returnStatement.
    pose proof (chunk_match parser.Newline c1) as Hm.
    destruct (match_ parser.Newline c1) as [m2 c2]; simpl in Hm.
    rewrite <- Hm in Hd. clear Hm. destruct m2.
    + intros H; inversion H; subst.
      exists [IOp OpCode.Nil], OpCode.Return. split; [|now right].
      rewrite app_assoc. unfold emitReturn.
      apply decodes_emitOpCode; [discriminate|].
      apply decodes_emitOpCode; [discriminate | exact Hd].
    + intros H. eapply expression_then_instr in H as [more Hmore];
        [| discriminate | | exact Hd].
      * exists more, OpCode.Return. auto.
      * intros a b. destruct (negb _); intros Hab; inversion Hab; subst; auto.
        apply chunk_expect.
  - intros H. eapply expression_then_instr in H as [more Hmore];
      [| discriminate | | exact Hd].
    + exists more, OpCode.Pop. auto.
    + intros a b Hab; inversion Hab; subst. apply chunk_expect.
Qed.

Lemma declarations_last_instr PF rules fuel : forall c c' ins,
  decodes (chunk c) ins ->
  declarations PF rules fuel c = Ok tt c' ->
  chunk c' = chunk c \/
  exists more o,
    decodes (chunk c') (ins ++ more ++ [IOp o]) /\
    (o = OpCode.Pop \/ o = OpCode.Return).
Proof.
  induction fuel as [|n IH]; intros c c' ins Hd H; [discriminate|].
  cbn [declarations] in H.
  pose proof (chunk_match parser.Eof c) as Hm.
  destruct (match_ parser.Eof c) as [m c1]; simpl in Hm. destruct m.
  - inversion H; subst; auto.
  - right. rewrite <- Hm in Hd.
    apply bind_Ok in H as ([] & c2 & H1 & H2).
    destruct (declaration_last_instr _ _ _ _ _ _ Hd H1)
      as (more & o & Hd2 & Ho).
    destruct (IH _ _ _ Hd2 H2) as [E|(more2 & o2 & Hd3 & Ho2)].
    + rewrite E. eauto.
    + exists (more ++ [IOp o] ++ more2), o2. split; [|exact Ho2].
      now rewrite <- !app_assoc in *.
Qed.

(** X9: the chunk of a compilation that returns is well-formed bytecode:
    its code is a sequence of whole instructions that ends in Return,
    every Constant operand addresses a slot of the constant pool, and the
    Constant instructions refer to the constants one after the other, each
    once.  A chunk that is returned is this chunk. *)
Theorem Compile_chunk_decodes
    (PF : string -> option spec_float)
    (rules : parser.TokenType -> ParseRule)
    (fuel : nat) (init : parser.Token) (tokens : list parser.Token) (eol : Z)
    (r : option Chunk) (c' : Compiler) :
  Compile PF rules fuel (NewCompiler init tokens eol) = Ok r c' ->
  exists ins,
    decodes (chunk c') (ins ++ [IOp OpCode.Return]) /\
    Forall (inPool (List.length (constants (chunk c')))) ins /\
    (forall ch, r = Some ch -> ch = chunk c').
Proof.
  intros H. apply Compile_Ok in H as (c1 & H1 & H2 & Hr).
  assert (Hret : forall ch, r = Some ch -> ch = chunk c').
  { intros ch E. rewrite Hr in E. destruct (hadError c'); congruence. }
  unfold compileLoops in H1. apply bind_Ok in H1 as ([] & c0 & H0 & H1).
  apply chunk_skipLeading in H0.
  assert (Hd0 : decodes (chunk c0) []) by (rewrite H0; repeat split; auto).
  pose proof (patchLastPop_spec c1) as Hs. rewrite H2 in Hs.
  destruct Hs as (bs & b & E & ->).
  destruct (declarations_last_instr _ _ _ _ _ _ Hd0 H1)
    as [Ec|(more & o & Hd & Ho)].
  { exfalso. rewrite Ec, H0 in E. simpl in E. now destruct bs. }
  simpl in Hd.
  assert (Hfin : decodes
    (chunk (if b =? OpCode.uint8 OpCode.Pop
            then setChunk (mkChunk (bs ++ [OpCode.uint8 OpCode.Return])
                                   (constants (chunk c1))) c1
            else c1)) (more ++ [IOp OpCode.Return])).
  { destruct Hd as (D1 & D2 & D3).
    rewrite encode_app in D1. simpl in D1. rewrite E in D1.
    apply app_inj_tail in D1 as [-> ->].
    rewrite constRefs_app in D3. simpl in D3.
    apply Forall_app in D2 as [D2 _].
    destruct Ho as [-> | ->]; simpl.
    - unfold decodes. simpl. rewrite encode_app, constRefs_app. simpl.
      repeat split; auto. apply Forall_app; split; auto.
      repeat constructor; discriminate.
    - unfold decodes. rewrite encode_app, constRefs_app, E. simpl.
      repeat split; auto. apply Forall_app; split; auto.
      repeat constructor; discriminate. }
  exists more. split; [exact Hfin|]. split; [|exact Hret].
  apply decodes_inPool in Hfin. now apply Forall_app in Hfin as [Hfin _].
Qed.

Lemma Compile_chunk_decodes_witness :
  exists r c' ins,
    Compile parseDigits specRules 10 (fresh onePlusOne) = Ok r c' /\
    decodes (chunk c') (ins ++ [IOp OpCode.Return]) /\
    Forall (inPool (List.length (constants (chunk c')))) ins.
Proof.
  destruct (Compile parseDigits specRules 10 (fresh onePlusOne))
    as [r c'| |] eqn:E; try (vm_compute in E; discriminate E).
  destruct (Compile_chunk_decodes parseDigits specRules 10
              (tok parser.Eof "") onePlusOne 1 r c' E) as (ins & H1 & H2 & _).
  exists r, c', ins. auto.
Defined.

(* ================================================================== *)
(** ** Where [parsePrecedence] stops *)

Lemma infixLoop_exit PF rules pp k : forall l canAssign c c',
  infixLoop PF rules pp k l canAssign c = Ok tt c' ->
  (precedence (rules (curType c')) <= l)%nat.
Proof.
  induction k as [|k IH]; intros l canAssign c c' H; [discriminate|].
  cbn [infixLoop] in H.
  destruct (l <? precedence (rules (curType c)))%nat eqn:E.
  - apply bind_Ok in H as ([] & c1 & _ & H). eapply IH; eauto.
  - inversion H; subst. now apply Nat.ltb_ge in E.
Qed.

Lemma specRules_binary_level t o :
  binaryOpCode t = Some o ->
  (PrecedenceAssignment < precedence (specRules t))%nat /\
  infix (specRules t) = Some fn_binary.
Proof.
  destruct t; simpl; intros H; try discriminate H;
    unfold PrecedenceAssignment, PrecedenceTerm, PrecedenceFactor,
      PrecedenceExponent, PrecedenceEquality, PrecedenceComparison;
    split; auto; lia.
Qed.

(** X10: [parsePrecedence] keeps climbing as long as it can: when it
    returns from a token that has a prefix rule, at a level of Assignment
    or above, the token ahead binds no tighter than that level; so with
    the table of the spec an expression never stops in front of a binary
    operator. *)
Theorem parsePrecedence_stops_at_level
    (PF : string -> option spec_float)
    (rules : parser.TokenType -> ParseRule)
    (fuel : nat) (l : Precedence) (c c' : Compiler) :
  parsePrecedence PF rules fuel l c = Ok tt c' ->
  prefix (rules (curType c)) <> None ->
  (PrecedenceAssignment <= l)%nat ->
  (precedence (rules (curType c')) <= l)%nat /\
  (rules = specRules -> l = PrecedenceAssignment ->
   binaryOpCode (curType c') = None).
Proof.
  intros H Hp Hl.
  assert (G : (precedence (rules (curType c')) <= l)%nat).
  { destruct fuel as [|n]; [discriminate|].
    cbn [parsePrecedence] in H. unfold parsePrecedenceWith in H.
    rewrite prevType_advance in H.
    destruct (prefix (rules (curType c))) as [fn|]; [|congruence].
    apply bind_Ok in H as ([] & c1 & _ & H).
    apply bind_Ok in H as ([] & c2 & H2 & H).
    apply infixLoop_exit in H2.
    replace (l <? PrecedenceAssignment)%nat with false in H
      by (symmetry; now apply Nat.ltb_ge).
    now inversion H; subst. }
  split; [exact G|].
  intros -> ->. destruct (binaryOpCode (curType c')) as [o|] eqn:E; auto.
  apply specRules_binary_level in E as [E _]. lia.
Qed.

Lemma parsePrecedence_stops_at_level_witness :
  exists c',
    parsePrecedence parseDigits specRules 10 PrecedenceAssignment
      (ahead (tok parser.Number "1")
         [tok parser.Plus "+"; tok parser.Number "2"; tok parser.Number "3"])
      = Ok tt c' /\
    (precedence (specRules (curType c')) <= PrecedenceAssignment)%nat /\
    binaryOpCode (curType c') = None.
Proof.
  eexists. split; [vm_compute; reflexivity|].
  edestruct (parsePrecedence_stops_at_level parseDigits specRules 10
               PrecedenceAssignment
               (ahead (tok parser.Number "1")
                  [tok parser.Plus "+"; tok parser.Number "2";
                   tok parser.Number "3"])) as [H1 H2];
    [vm_compute; reflexivity | discriminate | apply Nat.le_refl |].
  split; [exact H1 | now apply H2].
Defined.

(* ================================================================== *)
(** ** When [Compile] panics *)

Lemma declarations_nonempty PF rules fuel c c' :
  curType c <> parser.Eof ->
  declarations PF rules fuel c = Ok tt c' -> code (chunk c') <> [].
Proof.
  intros Hc H. destruct fuel as [|n]; [discriminate|].
  cbn [declarations] in H. unfold match_ in H.
  rewrite check_plain in H by discriminate.
  apply eqb_false_iff in Hc. rewrite Hc in H. simpl in H.
  apply bind_Ok in H as ([] & c1 & H1 & H2).
  apply declaration_endsWith in H1.
  apply appended_declarations in H2 as (bs & vs & E & _).
  rewrite E. destruct H1 as [[b H1]|[b H1]]; rewrite H1;
    destruct b; discriminate.
Qed.

(** X11: with the table of the spec and a well-lexed source, [Compile]
    panics exactly when the source is at its end once the leading newlines
    are skipped; in every other case it returns. *)
Theorem Compile_panics_iff_no_statement
    (PF : string -> option spec_float)
    (init : parser.Token) (tokens : list parser.Token) (eol : Z)
    (fuel : nat) :
  okToken PF init -> Forall (okToken PF) tokens ->
  (2 * List.length tokens + 4 <= fuel)%nat ->
  ((exists msg,
      Compile PF specRules fuel (NewCompiler init tokens eol) = Panic msg) <->
   (exists c1,
      skipLeading fuel (NewCompiler init tokens eol) = Ok tt c1 /\
      curType c1 = parser.Eof)) /\
  ((exists r c',
      Compile PF specRules fuel (NewCompiler init tokens eol) = Ok r c') <->
   (exists c1,
      skipLeading fuel (NewCompiler init tokens eol) = Ok tt c1 /\
      curType c1 <> parser.Eof)).
Proof.
  intros Hi Ht Hf.
  set (c0 := NewCompiler init tokens eol).
  assert (Hcase : forall c1, skipLeading fuel c0 = Ok tt c1 ->
    (curType c1 = parser.Eof ->
     Compile PF specRules fuel c0 = Panic "index out of range [-1]") /\
    (curType c1 <> parser.Eof ->
     exists r c', Compile PF specRules fuel c0 = Ok r c')).
  { intros c1 H1. split.
    - intros Hc. destruct fuel as [|n]; [discriminate|].
      unfold Compile, bind. rewrite H1. cbn [declarations].
      unfold match_. rewrite check_plain by discriminate.
      rewrite Hc, eqb_refl. simpl.
      unfold patchLastPop. rewrite chunk_advance.
      apply chunk_skipLeading in H1. rewrite H1. reflexivity.
    - intros Hc.
      destruct (Compile_returns_or_empty PF init tokens eol fuel Hi Ht Hf)
        as [H|(_ & c2 & H2 & E)]; [exact H|].
      exfalso. unfold compileLoops in H2.
      apply bind_Ok in H2 as ([] & c1' & H1' & H2).
      fold c0 in H1'. rewrite H1 in H1'. inversion H1'; subst c1'.
      eapply declarations_nonempty; eauto. }
  assert (Hskip : exists c1, skipLeading fuel c0 = Ok tt c1).
  { pose proof (skipLeading_within specRules eq_refl fuel c0) as Hw.
    pose proof (remaining_le_pending c0) as Hr. simpl in Hr.
    destruct (skipLeading fuel c0) as [[] c1| |] eqn:E.
    - eauto.
    - exfalso. destruct fuel; [lia|]. cbn [skipLeading] in E.
      pose proof (skipLeading_noPanic fuel (advance c0)) as Hn.
      destruct (negb _); [discriminate|]. now rewrite E in Hn.
    - exfalso. apply Hw. destruct (parser.eqb _ _); lia. }
  destruct Hskip as [c1 H1]. destruct (Hcase c1 H1) as [Hp Hr].
  split; split.
  - intros [msg Hm]. exists c1. split; [exact H1|].
    destruct (parser.TokenType_eq_dec (curType c1) parser.Eof) as [E|E]; auto.
    destruct (Hr E) as (r & c' & Hok). congruence.
  - intros (c2 & H2 & E). rewrite H1 in H2. inversion H2; subst. eauto.
  - intros (r & c' & Hok). exists c1. split; [exact H1|].
    intros E. rewrite (Hp E) in Hok. discriminate.
  - intros (c2 & H2 & E). rewrite H1 in H2. inversion H2; subst. auto.
Qed.

Lemma Compile_panics_iff_no_statement_witness :
  exists r c', Compile parseDigits specRules 10 (fresh onePlusOne) = Ok r c'.
Proof.
  apply (proj2 (Compile_panics_iff_no_statement parseDigits
                  (tok parser.Eof "") onePlusOne 1 10 I
                  ltac:(repeat constructor; discriminate)
                  ltac:(simpl; lia))).
  eexists. split; [vm_compute; reflexivity | discriminate].
Defined.

(* ================================================================== *)
(** ** Chains of operators *)

Lemma specRules_below_Unary t :
  (PrecedenceUnary <? precedence (specRules t))%nat = false.
Proof. now destruct t. Qed.

Lemma infixLoop_Unary_stops PF pp k canAssign c :
  infixLoop PF specRules pp (S k) PrecedenceUnary canAssign c = Ok tt c.
Proof. cbn [infixLoop]. now rewrite specRules_below_Unary. Qed.

Lemma okAtom_not_Error PF a : okAtom PF a -> parser.Type_ a <> parser.Error.
Proof. unfold okAtom. intros H E. now rewrite E in H. Qed.

Lemma okAtom_not_Newline PF a : okAtom PF a -> parser.Type_ a <> parser.Newline.
Proof. unfold okAtom. intros H E. now rewrite E in H. Qed.

(** The prefix rule of a one-token operand, run on the state in which the
    operand is the previous token. *)
Lemma atom_prefix PF pp canAssign a c :
  okAtom PF a -> parser.previous (p c) = a ->
  exists fn,
    prefix (specRules (parser.Type_ a)) = Some fn /\
    call PF specRules pp (Some fn) canAssign c
      = Ok tt (setChunk (atomChunk PF a (chunk c)) c).
Proof.
  intros Ha Ep. unfold okAtom in Ha. unfold atomChunk.
  destruct (parser.Type_ a) eqn:Et; try contradiction; simpl;
    eexists; (split; [reflexivity|]); simpl.
  - unfold number, parser.Previous. rewrite Ep.
    destruct (PF (parser.Lexeme a)); [|congruence].
    now rewrite emitConstant_bytes.
  - unfold string_, parser.Previous. rewrite Ep.
    apply Nat.ltb_ge in Ha. rewrite Ha. now rewrite emitConstant_bytes.
  - unfold literal, prevType, parser.Previous. now rewrite Ep, Et.
  - unfold literal, prevType, parser.Previous. now rewrite Ep, Et.
  - unfold literal, prevType, parser.Previous. now rewrite Ep, Et.
Qed.

Lemma unary_chain_run PF ops opcodes :
  Forall2 (fun t o => unaryOpCode (parser.Type_ t) = Some o) ops opcodes ->
  forall a rest c fuel,
  okAtom PF a ->
  parser.current (p c) :: parser.pending (p c) = ops ++ a :: rest ->
  (List.length ops + 2 <= fuel)%nat ->
  exists c',
    parsePrecedence PF specRules fuel PrecedenceUnary c = Ok tt c' /\
    chunk c' = pushOpsInnermostFirst opcodes (atomChunk PF a (chunk c)).
Proof.
  induction 1 as [|o oc ops opcodes Ho Hops IH]; intros a rest c fuel Ha Es Hf.
  - simpl in *. inversion Es as [[Ec Ep]].
    destruct fuel as [|[|n]]; try lia.
    destruct (atom_prefix PF (parsePrecedence PF specRules (S n)) false a
                (advance c) Ha) as (fn & Hfn & Hcall).
    { now rewrite previous_advance. }
    exists (setChunk (atomChunk PF a (chunk (advance c))) (advance c)).
    split.
    2:{ rewrite chunk_advance. simpl. now rewrite ?Ec. }
    cbn [parsePrecedence]. unfold parsePrecedenceWith.
    rewrite prevType_advance. unfold curType, parser.Current.
    rewrite Ec, Hfn. cbv zeta.
    change (PrecedenceUnary <? PrecedenceAssignment)%nat with false.
    apply bind_Ok. eexists tt, _. split; [exact Hcall|].
    apply bind_Ok. eexists tt, _. split; [apply infixLoop_Unary_stops|].
    reflexivity.
  - simpl in Es. inversion Es as [[Ec Ep]].
    destruct fuel as [|[|n]]; simpl in Hf; try lia.
    assert (Hnext : exists t ts, ops ++ a :: rest = t :: ts /\
                      parser.Type_ t <> parser.Error).
    { destruct Hops as [|t oc' ops opcodes Ht _]; simpl.
      - exists a, rest. split; [reflexivity|]. now apply okAtom_not_Error in Ha.
      - exists t, (ops ++ a :: rest). split; [reflexivity|].
        intros E. rewrite E in Ht. discriminate. }
    destruct Hnext as (t & ts & Ets & Ht).
    assert (Hadv : advance c = shifted c t ts).
    { apply advance_onto; [congruence | exact Ht|]. left.
      unfold curType, parser.Current. rewrite Ec.
      destruct (parser.Type_ o); simpl in Ho; try discriminate; reflexivity. }
    destruct (IH a rest (shifted c t ts) (S n) Ha) as (c2 & H2 & E2).
    { simpl. now rewrite <- Ets. }
    { lia. }
    exists (emitOpCode oc c2).
    split; [|unfold pushOpsInnermostFirst in *; simpl; now rewrite E2].
    cbn [parsePrecedence]. unfold parsePrecedenceWith.
    rewrite prevType_advance, Hadv. unfold curType, parser.Current. rewrite Ec.
    assert (Hu : prefix (specRules (parser.Type_ o)) = Some fn_unary)
      by (destruct (parser.Type_ o); simpl in Ho; try discriminate; reflexivity).
    rewrite Hu. cbv zeta.
    change (PrecedenceUnary <? PrecedenceAssignment)%nat with false.
    apply bind_Ok. exists tt, (emitOpCode oc c2). split.
    + simpl call. unfold unaryWith. apply bind_Ok. exists tt, c2.
      split; [exact H2|].
      assert (Hp : prevType (shifted c t ts) = parser.Type_ o)
        by (unfold prevType, shifted; simpl; now rewrite Ec).
      rewrite Hp.
      destruct (parser.Type_ o); simpl in Ho; try discriminate;
        now inversion Ho.
    + apply bind_Ok. eexists tt, _. split; [apply infixLoop_Unary_stops|].
      reflexivity.
Qed.

(** X12: a chain of prefix operators in front of a one-token operand
    compiles, with the table of the spec, to the code of the operand
    followed by the opcodes of the operators, the innermost operator
    first; whatever follows the operand is not touched by the opcodes. *)
Theorem unary_chain
    (PF : string -> option spec_float)
    (ops : list parser.Token) (opcodes : list OpCode.t)
    (a : parser.Token) (rest : list parser.Token)
    (c : Compiler) (fuel : nat) :
  Forall2 (fun t o => unaryOpCode (parser.Type_ t) = Some o) ops opcodes ->
  okAtom PF a ->
  parser.current (p c) :: parser.pending (p c) = ops ++ a :: rest ->
  (List.length ops + 2 <= fuel)%nat ->
  exists c',
    parsePrecedence PF specRules fuel PrecedenceUnary c = Ok tt c' /\
    chunk c' = pushOpsInnermostFirst opcodes (atomChunk PF a (chunk c)).
Proof. intros H Ha Es Hf. eapply unary_chain_run; eauto. Qed.

Lemma unary_chain_witness :
  exists c',
    parsePrecedence parseDigits specRules 4 PrecedenceUnary
      (ahead (tok parser.Bang "!")
         [tok parser.Minus "-"; tok parser.Number "1"; tok parser.Plus "+"])
      = Ok tt c' /\
    chunk c' =
      pushOpsInnermostFirst [OpCode.Not; OpCode.Negate]
        (atomChunk parseDigits (tok parser.Number "1") NewChunk).
Proof.
  apply (unary_chain parseDigits
           [tok parser.Bang "!"; tok parser.Minus "-"]
           [OpCode.Not; OpCode.Negate]
           (tok parser.Number "1") [tok parser.Plus "+"]
           (ahead (tok parser.Bang "!")
              [tok parser.Minus "-"; tok parser.Number "1";
               tok parser.Plus "+"]) 4).
  - repeat constructor.
  - discriminate.
  - reflexivity.
  - simpl; lia.
Defined.

Lemma advance_plain c :
  skipsNewlinesAfter (curType c) = false ->
  (forall t ts, parser.pending (p c) = t :: ts ->
     parser.Type_ t <> parser.Error) ->
  advance c =
    shifted c (hd (parser.eofToken (p c)) (parser.pending (p c)))
              (tl (parser.pending (p c))).
Proof.
  intros Hs Ht. destruct (parser.pending (p c)) as [|t ts] eqn:E; simpl.
  - now apply advance_at_end.
  - apply advance_onto; eauto.
Qed.

Lemma aheadIs_shifted c eof toks :
  parser.Type_ eof = parser.Eof ->
  aheadIs (shifted c (hd eof toks) (tl toks)) toks.
Proof. intros He. destruct toks; simpl; auto. Qed.

Lemma okAtom_no_skip PF a :
  okAtom PF a -> skipsNewlinesAfter (parser.Type_ a) = false.
Proof. unfold okAtom. now destruct (parser.Type_ a). Qed.

Lemma binary_no_skip t :
  binaryOpCode t <> None -> skipsNewlinesAfter t = false.
Proof. destruct t; simpl; congruence. Qed.

Lemma endsExpression_stop l toks c :
  endsExpression l toks -> aheadIs c toks ->
  (l <? precedence (specRules (curType c)))%nat = false.
Proof.
  intros He Ha. apply Nat.ltb_ge. destruct toks as [|t ts]; simpl in *.
  - destruct Ha as [-> _]. simpl. unfold PrecedenceNone. lia.
  - destruct Ha as [Ha _]. unfold curType, parser.Current. rewrite Ha.
    apply He.
Qed.

Lemma endsExpression_no_Error l toks :
  endsExpression l toks ->
  forall t ts, toks = t :: ts -> parser.Type_ t <> parser.Error.
Proof. intros He t ts ->. apply He. Qed.

(** An operand of one token, parsed at a level at which what follows
    ends the expression. *)
Lemma atom_operand PF a toks c n l :
  okAtom PF a ->
  parser.current (p c) = a -> parser.pending (p c) = toks ->
  (PrecedenceAssignment <= l)%nat -> endsExpression l toks ->
  exists c',
    parsePrecedence PF specRules (S (S n)) l c = Ok tt c' /\
    chunk c' = atomChunk PF a (chunk c) /\ aheadIs c' toks /\ quiet c c'.
Proof.
  intros Ha Ec Ep Hl He.
  assert (Hadv : advance c =
            shifted c (hd (parser.eofToken (p c)) toks) (tl toks)).
  { rewrite <- Ep. apply advance_plain.
    - unfold curType, parser.Current. rewrite Ec. eapply okAtom_no_skip; eauto.
    - rewrite Ep. now apply endsExpression_no_Error with (l := l). }
  destruct (atom_prefix PF (parsePrecedence PF specRules (S n)) false a
              (advance c) Ha) as (fn & Hfn & Hcall).
  { now rewrite previous_advance. }
  exists (setChunk (atomChunk PF a (chunk (advance c))) (advance c)).
  split; [|split; [|split]].
  - cbn [parsePrecedence]. unfold parsePrecedenceWith.
    rewrite prevType_advance. unfold curType at 1, parser.Current.
    rewrite Ec, Hfn. cbv zeta.
    replace (l <? PrecedenceAssignment)%nat with false
      by (symmetry; now apply Nat.ltb_ge).
    apply bind_Ok. eexists tt, _. split; [exact Hcall|].
    apply bind_Ok. eexists tt, _. split; [|reflexivity].
    cbn [infixLoop]. rewrite (endsExpression_stop l toks); auto.
    rewrite Hadv. apply (aheadIs_shifted c). reflexivity.
  - simpl. now rewrite chunk_advance.
  - rewrite Hadv. apply (aheadIs_shifted c). reflexivity.
  - rewrite Hadv. repeat split.
Qed.

Lemma leftChain_next PF l o a ps rest :
  leftChain PF l ((o, a) :: ps) -> endsExpression l rest ->
  endsExpression (S (level o)) (flattenPairs ps ++ rest).
Proof.
  intros (_ & Hl & _ & Hn & Hps) He. cbn [fst snd] in *.
  destruct ps as [|[o' a'] ps]; simpl.
  - destruct rest; simpl in *; auto. destruct He; split; auto. lia.
  - destruct Hps as (Ho' & _). cbn [fst] in *. split.
    + intros E. rewrite E in Ho'. now apply Ho'.
    + exact Hn.
Qed.

Lemma leftChain_first PF l pairs rest :
  leftChain PF l pairs -> endsExpression l rest ->
  forall t ts, flattenPairs pairs ++ rest = t :: ts ->
  parser.Type_ t <> parser.Error.
Proof.
  intros Hp He t ts E. destruct pairs as [|[o a] ps]; simpl in E.
  - subst rest. apply He.
  - inversion E; subst. destruct Hp as (Ho & _). cbn [fst] in Ho.
    intros Et. rewrite Et in Ho. now apply Ho.
Qed.

Lemma okPairs_leftChain PF L l pairs :
  Forall (okPair PF L) pairs -> (l < L)%nat -> leftChain PF l pairs.
Proof.
  intros Hp Hl. induction Hp as [|[o a] ps (Ho & HL & Ha) Hps IH]; simpl; auto.
  cbn [fst snd] in *. unfold level. repeat split; auto; try lia.
  destruct Hps as [|[o' a'] ps' (_ & HL' & _) _]; auto.
  cbn [fst] in *. lia.
Qed.

Lemma chain_loop PF l rest pairs : forall c k n,
  leftChain PF l pairs -> endsExpression l rest ->
  aheadIs c (flattenPairs pairs ++ rest) ->
  (List.length pairs < k)%nat -> (2 <= n)%nat ->
  exists c',
    infixLoop PF specRules (parsePrecedence PF specRules n) k l false c
      = Ok tt c' /\
    chunk c' = chainChunk PF pairs (chunk c) /\ aheadIs c' rest /\
    quiet c c'.
Proof.
  induction pairs as [|[o a] ps IH]; intros c k n Hp He Ha Hk Hn.
  - destruct k as [|k]; [simpl in Hk; lia|]. exists c. simpl in Ha.
    cbn [infixLoop]. rewrite (endsExpression_stop l rest);
      auto using quiet_refl.
  - destruct k as [|k]; [simpl in Hk; lia|]. simpl in Hk.
    pose proof (leftChain_next PF l o a ps rest Hp He) as Hnext.
    destruct Hp as (Ho & HL & Hat & _ & Hps).
    cbn [fst snd] in Ho, HL, Hat. unfold level in *.
    change (aheadIs c (o :: a :: flattenPairs ps ++ rest)) in Ha.
    destruct Ha as [Ec Ep].
    destruct (binaryOpCode (parser.Type_ o)) as [oc|] eqn:Eoc; [|congruence].
    assert (Hadv : advance c = shifted c a (flattenPairs ps ++ rest)).
    { apply advance_onto; auto.
      - eapply okAtom_not_Error; eauto.
      - left. unfold curType, parser.Current. rewrite Ec.
        apply binary_no_skip. congruence. }
    destruct n as [|[|n]]; try lia.
    destruct (atom_operand PF a (flattenPairs ps ++ rest)
                (shifted c a (flattenPairs ps ++ rest)) n
                (S (precedence (specRules (parser.Type_ o)))) Hat)
      as (c2 & H2 & E2 & A2 & Q2); auto.
    { unfold PrecedenceAssignment. lia. }
    destruct (IH (emitOpCode oc c2) k (S (S n))) as (c' & H' & E' & A' & Q');
      auto; try lia.
    exists c'. split; [|split; [|split; [exact A'|]]].
    + cbn [infixLoop]. unfold curType at 1, parser.Current. rewrite Ec.
      replace (l <? precedence (specRules (parser.Type_ o)))%nat with true
        by (symmetry; apply Nat.ltb_lt; lia).
      rewrite prevType_advance. unfold curType at 1, parser.Current.
      rewrite Ec. destruct (specRules_binary_level _ _ Eoc) as [_ ->].
      apply bind_Ok. exists tt, (emitOpCode oc c2). split; [|exact H'].
      simpl call. unfold binaryWith. rewrite prevType_advance.
      unfold curType, parser.Current. rewrite Ec, Hadv, Nat.add_1_r.
      apply bind_Ok. exists tt, c2. split; [exact H2|].
      unfold lift. f_equal.
      destruct (parser.Type_ o); simpl in Eoc; try discriminate;
        now inversion Eoc.
    + rewrite E'. unfold chainChunk.
      cbn [fold_left fst snd chunk emitOpCode setChunk]. now rewrite Eoc, E2.
    + eapply quiet_trans; [|exact Q'].
      eapply quiet_trans; [|apply quiet_emitOpCode].
      eapply quiet_trans; [|exact Q2]. repeat split.
Qed.

Lemma chain_run PF l a0 pairs rest c fuel :
  okAtom PF a0 -> leftChain PF l pairs ->
  (PrecedenceAssignment <= l)%nat -> endsExpression l rest ->
  parser.current (p c) :: parser.pending (p c)
    = a0 :: flattenPairs pairs ++ rest ->
  (List.length pairs + 3 <= fuel)%nat ->
  exists c',
    parsePrecedence PF specRules fuel l c = Ok tt c' /\
    chunk c' = chainChunk PF pairs (atomChunk PF a0 (chunk c)) /\
    aheadIs c' rest /\ quiet c c'.
Proof.
  intros Ha Hp Hl He Es Hf. inversion Es as [[Ec Ep]].
  destruct fuel as [|n]; [lia|].
  assert (Hadv : advance c =
    shifted c (hd (parser.eofToken (p c)) (flattenPairs pairs ++ rest))
              (tl (flattenPairs pairs ++ rest))).
  { rewrite <- Ep. apply advance_plain.
    - unfold curType, parser.Current. rewrite Ec. eapply okAtom_no_skip; eauto.
    - rewrite Ep. eapply leftChain_first; eauto. }
  destruct (atom_prefix PF (parsePrecedence PF specRules n) false a0
              (advance c) Ha) as (fn & Hfn & Hcall).
  { now rewrite previous_advance. }
  destruct (chain_loop PF l rest pairs
              (setChunk (atomChunk PF a0 (chunk (advance c))) (advance c))
              n n Hp He) as (c' & H' & E' & A' & Q'); try lia.
  { rewrite Hadv. apply (aheadIs_shifted c). reflexivity. }
  exists c'. split; [|split; [|split; [exact A'|]]].
  - cbn [parsePrecedence]. unfold parsePrecedenceWith.
    rewrite prevType_advance. unfold curType at 1, parser.Current.
    rewrite Ec, Hfn. cbv zeta.
    replace (l <? PrecedenceAssignment)%nat with false
      by (symmetry; now apply Nat.ltb_ge).
    apply bind_Ok. eexists tt, _. split; [exact Hcall|].
    apply bind_Ok. exists tt, c'. split; [exact H'|]. reflexivity.
  - rewrite E'. cbn [chunk setChunk]. now rewrite chunk_advance, ?Ec.
  - eapply quiet_trans; [|exact Q']. rewrite Hadv. repeat split.
Qed.

(** X13: a chain [a0 op1 a1 ... opn an] of one-token operands and binary
    operators of one level groups to the left, whatever its length: parsed
    with the table of the spec at a lower level, the code is that of [a0],
    then for each operator in turn the code of its right operand followed
    at once by its opcode.  What follows the chain stays ahead. *)
Theorem binary_chain
    (PF : string -> option spec_float)
    (L l : Precedence) (a0 : parser.Token)
    (pairs : list (parser.Token * parser.Token))
    (rest : list parser.Token) (c : Compiler) (fuel : nat) :
  okAtom PF a0 -> Forall (okPair PF L) pairs ->
  (PrecedenceAssignment <= l)%nat -> (l < L)%nat ->
  endsExpression l rest ->
  parser.current (p c) :: parser.pending (p c)
    = a0 :: flattenPairs pairs ++ rest ->
  (List.length pairs + 3 <= fuel)%nat ->
  exists c',
    parsePrecedence PF specRules fuel l c = Ok tt c' /\
    chunk c' = chainChunk PF pairs (atomChunk PF a0 (chunk c)) /\
    aheadIs c' rest.
Proof.
  intros Ha Hp Hl HL He Es Hf.
  destruct (chain_run PF l a0 pairs rest c fuel Ha
              (okPairs_leftChain PF L l pairs Hp HL) Hl He Es Hf)
    as (c' & H1 & H2 & H3 & _).
  eauto.
Qed.

Lemma binary_chain_witness :
  exists c',
    parsePrecedence parseDigits specRules 5 PrecedenceAssignment
      (ahead (tok parser.Number "1")
         [tok parser.Minus "-"; tok parser.Number "2";
          tok parser.Plus "+"; tok parser.Number "3";
          tok parser.Newline ""])
      = Ok tt c' /\
    chunk c' =
      chainChunk parseDigits
        [(tok parser.Minus "-", tok parser.Number "2");
         (tok parser.Plus "+", tok parser.Number "3")]
        (atomChunk parseDigits (tok parser.Number "1") NewChunk) /\
    aheadIs c' [tok parser.Newline ""].
Proof.
  apply (binary_chain parseDigits PrecedenceTerm PrecedenceAssignment
           (tok parser.Number "1")
           [(tok parser.Minus "-", tok parser.Number "2");
            (tok parser.Plus "+", tok parser.Number "3")]
           [tok parser.Newline ""]
           (ahead (tok parser.Number "1")
              [tok parser.Minus "-"; tok parser.Number "2";
               tok parser.Plus "+"; tok parser.Number "3";
               tok parser.Newline ""]) 5).
  - discriminate.
  - repeat constructor; discriminate.
  - apply Nat.le_refl.
  - unfold PrecedenceAssignment, PrecedenceTerm; lia.
  - split; [discriminate | apply Nat.le_0_l].
  - reflexivity.
  - simpl; lia.
Defined.

(** X14: the right operand of a binary operator is parsed one level above
    the operator, and the loop goes on only while the token ahead is
    strictly above its level; so, with the levels numbered one after the
    other as the spec lists them, an operator at most one level above the
    operator before it starts no tighter group: a chain in which no
    operator is more than one level above the one before it groups to the
    left. *)
Theorem binary_chain_one_level_up
    (PF : string -> option spec_float)
    (l : Precedence) (a0 : parser.Token)
    (pairs : list (parser.Token * parser.Token))
    (rest : list parser.Token) (c : Compiler) (fuel : nat) :
  okAtom PF a0 -> leftChain PF l pairs ->
  (PrecedenceAssignment <= l)%nat -> endsExpression l rest ->
  parser.current (p c) :: parser.pending (p c)
    = a0 :: flattenPairs pairs ++ rest ->
  (List.length pairs + 3 <= fuel)%nat ->
  exists c',
    parsePrecedence PF specRules fuel l c = Ok tt c' /\
    chunk c' = chainChunk PF pairs (atomChunk PF a0 (chunk c)) /\
    aheadIs c' rest.
Proof.
  intros Ha Hp Hl He Es Hf.
  destruct (chain_run PF l a0 pairs rest c fuel Ha Hp Hl He Es Hf)
    as (c' & H1 & H2 & H3 & _).
  eauto.
Qed.

Lemma binary_chain_one_level_up_witness :
  exists c',
    parsePrecedence parseDigits specRules 5 PrecedenceAssignment
      (ahead (tok parser.Number "1")
         [tok parser.Plus "+"; tok parser.Number "2";
          tok parser.Star "*"; tok parser.Number "3"])
      = Ok tt c' /\
    chunk c' =
      chainChunk parseDigits
        [(tok parser.Plus "+", tok parser.Number "2");
         (tok parser.Star "*", tok parser.Number "3")]
        (atomChunk parseDigits (tok parser.Number "1") NewChunk) /\
    aheadIs c' [].
Proof.
  apply (binary_chain_one_level_up parseDigits PrecedenceAssignment
           (tok parser.Number "1")
           [(tok parser.Plus "+", tok parser.Number "2");
            (tok parser.Star "*", tok parser.Number "3")]
           []
           (ahead (tok parser.Number "1")
              [tok parser.Plus "+"; tok parser.Number "2";
               tok parser.Star "*"; tok parser.Number "3"]) 5).
  - discriminate.
  - simpl. unfold level. simpl.
    unfold PrecedenceAssignment, PrecedenceTerm, PrecedenceFactor.
    repeat split; try discriminate; lia.
  - apply Nat.le_refl.
  - exact I.
  - reflexivity.
  - simpl; lia.
Defined.

(* ================================================================== *)
(** ** Leading newlines *)

Lemma advance_withPrevious t c : advance (withPrevious t c) = advance c.
Proof. reflexivity. Qed.

Lemma parsePrecedence_withPrevious PF rules fuel l t c :
  parsePrecedence PF rules fuel l (withPrevious t c)
  = parsePrecedence PF rules fuel l c.
Proof. destruct fuel; reflexivity. Qed.

Lemma check_withPrevious ty t c :
  ty <> parser.Newline -> check ty (withPrevious t c) = check ty c.
Proof. intros H. now rewrite !check_plain. Qed.

Lemma declaration_withPrevious PF rules fuel t c :
  declaration PF rules fuel (withPrevious t c) = declaration PF rules fuel c.
Proof.
  unfold declaration, statement, match_.
  rewrite check_withPrevious by discriminate.
  destruct (check parser.Return c); simpl; [reflexivity|].
  unfold expressionStatement, bind, expression.
  now rewrite parsePrecedence_withPrevious.
Qed.

Lemma declarations_withPrevious PF rules fuel t c :
  declarations PF rules fuel (withPrevious t c) = declarations PF rules fuel c.
Proof.
  destruct fuel as [|n]; [reflexivity|]. cbn [declarations]. unfold match_.
  rewrite check_withPrevious by discriminate.
  destruct (check parser.Eof c); simpl; [reflexivity|].
  unfold bind. now rewrite declaration_withPrevious.
Qed.

Lemma consumeNewlinesFrom_eq cur ts eof :
  consumeNewlinesFrom cur ts eof =
    match parser.Type_ cur with
    | parser.Newline =>
        match ts with
        | [] => (eof, [])
        | t :: ts' => consumeNewlinesFrom t ts' eof
        end
    | _ => (cur, ts)
    end.
Proof. destruct ts; reflexivity. Qed.

Lemma consumeNewlinesFrom_over eof nls toks : forall cur,
  parser.Type_ cur = parser.Newline ->
  Forall (fun t => parser.Type_ t = parser.Newline) nls ->
  startsStatement toks ->
  consumeNewlinesFrom cur (nls ++ toks) eof = (hd eof toks, tl toks).
Proof.
  induction nls as [|n ns IH]; intros cur Hc Hn Hs;
    rewrite consumeNewlinesFrom_eq, Hc; simpl.
  - destruct toks as [|t ts]; simpl; [reflexivity|].
    destruct Hs as [Hs _]. rewrite consumeNewlinesFrom_eq.
    destruct (parser.Type_ t); try congruence; reflexivity.
  - inversion Hn; subst. now apply IH.
Qed.

(** [advance] from a token after which newlines are skipped, over the
    newlines [nls], onto the first token of [toks]. *)
Lemma advance_over_newlines c nls toks :
  parser.pending (p c) = nls ++ toks ->
  Forall (fun t => parser.Type_ t = parser.Newline) nls ->
  startsStatement toks ->
  (nls <> [] -> skipsNewlinesAfter (curType c) = true) ->
  advance c = shifted c (hd (parser.eofToken (p c)) toks) (tl toks).
Proof.
  intros Ep Hn Hs Hk. destruct nls as [|n ns].
  - simpl in Ep. destruct toks as [|t ts]; simpl.
    + now apply advance_at_end.
    + destruct Hs as [Hs1 Hs2]. apply advance_onto; auto.
  - specialize (Hk ltac:(discriminate)). inversion Hn as [|? ? Hn1 Hn2]; subst.
    simpl in Ep. unfold advance. simpl. rewrite Ep.
    rewrite pullToken_onto by (rewrite Hn1; discriminate).
    rewrite skipNewlines_cases.
    destruct c as [[pr cu pe el] ch he pm se].
    unfold curType in Hk. unfold prevType. simpl in Hk |- *. rewrite Hk.
    unfold consumeNewlines, shifted. simpl.
    now rewrite (consumeNewlinesFrom_over _ ns toks n Hn1 Hn2 Hs).
Qed.

Lemma startsStatement_head eof toks :
  startsStatement toks -> parser.Type_ eof = parser.Eof ->
  parser.Type_ (hd eof toks) <> parser.Newline.
Proof.
  intros Hs He. destruct toks; simpl; [rewrite He; discriminate | apply Hs].
Qed.

Lemma skipLeading_newlines init nls toks eol n :
  parser.Type_ init <> parser.RightBrace ->
  Forall (fun t => parser.Type_ t = parser.Newline) nls ->
  startsStatement toks ->
  exists c1,
    skipLeading (S (S n)) (NewCompiler init toks eol) = Ok tt c1 /\
    ((skipLeading (S (S n)) (NewCompiler init (nls ++ toks) eol) = Ok tt c1) \/
     (exists t,
        skipLeading (S (S n)) (NewCompiler init (nls ++ toks) eol)
          = Ok tt (withPrevious t c1))).
Proof.
  intros Hi Hn Hs.
  set (c0 := NewCompiler init toks eol).
  set (eof := parser.eofToken (p c0)).
  assert (Hb : forall c : Compiler,
    prevType c <> parser.RightBrace -> curType c <> parser.Newline ->
    negb (check parser.Newline c) = true).
  { intros c H1 H2. unfold check.
    apply eqb_false_iff in H1, H2. now rewrite H1, H2. }
  assert (E0 : advance c0 = shifted c0 (hd eof toks) (tl toks)).
  { apply (advance_over_newlines c0 [] toks); auto. }
  assert (Hend : negb (check parser.Newline
                         (shifted c0 (hd eof toks) (tl toks))) = true).
  { apply Hb; [exact Hi | now apply startsStatement_head]. }
  exists (shifted c0 (hd eof toks) (tl toks)). split.
  { cbn [skipLeading]. now rewrite E0, Hend. }
  destruct nls as [|nl ns]; [left; cbn [skipLeading]; simpl app;
                             fold c0; now rewrite E0, Hend|].
  inversion Hn as [|? ? Hn1 Hn2]; subst.
  set (c0' := NewCompiler init ((nl :: ns) ++ toks) eol).
  destruct (skipsNewlinesAfter (parser.Type_ init)) eqn:Ek.
  - left. cbn [skipLeading].
    assert (E1 : advance c0' = shifted c0 (hd eof toks) (tl toks)).
    { rewrite (advance_over_newlines c0' (nl :: ns) toks); auto. }
    now rewrite E1, Hend.
  - right. exists nl. cbn [skipLeading].
    assert (E1 : advance c0' = shifted c0' nl (ns ++ toks)).
    { apply advance_onto; auto. rewrite Hn1; discriminate. }
    rewrite E1.
    assert (Hgo : negb (check parser.Newline (shifted c0' nl (ns ++ toks)))
                  = false).
    { unfold check, curType. simpl. rewrite Hn1. simpl.
      now destruct (parser.eqb _ _). }
    rewrite Hgo.
    assert (E2 : advance (shifted c0' nl (ns ++ toks))
                 = withPrevious nl (shifted c0 (hd eof toks) (tl toks))).
    { rewrite (advance_over_newlines _ ns toks); auto.
      intros _. unfold curType. simpl. now rewrite Hn1. }
    rewrite E2.
    assert (Hend2 : negb (check parser.Newline
              (withPrevious nl (shifted c0 (hd eof toks) (tl toks)))) = true).
    { apply Hb.
      - unfold prevType. simpl. rewrite Hn1. discriminate.
      - now apply startsStatement_head. }
    now rewrite Hend2.
Qed.

(** X15: blank lines at the start of the source change nothing: unless
    the zero token of the parser is a closing brace, compiling a source
    that starts a statement (or is empty) and compiling it behind any
    number of newline tokens give the same result and final state. *)
Theorem leading_newlines_insignificant
    (PF : string -> option spec_float)
    (rules : parser.TokenType -> ParseRule)
    (init : parser.Token) (nls toks : list parser.Token) (eol : Z)
    (fuel : nat) :
  parser.Type_ init <> parser.RightBrace ->
  Forall (fun t => parser.Type_ t = parser.Newline) nls ->
  startsStatement toks ->
  (2 <= fuel)%nat ->
  Compile PF rules fuel (NewCompiler init (nls ++ toks) eol)
  = Compile PF rules fuel (NewCompiler init toks eol).
Proof.
  intros Hi Hn Hs Hf. destruct fuel as [|[|n]]; try lia.
  destruct (skipLeading_newlines init nls toks eol n Hi Hn Hs)
    as (c1 & H1 & [H2|[t H2]]);
    unfold Compile, bind; rewrite H1, H2; [reflexivity|].
  now rewrite declarations_withPrevious.
Qed.

Lemma leading_newlines_insignificant_witness :
  Compile parseDigits specRules 10
    (NewCompiler (tok parser.Eof "")
       ([tok parser.Newline ""; tok parser.Newline ""] ++ onePlusOne) 1)
  = Compile parseDigits specRules 10
      (NewCompiler (tok parser.Eof "") onePlusOne 1).
Proof.
  apply leading_newlines_insignificant.
  - discriminate.
  - repeat constructor.
  - split; discriminate.
  - lia.
Defined.

(* ================================================================== *)
(** ** Lexical errors *)

Lemma flagsAgree_step c c' : flagsAgree c -> diagStep c c' -> flagsAgree c'.
Proof.
  unfold flagsAgree. intros H [(G1 & G2 & _)|(_ & G2 & G3 & _)]; congruence.
Qed.

Lemma errorDue_reported c : flagsAgree c -> hadError c = true -> errorDue c.
Proof. intros; split; auto. Qed.

Lemma errorDue_of_known c : errorKnown c -> errorDue c.
Proof. intros [F [H|H]]; split; auto. Qed.

Lemma errorKnown_of_due c :
  errorDue c -> curType c <> parser.Error -> errorKnown c.
Proof. intros [F [H|[H|H]]] Hc; split; auto; contradiction. Qed.

Lemma errorKnown_errorAt t m c : flagsAgree c -> errorKnown (errorAt t m c).
Proof.
  unfold flagsAgree, errorAt. intros F. destruct (panicMode c) eqn:E.
  - split; [unfold flagsAgree; congruence | left; congruence].
  - split; [reflexivity | now left].
Qed.

Lemma errorDue_errorAt t m c : flagsAgree c -> errorDue (errorAt t m c).
Proof. intros F. now apply errorDue_of_known, errorKnown_errorAt. Qed.

Lemma errorDue_emitOpCode o c : errorDue c -> errorDue (emitOpCode o c).
Proof. intros H. exact H. Qed.

Lemma errorDue_emitConstant v c : errorDue c -> errorDue (emitConstant v c).
Proof. intros H. exact H. Qed.

(** Pulling the next token reports the [Error] tokens it meets. *)
Lemma errorKnown_pull ts : forall c, parser.pending (p c) = ts ->
  errorKnown c -> errorKnown (pullToken ts c).
Proof.
  induction ts as [|t ts IH]; intros c Ep [F H].
  - simpl. unfold parser.NextToken. rewrite Ep. split; [exact F|].
    destruct H as [H|H]; [now left | rewrite Ep in H; inversion H].
  - cbn [pullToken].
    destruct (parser.Type_ t) eqn:Et;
      try (split; [exact F|]; destruct H as [H|H]; [now left|]; right;
           rewrite Ep in H; inversion H; subst; [congruence | assumption]).
    apply IH.
    + unfold errorAtCurrent, errorAt. simpl. now destruct (panicMode c).
    + apply errorKnown_errorAt. exact F.
Qed.

Lemma consumeNewlinesFrom_keeps_Error eof : forall ts cur,
  Exists (fun t => parser.Type_ t = parser.Error) ts ->
  parser.Type_ (fst (consumeNewlinesFrom cur ts eof)) = parser.Error \/
  Exists (fun t => parser.Type_ t = parser.Error)
    (snd (consumeNewlinesFrom cur ts eof)).
Proof.
  induction ts as [|t ts IH]; intros cur H; [inversion H|].
  rewrite consumeNewlinesFrom_eq.
  destruct (parser.Type_ cur) eqn:Ec; simpl; auto.
  inversion H as [? ? Ht|? ? Hts]; subst.
  - rewrite consumeNewlinesFrom_eq, Ht. simpl. now left.
  - now apply IH.
Qed.

(** Skipping newlines can make an [Error] token the current one. *)
Lemma errorDue_consumeNewlines c : errorKnown c -> errorDue (consumeNewlines c).
Proof.
  intros [F H].
  destruct (quiet_consumeNewlines c) as (Q1 & Q2 & _).
  split; [unfold flagsAgree in *; congruence|].
  destruct H as [H|H]; [left; congruence|]. right.
  pose proof (consumeNewlinesFrom_keeps_Error (parser.eofToken (p c))
                (parser.pending (p c)) (parser.current (p c)) H) as G.
  unfold consumeNewlines, curType.
  destruct (consumeNewlinesFrom _ _ _) as [cur ts]. exact G.
Qed.

Lemma errorDue_advance c : errorKnown c -> errorDue (advance c).
Proof.
  intros H. unfold advance. rewrite skipNewlines_cases.
  assert (K : errorKnown (pullToken
    (parser.pending (p (setP (parser.SetPrevious (parser.Current (p c)) (p c)) c)))
    (setP (parser.SetPrevious (parser.Current (p c)) (p c)) c)))
    by (apply errorKnown_pull; [reflexivity | exact H]).
  destruct (skipsNewlinesAfter _);
    [now apply errorDue_consumeNewlines | now apply errorDue_of_known].
Qed.

Lemma errorDue_advance_from c :
  errorDue c -> curType c <> parser.Error -> errorDue (advance c).
Proof. intros H Hc. now apply errorDue_advance, errorKnown_of_due. Qed.

Lemma errorDue_expect c :
  errorDue c -> errorDue (expectNewlineOrSemicolon c).
Proof.
  intros H. unfold expectNewlineOrSemicolon.
  destruct (parser.eqb (prevType c) parser.RightBrace) eqn:E1; [exact H|].
  destruct (parser.eqb (curType c) parser.RightBrace); [exact H|].
  destruct (_ || _); [exact H|].
  unfold match_. rewrite check_plain by discriminate.
  destruct (parser.eqb (curType c) parser.Semicolon) eqn:E2; simpl.
  - apply eqb_true_iff in E2. apply errorDue_advance_from; [exact H|].
    rewrite E2. discriminate.
  - unfold consume, check. rewrite E1. simpl.
    destruct (parser.eqb (curType c) parser.Newline) eqn:E3.
    + apply eqb_true_iff in E3. apply errorDue_advance_from; [exact H|].
      rewrite E3. discriminate.
    + apply errorDue_errorAt, H.
Qed.

Section ErrorDue.

Variable PF : string -> option spec_float.
Variable rules : parser.TokenType -> ParseRule.

(** An [Error] token starts no expression and continues none. *)
Hypothesis Error_prefix : prefix (rules parser.Error) = None.
Hypothesis Error_precedence :
  precedence (rules parser.Error) = PrecedenceNone.

Section Callback.

Variable pp : Precedence -> M unit.
Hypothesis pp_due :
  forall l c c', errorDue c -> pp l c = Ok tt c' -> errorDue c'.

Lemma call_due rule canAssign c c' :
  errorDue c -> call PF rules pp rule canAssign c = Ok tt c' -> errorDue c'.
Proof.
  intros Hc H. destruct rule as [[]|]; simpl in H.
  - unfold unaryWith in H. apply bind_Ok in H as ([] & c1 & H1 & H2).
    apply pp_due in H1; [|exact Hc].
    destruct (prevType c); inversion H2; subst;
      now apply errorDue_emitOpCode.
  - unfold binaryWith in H. apply bind_Ok in H as ([] & c1 & H1 & H2).
    apply pp_due in H1; [|exact Hc].
    unfold lift in H2. inversion H2; subst.
    destruct (prevType c); try exact H1; now apply errorDue_emitOpCode.
  - unfold number in H. destruct (PF _); inversion H; subst.
    now apply errorDue_emitConstant.
  - unfold string_ in H. destruct (_ <? _)%nat; inversion H; subst.
    now apply errorDue_emitConstant.
  - unfold literal in H. destruct (prevType c); inversion H; subst;
      now apply errorDue_emitOpCode.
  - discriminate.
Qed.

Lemma infixLoop_due k : forall l canAssign c c',
  errorDue c -> infixLoop PF rules pp k l canAssign c = Ok tt c' ->
  errorDue c'.
Proof.
  induction k as [|k IH]; intros l canAssign c c' Hc H; [discriminate|].
  cbn [infixLoop] in H.
  destruct (l <? precedence (rules (curType c)))%nat eqn:E.
  - assert (Hcur : curType c <> parser.Error).
    { intros Heq. rewrite Heq, Error_precedence in E.
      apply Nat.ltb_lt in E. unfold PrecedenceNone in E. lia. }
    apply bind_Ok in H as ([] & c1 & H1 & H2).
    apply call_due in H1; [|now apply errorDue_advance_from].
    eapply IH; eauto.
  - inversion H; subst. exact Hc.
Qed.

Lemma parsePrecedenceWith_due k l c c' :
  errorDue c -> parsePrecedenceWith PF rules pp k l c = Ok tt c' ->
  errorDue c'.
Proof.
  intros Hc H. unfold parsePrecedenceWith in H.
  destruct (prefix (rules (prevType (advance c)))) as [fn|] eqn:E.
  - assert (Hcur : curType c <> parser.Error).
    { intros Heq. rewrite prevType_advance, Heq, Error_prefix in E.
      discriminate. }
    apply bind_Ok in H as ([] & c1 & H1 & H).
    apply call_due in H1; [|now apply errorDue_advance_from].
    apply bind_Ok in H as ([] & c2 & H2 & H).
    apply infixLoop_due in H2; [|exact H1].
    destruct (l <? PrecedenceAssignment)%nat;
      [|inversion H; subst; exact H2].
    unfold match_ in H. rewrite check_plain in H by discriminate.
    destruct (parser.eqb (curType c2) parser.Equal) eqn:Eq; simpl in H.
    + apply pp_due in H; [exact H|]. unfold error. apply errorDue_errorAt.
      eapply flagsAgree_step; [apply H2 | apply diagStep_advance].
    + inversion H; subst. exact H2.
  - (* an [Error] token in the place of an expression is reported *)
    inversion H; subst. unfold error. apply errorDue_errorAt.
    eapply flagsAgree_step; [apply Hc | apply diagStep_advance].
Qed.

End Callback.

Lemma parsePrecedence_due fuel : forall l c c',
  errorDue c -> parsePrecedence PF rules fuel l c = Ok tt c' -> errorDue c'.
Proof.
  induction fuel as [|n IH]; intros l c c' Hc H; [discriminate|].
  cbn [parsePrecedence] in H.
  eapply parsePrecedenceWith_due; [|exact Hc|exact H]. exact IH.
Qed.

Lemma returnStatement_due fuel c c' :
  prevType c <> parser.RightBrace -> errorDue c ->
  returnStatement PF rules fuel c = Ok tt c' -> errorDue c'.
Proof.
  intros Hp Hc H. unfold returnStatement, match_ in H.
  assert (Ek : check parser.Newline c
               = parser.eqb (curType c) parser.Newline).
  { unfold check. apply eqb_false_iff in Hp. now rewrite Hp. }
  rewrite Ek in H.
  destruct (parser.eqb (curType c) parser.Newline) eqn:E; simpl in H.
  - apply eqb_true_iff in E. inversion H; subst.
    unfold emitReturn. do 2 apply errorDue_emitOpCode.
    apply errorDue_advance_from; [exact Hc | rewrite E; discriminate].
  - apply bind_Ok in H as ([] & c1 & H1 & H).
    apply parsePrecedence_due in H1; [|exact Hc].
    apply bind_Ok in H as ([] & c2 & H2 & H).
    unfold lift in H2. inversion H2; subst.
    destruct (negb (check parser.Fn c)); unfold lift, ret in H;
      inversion H; subst; [apply errorDue_expect|];
      now apply errorDue_emitOpCode.
Qed.

Lemma declaration_due fuel c c' :
  errorDue c -> declaration PF rules fuel c = Ok tt c' -> errorDue c'.
Proof.
  intros Hc H. unfold declaration, statement, match_ in H.
  rewrite check_plain in H by discriminate.
  destruct (parser.eqb (curType c) parser.Return) eqn:E; simpl in H.
  - apply eqb_true_iff in E.
    eapply returnStatement_due; [| |exact H].
    + rewrite prevType_advance, E. discriminate.
    + apply errorDue_advance_from; [exact Hc | rewrite E; discriminate].
  - unfold expressionStatement in H.
    apply bind_Ok in H as ([] & c1 & H1 & H).
    apply parsePrecedence_due in H1; [|exact Hc].
    apply bind_Ok in H as ([] & c2 & H2 & H).
    unfold lift in H2, H. inversion H2; subst. inversion H; subst.
    apply errorDue_expect. now apply errorDue_emitOpCode.
Qed.

Lemma declarations_due fuel : forall c c',
  errorDue c -> declarations PF rules fuel c = Ok tt c' -> errorDue c'.
Proof.
  induction fuel as [|n IH]; intros c c' Hc H; [discriminate|].
  cbn [declarations] in H. unfold match_ in H.
  rewrite check_plain in H by discriminate.
  destruct (parser.eqb (curType c) parser.Eof) eqn:E; simpl in H.
  - apply eqb_true_iff in E. inversion H; subst.
    apply errorDue_advance_from; [exact Hc | rewrite E; discriminate].
  - apply bind_Ok in H as ([] & c1 & H1 & H2).
    eapply IH; [|exact H2]. eapply declaration_due; eauto.
Qed.

End ErrorDue.

(** The first loop of [Compile] takes no closing brace for a newline
    when it starts behind none. *)
Lemma skipLeading_due fuel : forall c c',
  errorKnown c -> curType c <> parser.RightBrace ->
  skipLeading fuel c = Ok tt c' -> errorDue c'.
Proof.
  induction fuel as [|n IH]; intros c c' Hc Hb H; [discriminate|].
  cbn [skipLeading] in H.
  pose proof (errorDue_advance c Hc) as Ha.
  destruct (negb (check parser.Newline (advance c))) eqn:E.
  - inversion H; subst. exact Ha.
  - apply negb_false_iff in E. unfold check in E.
    rewrite prevType_advance in E. apply eqb_false_iff in Hb.
    rewrite Hb in E. simpl in E. apply eqb_true_iff in E.
    eapply IH; [| |exact H].
    + apply errorKnown_of_due; [exact Ha | rewrite E; discriminate].
    + rewrite E. discriminate.
Qed.

Lemma skipLeading_endIsLast fuel c c' :
  Forall (fun t => parser.Type_ t <> parser.Eof) (parser.pending (p c)) ->
  skipLeading fuel c = Ok tt c' -> endIsLast c'.
Proof.
  intros Ht H. destruct fuel as [|n]; [discriminate|].
  cbn [skipLeading] in H.
  pose proof (advance_endIsLast c Ht) as Ha.
  destruct (negb _); [now inversion H; subst|].
  eapply keepsEnd_skipLeading; eauto.
Qed.

(** X16: a lexical error anywhere in the source fails the compilation.
    When [Error] tokens start no expression and continue none, the zero
    token of the parser is no closing brace and end-of-input comes last,
    a compilation of a source with an [Error] token that returns, returns
    nil with the error flag set: also for an [Error] token behind skipped
    newlines, which [advance] does not report. *)
Theorem lexical_error_fails_Compile
    (PF : string -> option spec_float)
    (rules : parser.TokenType -> ParseRule)
    (fuel : nat) (init : parser.Token) (tokens : list parser.Token) (eol : Z)
    (r : option Chunk) (c' : Compiler) :
  prefix (rules parser.Error) = None ->
  precedence (rules parser.Error) = PrecedenceNone ->
  parser.Type_ init <> parser.RightBrace ->
  Forall (fun t => parser.Type_ t <> parser.Eof) tokens ->
  Exists (fun t => parser.Type_ t = parser.Error) tokens ->
  Compile PF rules fuel (NewCompiler init tokens eol) = Ok r c' ->
  r = None /\ hadError c' = true.
Proof.
  intros Hpre Hprec Hi Ht He H.
  apply Compile_Ok in H as (c1 & H1 & H2 & Hr).
  assert (Eh : hadError c' = hadError c1).
  { eapply quiet_patchLastPop; eauto. }
  unfold compileLoops in H1. apply bind_Ok in H1 as ([] & c0 & H0 & H1).
  assert (D0 : errorDue c0).
  { eapply skipLeading_due; [| |exact H0].
    - split; [reflexivity | right; exact He].
    - exact Hi. }
  pose proof (declarations_due PF rules Hpre Hprec _ _ _ D0 H1) as D1.
  assert (L0 : endIsLast c0)
    by exact (skipLeading_endIsLast fuel (NewCompiler init tokens eol) c0
                Ht H0).
  destruct (declarations_exit PF rules fuel c0 c1 L0 H1) as (Ep & Ec & _).
  assert (E1 : hadError c1 = true).
  { destruct D1 as [_ [D|[D|D]]]; [exact D | |].
    - unfold curType in *. rewrite Ec in D. discriminate.
    - rewrite Ep in D. inversion D. }
  rewrite Eh, E1 in *. now subst r.
Qed.

Lemma lexical_error_fails_Compile_witness :
  exists r c',
    Compile parseDigits specRules 20
      (fresh [tok parser.Number "1"; tok parser.Semicolon ";";
              tok parser.Newline ""; tok parser.Error "?";
              tok parser.Number "2"]) = Ok r c' /\
    r = None /\ hadError c' = true.
Proof.
  eexists; eexists. split; [vm_compute; reflexivity|].
  eapply (lexical_error_fails_Compile parseDigits specRules 20
            (tok parser.Eof "")
            [tok parser.Number "1"; tok parser.Semicolon ";";
             tok parser.Newline ""; tok parser.Error "?";
             tok parser.Number "2"] 1).
  - reflexivity.
  - reflexivity.
  - discriminate.
  - repeat constructor; discriminate.
  - do 3 apply Exists_cons_tl. now apply Exists_cons_hd.
  - vm_compute; reflexivity.
Defined.

Lemma lexical_error_missed_behind_RightBrace :
  exists ch c',
    Compile parseDigits specRules 20
      (NewCompiler (tok parser.RightBrace "}")
         [tok parser.Newline ""; tok parser.Error "?";
          tok parser.Number "1"] 1) = Ok (Some ch) c' /\
    stderr c' = [].
Proof. eexists; eexists. split; vm_compute; reflexivity. Qed.

(* ================================================================== *)
(** ** A source that is one expression *)

Lemma expect_at_end c :
  curType c = parser.Eof -> expectNewlineOrSemicolon c = c.
Proof.
  intros E. unfold expectNewlineOrSemicolon.
  destruct (parser.eqb (prevType c) parser.RightBrace); [reflexivity|].
  rewrite E. simpl. now rewrite orb_true_r.
Qed.

Lemma patchLastPop_Pop c bs :
  code (chunk c) = bs ++ [OpCode.uint8 OpCode.Pop] ->
  patchLastPop c =
    Ok tt (setChunk (mkChunk (bs ++ [OpCode.uint8 OpCode.Return])
                             (constants (chunk c))) c).
Proof.
  intros E. pose proof (patchLastPop_spec c) as Hs.
  destruct (patchLastPop c) as [[] c5| |].
  - destruct Hs as (bs' & b & E1 & E2). rewrite E in E1.
    apply app_inj_tail in E1 as [-> <-]. now rewrite E2.
  - rewrite E in Hs. now destruct bs.
  - contradiction.
Qed.

(** X17: a source that is one expression, a chain [a0 op1 a1 ... opn an]
    of one-token operands and binary operators that groups to the left,
    compiles without a diagnostic to its code in postfix order followed by
    Return: the Pop of the expression statement is patched. *)
Theorem Compile_expression
    (PF : string -> option spec_float)
    (init a0 : parser.Token) (pairs : list (parser.Token * parser.Token))
    (eol : Z) (fuel : nat) :
  parser.Type_ init <> parser.RightBrace ->
  okAtom PF a0 -> leftChain PF PrecedenceAssignment pairs ->
  (List.length pairs + 4 <= fuel)%nat ->
  exists c',
    Compile PF specRules fuel
      (NewCompiler init (a0 :: flattenPairs pairs) eol)
    = Ok (Some (returning (chainChunk PF pairs (atomChunk PF a0 NewChunk))))
         c' /\
    stderr c' = [].
Proof.
  intros Hi Ha Hp Hf.
  set (c0 := NewCompiler init (a0 :: flattenPairs pairs) eol).
  set (c1 := shifted c0 a0 (flattenPairs pairs)).
  assert (HR : parser.Type_ a0 <> parser.Return)
    by (intros E; unfold okAtom in Ha; now rewrite E in Ha).
  assert (HE : parser.Type_ a0 <> parser.Eof)
    by (intros E; unfold okAtom in Ha; now rewrite E in Ha).
  assert (E0 : advance c0 = c1).
  { apply advance_onto; [reflexivity | eapply okAtom_not_Error; eauto|].
    right. eapply okAtom_not_Newline; eauto. }
  assert (K : check parser.Newline c1 = false).
  { unfold check, c1, prevType, curType. simpl.
    apply eqb_false_iff in Hi. rewrite Hi. apply eqb_false_iff.
    eapply okAtom_not_Newline; eauto. }
  destruct fuel as [|[|n]]; try lia.
  destruct (chain_run PF PrecedenceAssignment a0 pairs [] c1 (S n))
    as (c2 & H2 & E2 & [A2 P2] & (Q1 & Q2 & Q3)); auto; try lia.
  { exact I. }
  { unfold c1. simpl. now rewrite app_nil_r. }
  set (c3 := emitOpCode OpCode.Pop c2).
  assert (D1 : declaration PF specRules (S n) c1 = Ok tt c3).
  { unfold declaration, statement, match_.
    rewrite check_plain by discriminate.
    replace (parser.eqb (curType c1) parser.Return) with false
      by (symmetry; apply eqb_false_iff; exact HR).
    simpl. unfold expressionStatement, expression, bind. rewrite H2.
    unfold lift. now rewrite expect_at_end. }
  assert (D : declarations PF specRules (S (S n)) c1 = Ok tt (advance c3)).
  { cbn [declarations]. unfold match_ at 1.
    rewrite check_plain by discriminate.
    replace (parser.eqb (curType c1) parser.Eof) with false
      by (symmetry; apply eqb_false_iff; exact HE).
    simpl. unfold bind. rewrite D1. unfold match_.
    rewrite check_plain by discriminate.
    replace (parser.eqb (curType c3) parser.Eof) with true
      by (symmetry; apply eqb_true_iff; exact A2).
    reflexivity. }
  assert (E4 : advance c3 = shifted c3 (parser.eofToken (p c3)) [])
    by (now apply advance_at_end).
  eexists. split.
  - unfold Compile, bind. cbn [skipLeading]. rewrite E0, K. simpl negb.
    cbv iota. rewrite D.
    rewrite (patchLastPop_Pop _ (code (chunk c2)))
      by (now rewrite chunk_advance).
    cbn [hadError setChunk]. rewrite E4. cbn [hadError shifted setP c3
      emitOpCode setChunk]. rewrite Q1. cbn [hadError c1 shifted setP c0
      NewCompiler]. cbv iota. cbn [chunk]. unfold returning.
    change (chunk c1) with NewChunk in E2. rewrite <- E2. reflexivity.
  - change (stderr c2 = []). now rewrite Q3.
Qed.

Lemma Compile_expression_witness :
  exists c',
    Compile parseDigits specRules 6
      (NewCompiler (tok parser.Eof "")
         (tok parser.Number "1" ::
          flattenPairs [(tok parser.Plus "+", tok parser.Number "2");
                        (tok parser.Star "*", tok parser.Number "3")]) 1)
    = Ok (Some (returning
                  (chainChunk parseDigits
                     [(tok parser.Plus "+", tok parser.Number "2");
                      (tok parser.Star "*", tok parser.Number "3")]
                     (atomChunk parseDigits (tok parser.Number "1")
                                NewChunk)))) c' /\
    stderr c' = [].
Proof.
  apply (Compile_expression parseDigits (tok parser.Eof "")
           (tok parser.Number "1")
           [(tok parser.Plus "+", tok parser.Number "2");
            (tok parser.Star "*", tok parser.Number "3")] 1 6).
  - discriminate.
  - discriminate.
  - simpl. unfold level. simpl.
    unfold PrecedenceAssignment, PrecedenceTerm, PrecedenceFactor.
    repeat split; try discriminate; lia.
  - simpl; lia.
Defined.
